(** * Ojas_EB: parallel fan-out retrieval, deduplication, rank fusion and
      the token streaming relay.

    A shallow embedding of [agent/chatbot_agent_claw7.py] and
    [Backend/server.py].  Python dictionaries with a fixed set of keys become
    records (an optional key is an [option] field), exceptions become the
    [Raise] branch of [result], the external services (embedding, retrieval,
    reranking, [json.loads], the clock) are the methods of the class
    [Services], and the two threads of the streaming endpoint are a step
    function per thread, interleaved by an explicit schedule.

    A string is a sequence of Unicode code points, as a Python [str] is;
    floating-point scores are the rational numbers they denote (the code
    only compares them). *)

From Stdlib Require Import String Ascii Strings.Byte List NArith ZArith QArith Lia Bool.
From Stdlib Require Import Permutation Sorted.
From stdpp Require Import base option list strings countable gmap pretty sorting.
Import ListNotations.

Local Open Scope list_scope.

(* ===================================================================== *)
(** * Part I: the embedding                                               *)
(* ===================================================================== *)

(** ** Strings *)

(** A character is the number of its code point, a string the sequence
    of its characters: [len], slices, [strip] and the iteration over a
    string count code points, as Python does. *)
Definition char : Type := N.

Inductive string : Type :=
| EmptyString
| String (c : char) (s : string).

(** String literals: the characters of a literal are ASCII. *)
Fixpoint of_bytes (l : list Byte.byte) : option string :=
  match l with
  | [] => Some EmptyString
  | b :: rest =>
      if (Byte.to_N b <? 128)%N
      then option_map (String (Byte.to_N b)) (of_bytes rest)
      else None
  end.

Fixpoint to_bytes (s : string) : option (list Byte.byte) :=
  match s with
  | EmptyString => Some []
  | String c rest =>
      match (if (c <? 128)%N then Byte.of_N c else None), to_bytes rest with
      | Some b, Some l => Some (b :: l)
      | _, _ => None
      end
  end.

Declare Scope str_scope.
Delimit Scope str_scope with str.
Bind Scope str_scope with string.
String Notation string of_bytes to_bytes : str_scope.
Local Open Scope str_scope.

(** ** Exceptions *)

Inductive exn_kind :=
| JSONDecodeError | TypeError | KeyError | AttributeError
| IndexError | ValueError | RecursionError | ServiceError.

(** [exn_msg] is [str(e)]. *)
Record exn := Exn { exn_kind_of : exn_kind; exn_msg : string }.

Inductive result (A : Type) :=
| Ok (a : A)
| Raise (e : exn).
Arguments Ok {A} a.
Arguments Raise {A} e.

Global Instance result_ret : MRet result := fun A a => Ok a.
Global Instance result_bind : MBind result := fun A B k r =>
  match r with
  | Ok a => k a
  | Raise e => Raise e
  end.

Definition is_ok {A} (r : result A) : bool :=
  match r with Ok _ => true | Raise _ => false end.

(** ** Python string helpers *)

Module PyStr.

(** [len(s)] *)
Fixpoint len (s : string) : nat :=
  match s with
  | EmptyString => 0
  | String _ s' => S (len s')
  end.

(** [a + b] *)
Fixpoint append (a b : string) : string :=
  match a with
  | EmptyString => b
  | String c a' => String c (append a' b)
  end.

(** [a == b] *)
Fixpoint eqb (a b : string) : bool :=
  match a, b with
  | EmptyString, EmptyString => true
  | String c a', String d b' => N.eqb c d && eqb a' b'
  | _, _ => false
  end.

(** [sep.join(l)] *)
Fixpoint join_with (sep : string) (l : list string) : string :=
  match l with
  | [] => EmptyString
  | [x] => x
  | x :: rest => append x (append sep (join_with sep rest))
  end.

(** The characters of a string, and the string of a list of characters. *)
Fixpoint chars (s : string) : list char :=
  match s with
  | EmptyString => []
  | String c s' => c :: chars s'
  end.

Definition of_chars (l : list char) : string := foldr String EmptyString l.

(** The text that [str()] and the f-strings give for a number is ASCII. *)
Fixpoint of_std (s : Stdlib.Strings.String.string) : string :=
  match s with
  | Stdlib.Strings.String.EmptyString => EmptyString
  | Stdlib.Strings.String.String a s' => String (N_of_ascii a) (of_std s')
  end.

(** [s[n:]] *)
Fixpoint drop (n : nat) (s : string) : string :=
  match n, s with
  | O, _ => s
  | S n', String _ s' => drop n' s'
  | S _, EmptyString => EmptyString
  end.

(** [s.startswith(m)] *)
Fixpoint starts_with (m s : string) : bool :=
  match m, s with
  | EmptyString, _ => true
  | String _ _, EmptyString => false
  | String a m', String b s' => N.eqb a b && starts_with m' s'
  end.

(** The text after the leftmost occurrence of [sep] in [s], or [None]
    when [sep] does not occur: [sep in s] is [is_Some (after sep s)] and,
    for a non-empty [sep], [s.split(sep, 1)[1]] is its value. *)
Fixpoint after (sep s : string) : option string :=
  if starts_with sep s then Some (drop (len sep) s)
  else match s with
       | EmptyString => None
       | String _ s' => after sep s'
       end.

Definition contains (sep s : string) : bool :=
  match after sep s with Some _ => true | None => false end.

Definition nonempty (s : string) : bool :=
  match s with EmptyString => false | _ => true end.

Definition ValueError_empty_separator : exn := Exn ValueError "empty separator".

(** [s.split(sep, 1)[1]], for a string [s] that contains [sep]. *)
Definition split1_snd (sep s : string) : result string :=
  if nonempty sep then
    match after sep s with
    | Some r => Ok r
    | None => Raise (Exn IndexError "list index out of range")
    end
  else Raise ValueError_empty_separator.

(** The characters [str.strip()] removes, those for which [str.isspace]
    holds: U+0009..U+000D, U+001C..U+0020, U+0085, U+00A0, U+1680,
    U+2000..U+200A, U+2028, U+2029, U+202F, U+205F and U+3000. *)
Definition is_space (c : char) : bool :=
  (((9 <=? c) && (c <=? 13)) || ((28 <=? c) && (c <=? 32))
   || (c =? 133) || (c =? 160) || (c =? 5760)
   || ((8192 <=? c) && (c <=? 8202))
   || (c =? 8232) || (c =? 8233) || (c =? 8239) || (c =? 8287)
   || (c =? 12288))%N.

Fixpoint lstrip (s : string) : string :=
  match s with
  | EmptyString => EmptyString
  | String c s' => if is_space c then lstrip s' else s
  end.

Fixpoint rstrip (s : string) : string :=
  match s with
  | EmptyString => EmptyString
  | String c s' =>
      match rstrip s' with
      | EmptyString => if is_space c then EmptyString else String c EmptyString
      | r => String c r
      end
  end.

Definition strip (s : string) : string := rstrip (lstrip s).

(** [s[:n]] *)
Fixpoint take (n : nat) (s : string) : string :=
  match n, s with
  | O, _ => EmptyString
  | S _, EmptyString => EmptyString
  | S n', String c s' => String c (take n' s')
  end.

(** [''.join(l)] *)
Definition join (l : list string) : string := foldr append "" l.

End PyStr.

Infix "+:+" := PyStr.append (at level 60, right associativity) : str_scope.

Global Instance string_eq_dec : EqDecision string.
Proof. solve_decision. Defined.

Global Instance string_countable : Countable string.
Proof.
  apply (inj_countable' PyStr.chars PyStr.of_chars).
  intros s. induction s as [|c s IH]; simpl; [reflexivity | now rewrite IH].
Defined.

(** ** Token relay: [SSECallbackHandler] *)

Module Relay.

(** The handler object.  [q] is the content of the token queue as far as
    this producer has filled it (oldest item first). *)
Record Handler := mkHandler {
  q : list string;
  marker : string;
  buffer : string;
  started : bool;
  marker_len : nat
}.

(** [__init__] *)
Definition init (start_marker : string) : Handler :=
  {| q := []; marker := start_marker; buffer := ""; started := false;
     marker_len := PyStr.len start_marker |}.

Definition default_marker : string := "Final Answer:".

Definition q_put (token : string) (self : Handler) : Handler :=
  {| q := q self ++ [token]; marker := marker self; buffer := buffer self;
     started := started self; marker_len := marker_len self |}.

Definition set_buffer (b : string) (self : Handler) : Handler :=
  {| q := q self; marker := marker self; buffer := b;
     started := started self; marker_len := marker_len self |}.

Definition set_started (self : Handler) : Handler :=
  {| q := q self; marker := marker self; buffer := buffer self;
     started := true; marker_len := marker_len self |}.

(** [on_llm_new_token]: the handler after the call, and the exception
    the call raised, if any (the buffer keeps the token either way). *)
Definition on_llm_new_token (token : string) (self : Handler)
  : Handler * option exn :=
  if started self then (q_put token self, None)
  else
    let self := set_buffer (buffer self +:+ token) self in
    if PyStr.contains (marker self) (buffer self) then
      match PyStr.split1_snd (marker self) (buffer self) with
      | Raise e => (self, Some e)
      | Ok after_marker =>
          let self :=
            if PyStr.nonempty after_marker then q_put after_marker self
            else self in
          (set_started self, None)
      end
    else (self, None).

(** The handler observes the tokens of the generation one after the
    other; the run stops at the first call that raises. *)
Fixpoint observe (tokens : list string) (self : Handler) : Handler * option exn :=
  match tokens with
  | [] => (self, None)
  | t :: ts =>
      match on_llm_new_token t self with
      | (self', None) => observe ts self'
      | (self', Some e) => (self', Some e)
      end
  end.

(** What the token that completes the marker contributes: the text after
    the marker, unless it is empty ([if after_marker:]). *)
Definition rest_of (rem : string) : list string :=
  if PyStr.nonempty rem then [rem] else [].

(** What the default handler forwards for a token stream. *)
Definition forwarded (tokens : list string) : list string :=
  q (fst (observe tokens (init default_marker))).

End Relay.

(** ** The streaming endpoint: [ask_stream] *)

Module Stream.

Inductive Status := thinking | searching | answering | finished.

(** The payloads [sse_pack] serialises:
    [{"type": "status", "status": s}] and [{"type": "answer", "chunk": t}]. *)
Inductive Event :=
| EvStatus (s : Status)
| EvAnswer (chunk : string).

(** What [worker] does to the two queues, in program order.
    [PutToken None] is the sentinel. *)
Inductive WorkerOp :=
| PutStatus (s : Status)
| PutToken (t : option string).

(** How the call of [ask_parallel_enhanced_chatbot] ends in the worker
    thread: it returns the answer, or it raises (a missing API key, an
    unsupported service, a failure of the agent) and the thread dies. *)
Inductive Generation := Returns | Dies.

(** [worker]: the two status puts, the tokens the callback handler
    forwards while the agent runs, then the sentinel and the last status. *)
Definition worker (tokens : list string) (g : Generation) : list WorkerOp :=
  [PutStatus thinking; PutStatus searching]
  ++ map (fun t => PutToken (Some t)) tokens
  ++ match g with
     | Returns => [PutToken None; PutStatus finished]
     | Dies => []
     end.

(** Where the generator [stream] stands. *)
Inductive Pc :=
| AtStart      (* before the first yield *)
| AtPoll       (* at [token_queue.get(timeout=0.05)] *)
| AtDrain      (* at [while not status_queue.empty()] *)
| AtFinal      (* after [break], before the last yield *)
| Stopped.     (* the generator has returned *)

Record State := mkState {
  todo : list WorkerOp;            (* what the worker thread has still to do *)
  status_queue : list Status;
  token_queue : list (option string);
  pc : Pc;
  answer_started : bool;
  emitted : list Event             (* the events yielded so far, oldest first *)
}.

Definition start (tokens : list string) (g : Generation) : State :=
  {| todo := worker tokens g; status_queue := []; token_queue := [];
     pc := AtStart; answer_started := false; emitted := [] |}.

(** One operation of the worker thread. *)
Definition worker_step (s : State) : State :=
  match todo s with
  | [] => s
  | PutStatus x :: rest =>
      mkState rest (status_queue s ++ [x]) (token_queue s)
              (pc s) (answer_started s) (emitted s)
  | PutToken t :: rest =>
      mkState rest (status_queue s) (token_queue s ++ [t])
              (pc s) (answer_started s) (emitted s)
  end.

(** One step of the generator.  At [AtPoll] an item is taken when the
    queue holds one; [Empty] is raised only on an empty queue.  The two
    yields that follow the first token are one step: the generator reads
    no queue between them. *)
Definition consumer_step (s : State) : State :=
  match pc s with
  | AtStart =>
      mkState (todo s) (status_queue s) (token_queue s)
              AtPoll false (emitted s ++ [EvStatus thinking])
  | AtPoll =>
      match token_queue s with
      | [] =>                                   (* except Empty: pass *)
          mkState (todo s) (status_queue s) [] AtDrain
                  (answer_started s) (emitted s)
      | None :: rest =>                         (* sentinel: break *)
          mkState (todo s) (status_queue s) rest AtFinal
                  (answer_started s) (emitted s)
      | Some token :: rest =>
          mkState (todo s) (status_queue s) rest AtDrain true
                  (emitted s
                   ++ (if answer_started s then [] else [EvStatus answering])
                   ++ [EvAnswer token])
      end
  | AtDrain =>
      match status_queue s with
      | [] => mkState (todo s) [] (token_queue s) AtPoll
                      (answer_started s) (emitted s)
      | stat :: rest =>
          mkState (todo s) rest (token_queue s) AtDrain
                  (answer_started s) (emitted s ++ [EvStatus stat])
      end
  | AtFinal =>
      mkState (todo s) (status_queue s) (token_queue s) Stopped
              (answer_started s) (emitted s ++ [EvStatus finished])
  | Stopped => s
  end.

Inductive Thread := W | C.

Definition step (t : Thread) (s : State) : State :=
  match t with
  | W => worker_step s
  | C => consumer_step s
  end.

(** A schedule says which thread moves next. *)
Definition run (sched : list Thread) (s : State) : State :=
  fold_left (fun s t => step t s) sched s.

(** *** Reading an event stream *)

Definition statuses (tr : list Event) : list Status :=
  omap (fun e => match e with EvStatus s => Some s | EvAnswer _ => None end) tr.

Definition chunks (tr : list Event) : list string :=
  omap (fun e => match e with EvAnswer t => Some t | EvStatus _ => None end) tr.

Definition rank (s : Status) : nat :=
  match s with
  | thinking => 0 | searching => 1 | answering => 2 | finished => 3
  end.

Definition status_eqb (a b : Status) : bool := Nat.eqb (rank a) (rank b).

(** The statuses move strictly forward on the path
    thinking, searching, answering, finished. *)
Fixpoint forward (l : list Status) : bool :=
  match l with
  | a :: (b :: _) as rest => Nat.ltb (rank a) (rank b) && forward rest
  | _ => true
  end.

Definition count_status (x : Status) (tr : list Event) : nat :=
  length (filter (fun s => status_eqb s x = true) (statuses tr)).

Definition ends_with_finished (tr : list Event) : bool :=
  match last tr with
  | Some (EvStatus finished) => true
  | _ => false
  end.

(** The single forward path with exactly one [finished], as last event. *)
Definition single_forward_path (tr : list Event) : bool :=
  forward (statuses tr)
  && Nat.eqb (count_status finished tr) 1
  && ends_with_finished tr.

(** The statuses the generator relays or emits itself, [answering] apart. *)
Definition relayed (tr : list Event) : list Status :=
  filter (fun s => status_eqb s answering = false) (statuses tr).

(** *** The invariant of the interleaving *)

Definition pending_statuses (ops : list WorkerOp) : list Status :=
  omap (fun op => match op with PutStatus s => Some s | PutToken _ => None end) ops.

Definition pending_tokens (ops : list WorkerOp) : list (option string) :=
  omap (fun op => match op with PutToken t => Some t | PutStatus _ => None end) ops.

(** The sentinel, once the generator has taken it from the queue. *)
Definition sentinel_read (p : Pc) : list (option string) :=
  match p with
  | AtFinal | Stopped => [None]
  | _ => []
  end.

(** The status the generator emits first, and the one it emits last. *)
Definition opening (p : Pc) : list Status :=
  match p with AtStart => [] | _ => [thinking] end.

Definition closing (p : Pc) : list Status :=
  match p with Stopped => [finished] | _ => [] end.

Record Inv (tokens : list string) (g : Generation) (s : State) : Prop := {
  (* nothing is emitted before the first step of the generator *)
  inv_start : pc s = AtStart -> emitted s = [] /\ answer_started s = false;
  (* every token is relayed, queued or still to be put, in one order *)
  inv_tokens :
    map Some (chunks (emitted s)) ++ sentinel_read (pc s)
      ++ token_queue s ++ pending_tokens (todo s)
    = pending_tokens (worker tokens g);
  (* so is every status of the worker *)
  inv_statuses :
    exists drained,
      relayed (emitted s) = opening (pc s) ++ drained ++ closing (pc s) /\
      drained ++ status_queue s ++ pending_statuses (todo s)
      = pending_statuses (worker tokens g);
  inv_shape :
    exists body,
      emitted s
      = map EvStatus (opening (pc s)) ++ body ++ map EvStatus (closing (pc s));
  (* [answering] is emitted once, right before the first chunk *)
  inv_not_answering :
    answer_started s = false ->
    chunks (emitted s) = [] /\ count_status answering (emitted s) = 0;
  inv_answering :
    answer_started s = true ->
    count_status answering (emitted s) = 1 /\
    exists pre t post,
      emitted s = pre ++ [EvStatus answering; EvAnswer t] ++ post /\
      chunks pre = []
}.

(** The worker queues its two statuses before any token: once [answering]
    has been emitted, three statuses (the generator's [thinking] and the
    worker's two) have been relayed or wait in the drain loop. *)
Definition waiting (s : State) : nat :=
  match pc s with
  | AtDrain => length (status_queue s)
  | _ => 0
  end.

Record Order (tokens : list string) (g : Generation) (s : State) : Prop := {
  ord_suffix : exists done, worker tokens g = done ++ todo s;
  ord_relayed :
    answer_started s = true ->
    3 + length (closing (pc s)) <= length (relayed (emitted s)) + waiting s
}.

(** The sentinel is in the token queue, or the generator has read it. *)
Definition sentinel_ahead (s : State) : Prop :=
  None ∈ token_queue s \/ pc s = AtFinal \/ pc s = Stopped.

(** Steps the generator needs at most, running alone, to stop. *)
Definition weight (p : Pc) : nat :=
  match p with
  | AtStart => 2 | AtPoll => 1 | AtDrain => 2 | AtFinal => 1 | Stopped => 0
  end.

Definition fuel (s : State) : nat :=
  2 * length (token_queue s) + length (status_queue s) + weight (pc s).

(** The schedule of an unhurried run with one token: the worker queues
    its two statuses, the generator starts, polls in vain and drains
    them, the token arrives and is relayed, the worker finishes, the
    generator reads the sentinel and stops. *)
Definition ordinary : list Thread :=
  [W; W; C; C; C; C; C; W; C; C; W; W; C; C].

(** A run in which the generator is slow: the worker finishes before the
    generator starts. *)
Definition slow_generator : list Thread :=
  [W; W; W; W; W; W; C; C; C; C; C; C; C; C; C; C].

(** Modelled from the spec: the module [chatbot_agent_claw4], whose
    [ask_parallel_enhanced_chatbot] the worker calls, is not among the
    sources.  By section 4.6 of the specification the text observed is
    buffered until the marker is found, everything up to and including
    the marker is discarded and what follows is forwarded to the token
    channel, as the handler of [chatbot_agent_claw7] does with its
    default marker; [agent_tokens raw] are the tokens that the call then
    puts on the token queue when the model produces the tokens [raw]. *)
Definition agent_tokens (raw : list string) : list string := Relay.forwarded raw.

End Stream.

(** ** Sorting as [sorted] and [list.sort] do it *)

(** A stable insertion sort: [before x y] says that [x], which stood before
    [y] in the input, may stay before it.  With a total [before] on keys the
    result is the one any stable sort returns. *)
Fixpoint insert_by {A} (before : A -> A -> bool) (x : A) (l : list A) : list A :=
  match l with
  | [] => [x]
  | y :: ys => if before x y then x :: l else y :: insert_by before x ys
  end.

Definition stable_sort {A} (before : A -> A -> bool) (l : list A) : list A :=
  foldr (insert_by before) [] l.

(** ** Rows, JSON values and the external services *)

(** A row of the knowledge store as the retrieval calls return it, with the
    keys the executor adds on reranking.  [chunk_id] is the key ['id']. *)
Record Row := mkRow {
  chunk_id : Z;
  content : string;
  source_url : string;
  page_title : string;
  topic_heading : string;
  similarity : option Q;
  cohere_score : option Q;
  rerank_position : option nat
}.

(** Equality of scores is decidable. *)
Global Instance Qeq_decision (x y : Q) : Decision (x == y)%Q := Qeq_dec x y.

Record SearchParams := mkParams {
  query_embedding : list Q;
  keyword : string;
  match_count : nat;
  similarity_threshold : Q;
  title_match_count : option nat
}.

(** One entry of [rerank_response.results]. *)
Record RerankResult := mkRerank { index : nat; relevance_score : Q }.

(** A Python [float] as [json.loads] returns it. *)
Inductive pyfloat := Finite (x : Q) | PosInfinity | NegInfinity | NaN.

(** What [json.loads] returns.  The keys of a [JObj] are distinct. *)
#[local] Unset Elimination Schemes.
Inductive json :=
| JNull
| JBool (b : bool)
| JInt (z : Z)
| JFloat (x : pyfloat)
| JStr (s : string)
| JList (l : list json)
| JObj (kvs : list (string * json)).
#[local] Set Elimination Schemes.

(** The collaborators of the engine.  [json_loads] is [json.loads]: the
    value, or the exception the call raises ([JSONDecodeError] on a text
    that is not JSON; [RecursionError] and [ValueError] are the others the
    decoder is known to raise); [py_str] is [str()], [py_round x n] is
    [round(x, n)]; the two clocks give the seconds that a search, and the
    whole tool call, took in the run at hand. *)
Class Services := {
  vo_embed : string -> result (list Q);
  simple_hybrid_search : SearchParams -> result (option (list Row));
  title_filtered_search : SearchParams -> result (option (list Row));
  co_rerank : string -> list string -> nat -> result (list RerankResult);
  json_loads : string -> result json;
  py_str : json -> string;
  py_round : Q -> nat -> Q;
  search_seconds : string -> option string -> Q;
  overall_seconds : Q
}.

(** ** Dual-track search: [execute_dual_track_search] *)

Module Search.

Record SearchResult := mkResult {
  query : string;
  search_id : option string;
  results : list Row;
  search_time : Q;
  error : option string;
  total_before_rerank : option nat;
  total_after_rerank : option nat
}.

(** [result.get('similarity', 0)] and [result.get('cohere_score', 0)] *)
Definition get_similarity (r : Row) : Q := default 0%Q (similarity r).
Definition get_cohere_score (r : Row) : Q := default 0%Q (cohere_score r).

(** The loop over [simple_results + title_results]. *)
Fixpoint dedup_by_id (seen_ids : gset Z) (rows : list Row) : list Row :=
  match rows with
  | [] => []
  | r :: rest =>
      if decide (chunk_id r ∈ seen_ids) then dedup_by_id seen_ids rest
      else r :: dedup_by_id ({[chunk_id r]} ∪ seen_ids) rest
  end.

Definition combine (simple_results title_results : list Row) : list Row :=
  dedup_by_id ∅ (simple_results ++ title_results).

Definition set_rerank (score : Q) (position : nat) (r : Row) : Row :=
  mkRow (chunk_id r) (content r) (source_url r) (page_title r) (topic_heading r)
        (similarity r) (Some score) (Some position).

(** The loop that maps the rerank response back.  The rows of
    [combined_results] are shared objects that the loop updates in place:
    [store] holds them by position and [refs] the positions appended to
    [reranked_results].  [None] for the positions is an [IndexError]. *)
Fixpoint map_back (response : list RerankResult) (idx : nat)
         (store : list Row) (refs : list nat) : list Row * option (list nat) :=
  match response with
  | [] => (store, Some refs)
  | rerank_result :: rest =>
      match store !! index rerank_result with
      | None => (store, None)
      | Some original_result =>
          map_back rest (S idx)
            (<[index rerank_result :=
                 set_rerank (relevance_score rerank_result) (idx + 1) original_result]> store)
            (refs ++ [index rerank_result])
      end
  end.

Definition deref {A} (store : list A) (refs : list nat) : list A :=
  omap (fun i => store !! i) refs.

(** [sorted(rows, key=lambda x: x.get('similarity', 0), reverse=True)[:8]] *)
Definition by_similarity_desc (x y : Row) : bool :=
  Qle_bool (get_similarity y) (get_similarity x).

(** [x] is at least as similar as [y]. *)
Definition sim_ge (x y : Row) : Prop := (get_similarity y <= get_similarity x)%Q.

Definition similarity_fallback (rows : list Row) : list Row :=
  take 8 (stable_sort by_similarity_desc rows).

(** The parameter dictionaries of the two retrieval calls;
    [title_params] is [{**search_params, 'title_match_count': 10}]. *)
Definition search_params (query_embedding : list Q) (query : string) : SearchParams :=
  mkParams query_embedding query 30 (2 # 5) None.

Definition title_params (query_embedding : list Q) (query : string) : SearchParams :=
  mkParams query_embedding query 30 (2 # 5) (Some 10).

Section WithServices.
Context `{Services}.

(** The [if combined_results:] block. *)
Definition rerank (query : string) (combined_results : list Row) : list Row :=
  match combined_results with
  | [] => []
  | _ =>
      let documents := map content combined_results in
      match co_rerank query documents (Nat.min 10 (length documents)) with
      | Raise _ => similarity_fallback combined_results
      | Ok response =>
          match map_back response 0 combined_results [] with
          | (store, Some refs) => deref store refs
          | (store, None) => similarity_fallback store
          end
      end
  end.

(** The body of the outer [try]: the final results and
    [len(combined_results)], or the exception that leaves it. *)
Definition search_body (query : string) : result (list Row * nat) :=
  query_embedding ← vo_embed query;
  let future_simple :=
    simple_hybrid_search (search_params query_embedding query) in
  let future_title :=
    title_filtered_search (title_params query_embedding query) in
  simple_response ← future_simple;
  title_response ← future_title;
  let simple_results := default [] simple_response in
  let title_results := default [] title_response in
  let combined_results := combine simple_results title_results in
  let final_results := rerank query combined_results in
  mret (final_results, length combined_results).

Definition error_msg (query : string) (e : exn) : string :=
  "Search failed for '" +:+ query +:+ "': " +:+ exn_msg e.

(** The dictionary the outer [except] returns. *)
Definition failed (query : string) (search_id : option string) (e : exn)
  : SearchResult :=
  mkResult query search_id [] (search_seconds query search_id)
           (Some (error_msg query e)) None None.

Definition execute_dual_track_search (query : string) (search_id : option string)
  : SearchResult :=
  match search_body query with
  | Ok (final_results, before) =>
      mkResult query search_id final_results (search_seconds query search_id)
               None (Some before) (Some (length final_results))
  | Raise e => failed query search_id e
  end.

End WithServices.

End Search.

(** ** Fan-out over the sub-queries *)

Module FanOut.
Import Search.

(** [f"Q{i+1}"] *)
Definition qid (i : nat) : string := "Q" +:+ PyStr.of_std (pretty (i + 1)%nat).

(** [{f"Q{i+1}": i for i in range(n)}] *)
Definition search_id_to_order (n : nat) : gmap string nat :=
  list_to_map (map (fun i => (qid i, i)) (seq 0 n)).

(** [search_id_to_order.get(x.get('search_id', 'Q999'), 999)]; the key
    ['search_id'] is always present, with value [None] at worst. *)
Definition order_key (n : nat) (x : SearchResult) : nat :=
  match search_id x with
  | Some sid => default 999%nat (search_id_to_order n !! sid)
  | None => 999%nat
  end.

Definition sort_by_order (n : nat) (l : list SearchResult) : list SearchResult :=
  stable_sort (fun x y => Nat.leb (order_key n x) (order_key n y)) l.

Section WithServices.
Context `{Services}.

(** The task submitted for the sub-query at position [i]. *)
Definition task (i : nat) (query : string) : SearchResult :=
  execute_dual_track_search query (Some (qid i)).

(** The task of position [i], the sub-query looked up. *)
Definition nth_task (queries : list string) (i : nat) : SearchResult :=
  task i (default "" (queries !! i)).

(** [all_search_results] after the [as_completed] loop: the results of
    the tasks in the order [completion] in which they finished. *)
Definition collect (completion : list nat) (queries : list string)
  : list SearchResult :=
  omap (fun i => task i <$> queries !! i) completion.

Definition fan_out (completion : list nat) (queries : list string)
  : list SearchResult :=
  sort_by_order (length queries) (collect completion queries).

End WithServices.

End FanOut.

(** ** Cross-query deduplication and score aggregation *)

Module Aggregate.
Import Search.

(** The dictionary under ['best_scores']. *)
Record BestScores := mkBest { bs_similarity : Q; bs_cohere_score : Q }.

(** One value of [chunk_groups]. *)
Record Group := mkGroup {
  chunk_data : option Row;
  source_queries : list string;
  source_query_ids : list (option string);
  best_scores : BestScores
}.

(** The factory of the [defaultdict]. *)
Definition new_group : Group := mkGroup None [] [] (mkBest 0 0).

(** [x > y] on scores *)
Definition Qgtb (x y : Q) : bool := negb (Qle_bool x y).

(** What one pass of the inner loop does to the group of its chunk. *)
Definition record_retrieval (search_result : SearchResult) (result : Row)
           (g : Group) : Group :=
  let similarity := get_similarity result in
  let cohere_score := get_cohere_score result in
  mkGroup
    (match chunk_data g with
     | None => Some result                       (* result.copy() *)
     | Some kept => Some kept
     end)
    (source_queries g ++ [query search_result])
    (source_query_ids g ++ [search_id search_result])
    (mkBest
       (if Qgtb similarity (bs_similarity (best_scores g))
        then similarity else bs_similarity (best_scores g))
       (if Qgtb cohere_score (bs_cohere_score (best_scores g))
        then cohere_score else bs_cohere_score (best_scores g))).

(** [chunk_groups[chunk_id]] updated by [f]; a missing key is created
    from [new_group] at the end, so that the keys keep insertion order. *)
Fixpoint update (cid : Z) (f : Group -> Group) (groups : list (Z * Group))
  : list (Z * Group) :=
  match groups with
  | [] => [(cid, f new_group)]
  | (k, g) :: rest =>
      if decide (k = cid) then (k, f g) :: rest
      else (k, g) :: update cid f rest
  end.

Definition process_result (groups : list (Z * Group)) (search_result : SearchResult)
  : list (Z * Group) :=
  fold_left
    (fun groups result =>
       update (chunk_id result) (record_retrieval search_result result) groups)
    (results search_result) groups.

Definition group_chunks (all_search_results : list SearchResult) : list (Z * Group) :=
  fold_left process_result all_search_results [].

(** A deduplicated chunk: the copied row and the keys added to it.  The
    order of [list(set(..))] is not specified, so the two provenance
    lists are kept as sets. *)
Record Chunk := mkChunk {
  row : Row;
  retrieved_by_queries : gset string;
  retrieved_by_query_ids : gset (option string);
  retrieval_count : nat;
  unique_query_count : nat;
  best_similarity : Q;
  best_cohere_score : Q;
  final_cohere_score : option Q;
  final_rank : option nat
}.

Definition to_chunk (group_data : Group) : option Chunk :=
  match chunk_data group_data with
  | None => None
  | Some chunk =>
      Some (mkChunk chunk
              (list_to_set (source_queries group_data))
              (list_to_set (source_query_ids group_data))
              (length (source_queries group_data))
              (size (list_to_set (source_queries group_data) : gset string))
              (bs_similarity (best_scores group_data))
              (bs_cohere_score (best_scores group_data))
              None None)
  end.

Definition deduplicated_chunks (groups : list (Z * Group)) : list Chunk :=
  omap (fun kg => to_chunk (snd kg)) groups.

Definition deduplicate (all_search_results : list SearchResult) : list Chunk :=
  deduplicated_chunks (group_chunks all_search_results).

(** [chunk_groups.get(cid)] *)
Fixpoint find (cid : Z) (groups : list (Z * Group)) : option Group :=
  match groups with
  | [] => None
  | (k, g) :: rest => if decide (k = cid) then Some g else find cid rest
  end.

(** Every row the two loops visit, with the search result it belongs to,
    in the order of the visit. *)
Definition visits (all_search_results : list SearchResult)
  : list (SearchResult * Row) :=
  flat_map (fun sr => map (fun r => (sr, r)) (results sr)) all_search_results.

Definition visit (groups : list (Z * Group)) (p : SearchResult * Row)
  : list (Z * Group) :=
  update (chunk_id (snd p)) (record_retrieval (fst p) (snd p)) groups.

(** The group a sequence of visits of one chunk builds. *)
Definition summarize (g0 : Group) (ps : list (SearchResult * Row)) : Group :=
  fold_left (fun g p => record_retrieval (fst p) (snd p) g) ps g0.

Definition of_chunk (cid : Z) (ps : list (SearchResult * Row))
  : list (SearchResult * Row) :=
  filter (fun p => chunk_id (snd p) = cid) ps.

(** The appearances of an id in the results of the sub-queries, each with
    the text of its sub-query, in the order the aggregator meets them. *)
Definition appearances (cid : Z) (all_search_results : list SearchResult)
  : list (string * Row) :=
  flat_map
    (fun sr => map (fun r => (query sr, r))
                   (filter (fun r => chunk_id r = cid) (results sr)))
    all_search_results.

End Aggregate.

(** ** Final fusion reranking *)

Module Fusion.
Import Search Aggregate.

Definition set_final (score : Q) (rank : nat) (c : Chunk) : Chunk :=
  mkChunk (row c) (retrieved_by_queries c) (retrieved_by_query_ids c)
          (retrieval_count c) (unique_query_count c)
          (best_similarity c) (best_cohere_score c)
          (Some score) (Some rank).

(** The loop over [final_rerank.results]; as in [Search.map_back] the
    chunks are shared objects updated in place. *)
Fixpoint apply_ranking (response : list RerankResult) (idx : nat)
         (store : list Chunk) (refs : list nat) : list Chunk * option (list nat) :=
  match response with
  | [] => (store, Some refs)
  | rerank_result :: rest =>
      match store !! index rerank_result with
      | None => (store, None)
      | Some chunk =>
          apply_ranking rest (S idx)
            (<[index rerank_result :=
                 set_final (relevance_score rerank_result) (idx + 1) chunk]> store)
            (refs ++ [index rerank_result])
      end
  end.

Definition nonempty {A} (l : list A) : bool :=
  match l with [] => false | _ => true end.

Section WithServices.
Context `{Services}.

Definition final_chunks (queries : list string) (deduplicated_chunks : list Chunk)
  : list Chunk :=
  if Nat.ltb 1 (length queries) && nonempty deduplicated_chunks then
    let main_query := PyStr.join_with " " queries in
    let documents := map (fun chunk => content (row chunk)) deduplicated_chunks in
    match co_rerank main_query documents (Nat.min 10 (length documents)) with
    | Ok final_rerank =>
        match apply_ranking final_rerank 0 deduplicated_chunks [] with
        | (store, Some refs) => deref store refs
        | (store, None) => take 12 store
        end
    | Raise _ => take 12 deduplicated_chunks
    end
  else take 8 deduplicated_chunks.

End WithServices.

End Fusion.

(** ** The input parser of [parallel_comprehensive_search] *)

Module Parser.

Definition default_query : string := "general dementia care information".

Fixpoint get_key (k : string) (kvs : list (string * json)) : option json :=
  match kvs with
  | [] => None
  | (k', v) :: rest => if PyStr.eqb k k' then Some v else get_key k rest
  end.

(** [type(v).__name__] *)
Definition type_name (v : json) : string :=
  match v with
  | JNull => "NoneType"
  | JBool _ => "bool"
  | JInt _ => "int"
  | JFloat _ => "float"
  | JStr _ => "str"
  | JList _ => "list"
  | JObj _ => "dict"
  end.

Definition not_iterable (v : json) : exn :=
  Exn TypeError ("'" +:+ type_name v +:+ "' object is not iterable").

Definition no_strip (v : json) : exn :=
  Exn AttributeError ("'" +:+ type_name v +:+ "' object has no attribute 'strip'").

(** [for q in queries]: a list gives its items, a string its characters,
    a dictionary its keys; nothing else is iterable. *)
Definition iterate (queries : json) : result (list json) :=
  match queries with
  | JList l => Ok l
  | JStr s => Ok (map (fun c => JStr (String c EmptyString)) (PyStr.chars s))
  | JObj kvs => Ok (map (fun kv => JStr (fst kv)) kvs)
  | v => Raise (not_iterable v)
  end.

(** [q.strip()] *)
Definition strip_of (q : json) : result string :=
  match q with
  | JStr s => Ok (PyStr.strip s)
  | v => Raise (no_strip v)
  end.

(** [[q.strip() for q in queries if q.strip()]] over the items. *)
Fixpoint cleanup (items : list json) : result (list string) :=
  match items with
  | [] => Ok []
  | q :: rest =>
      stripped ← strip_of q;
      kept ← cleanup rest;
      mret (if PyStr.nonempty stripped then stripped :: kept else kept)
  end.

(** The validation below the [try]. *)
Definition validate (queries : json) : result (list string) :=
  items ← iterate queries;
  queries ← cleanup items;
  mret (match queries with
        | [] => [default_query]
        | _ => queries
        end).

(** [except (json.JSONDecodeError, TypeError, KeyError)] *)
Definition caught (e : exn) : bool :=
  match exn_kind_of e with
  | JSONDecodeError | TypeError | KeyError => true
  | _ => false
  end.

Section WithServices.
Context `{Services}.

(** The body of the [try]: [queries] as it leaves it, or the exception
    that does. *)
Definition try_body (query_input : string) : result json :=
  parsed ← json_loads query_input;
  match parsed with
  | JList l => Ok (JList l)
  | JObj kvs =>
      match get_key "queries_json" kvs with
      | Some (JStr inner_json) => json_loads inner_json
      | Some inner_json => Ok inner_json
      | None => Ok (JList [JStr (py_str (JObj kvs))])
      end
  | JStr s =>
      match json_loads s with
      | Ok v => Ok v
      | Raise _ => Ok (JList [JStr s])        (* the bare [except] *)
      end
  | parsed => Ok (JList [JStr (py_str parsed)])
  end.

(** [queries] after the [try] statement; an exception that the [except]
    clause does not name leaves the tool. *)
Definition read_input (query_input : string) : result json :=
  match try_body query_input with
  | Ok queries => Ok queries
  | Raise e =>
      if caught e then Ok (JList [JStr (PyStr.strip query_input)])
      else Raise e
  end.

Definition parse_queries (query_input : string) : result (list string) :=
  queries ← read_input query_input;
  validate queries.

End WithServices.

End Parser.

(** ** Formatting and the tool as a whole *)

Module Report.
Import Search FanOut Aggregate.

Record FormattedChunk := mkFormatted {
  fmt_chunk_id : Z;
  fmt_source_url : string;
  fmt_page_title : string;
  fmt_topic_heading : string;
  fmt_content : string;
  fmt_similarity_score : Q;
  fmt_cohere_score : Q;
  fmt_best_similarity : Q;
  fmt_best_cohere_score : Q;
  fmt_final_cohere_score : Q;
  fmt_final_rank : option nat;
  fmt_retrieved_by_queries : gset string;
  fmt_retrieved_by_query_ids : gset (option string);
  fmt_retrieval_count : nat;
  fmt_unique_query_count : nat;
  fmt_is_duplicate_found : bool
}.

Record DedupStats := mkStats {
  total_chunks_before : nat;
  unique_chunks_after : nat;
  duplicates_removed : Z;
  chunks_found_multiple_times : nat
}.

Record QueryDetail := mkDetail {
  qd_query : string;
  qd_search_id : option string;
  qd_results_count : nat;
  qd_search_time : Q;
  qd_error : option string
}.

Record SearchSummary := mkSummary {
  total_queries : nat;
  parsed_queries : list string;
  deduplication_stats : DedupStats;
  query_details : list QueryDetail;
  summary_results : list FormattedChunk;
  total_results : nat;
  overall_time : Q
}.

(** The two objects the tool serialises with [json.dumps]. *)
Inductive ToolOutput :=
| NotFound (message : string) (queries : list string) (search_summary : SearchSummary)
| Found (search_summary : SearchSummary).

(** The value under the key ["status"], when the object has one. *)
Definition status (o : ToolOutput) : option string :=
  match o with
  | NotFound _ _ _ => Some "not_found"
  | Found _ => None
  end.

Definition summary (o : ToolOutput) : SearchSummary :=
  match o with
  | NotFound _ _ s => s
  | Found s => s
  end.

Definition not_found_message : string :=
  "No relevant information found for any of the queries.".

Definition truncate_content (c : string) : string :=
  if Nat.ltb 800 (PyStr.len c) then PyStr.take 800 c +:+ "..." else c.

Definition total_before (all_search_results : list SearchResult) : nat :=
  sum_list (map (fun sr => length (results sr)) all_search_results).

Section WithServices.
Context `{Services}.

Definition format_chunk (chunk : Chunk) : FormattedChunk :=
  mkFormatted
    (chunk_id (row chunk)) (source_url (row chunk)) (page_title (row chunk))
    (topic_heading (row chunk)) (truncate_content (content (row chunk)))
    (py_round (get_similarity (row chunk)) 3)
    (py_round (get_cohere_score (row chunk)) 3)
    (py_round (best_similarity chunk) 3)
    (py_round (best_cohere_score chunk) 3)
    (py_round (default 0%Q (final_cohere_score chunk)) 3)
    (final_rank chunk)
    (retrieved_by_queries chunk) (retrieved_by_query_ids chunk)
    (retrieval_count chunk) (unique_query_count chunk)
    (Nat.ltb 1 (retrieval_count chunk)).

Definition query_detail (sr : SearchResult) : QueryDetail :=
  mkDetail (query sr) (search_id sr) (length (results sr)) (search_time sr) (error sr).

(** The tool from the parsed queries on.  [completion] is the order in
    which the search tasks finish. *)
Definition search_and_report (completion : list nat) (queries : list string)
  : ToolOutput :=
  let all_search_results := fan_out completion queries in
  let deduplicated_chunks := deduplicate all_search_results in
  let final_chunks := Fusion.final_chunks queries deduplicated_chunks in
  let formatted_results := map format_chunk final_chunks in
  let search_summary :=
    mkSummary
      (length queries) queries
      (mkStats
         (total_before all_search_results)
         (length deduplicated_chunks)
         (Z.of_nat (total_before all_search_results)
          - Z.of_nat (length deduplicated_chunks))%Z
         (length (filter (fun chunk => Nat.ltb 1 (retrieval_count chunk) = true)
                         final_chunks)))
      (map query_detail all_search_results)
      formatted_results
      (length formatted_results)
      (py_round overall_seconds 2) in
  match formatted_results with
  | [] => NotFound not_found_message queries search_summary
  | _ => Found search_summary
  end.

(** [parallel_comprehensive_search] *)
Definition parallel_comprehensive_search (completion : list nat)
           (query_input : string) : result ToolOutput :=
  queries ← Parser.parse_queries query_input;
  mret (search_and_report completion queries).

End WithServices.

End Report.

(** ** Concrete services for the scenarios *)

Module Scenarios.

Definition unavailable : exn := Exn ServiceError "service unavailable".

Definition row (cid : Z) (sim : Q) : Row :=
  mkRow cid "text" "https://example.org/page" "Page" "Heading" (Some sim) None None.

(** A reranker that keeps the order of the documents. *)
Definition identity_rerank (documents : list string) (top_n : nat)
  : result (list RerankResult) :=
  Ok (map (fun i => mkRerank i 1) (seq 0 top_n)).

(** A double quote, and the JSON text of the list of two blank strings. *)
Definition dq : string := String 34%N EmptyString.
Definition blank_list_text : string :=
  "[" +:+ dq +:+ dq +:+ ", " +:+ dq +:+ " " +:+ dq +:+ "]".
Definition number_list_text : string := "[1, 2]".

(** [json.loads] on the inputs the scenarios use; every other text is
    taken as not being JSON. *)
Definition not_json : exn :=
  Exn JSONDecodeError "Expecting value: line 1 column 1 (char 0)".

Definition loads (s : string) : result json :=
  if PyStr.eqb s blank_list_text then Ok (JList [JStr ""; JStr " "])
  else if PyStr.eqb s number_list_text then Ok (JList [JInt 1; JInt 2])
  else Raise not_json.

Definition make (embed : string -> result (list Q))
           (simple title : SearchParams -> result (option (list Row)))
           (rerank : string -> list string -> nat -> result (list RerankResult))
  : Services :=
  {| vo_embed := embed;
     simple_hybrid_search := simple;
     title_filtered_search := title;
     co_rerank := rerank;
     json_loads := loads;
     py_str := fun _ => "None";
     py_round := fun x _ => x;
     search_seconds := fun _ _ => 0%Q;
     overall_seconds := 0%Q |}.

(** The simple track is down; the title track finds one row. *)
Definition simple_track_down : Services :=
  make (fun _ => Ok [])
       (fun _ => Raise unavailable)
       (fun _ => Ok (Some [row 1 (7 # 10)]))
       (fun _ => identity_rerank).

(** The title track is down; the simple track finds one row. *)
Definition title_track_down : Services :=
  make (fun _ => Ok [])
       (fun _ => Ok (Some [row 1 (7 # 10)]))
       (fun _ => Raise unavailable)
       (fun _ => identity_rerank).

(** The embedding service is down. *)
Definition embedding_down : Services :=
  make (fun _ => Raise unavailable)
       (fun _ => Ok (Some [row 1 (7 # 10)]))
       (fun _ => Ok None)
       (fun _ => identity_rerank).

(** Scenario C: five merged rows (six retrieved, one by both tracks) and
    a reranker that is down. *)
Definition rerank_down : Services :=
  make (fun _ => Ok [])
       (fun _ => Ok (Some [row 1 (5 # 10); row 2 (9 # 10); row 3 (7 # 10)]))
       (fun _ => Ok (Some [row 3 (7 # 10); row 4 (6 # 10); row 5 (8 # 10)]))
       (fun _ _ _ => Raise unavailable).

(** Scenario A: both sub-queries find row 5, Q1 with similarity 0.70 and
    no rerank score (its rerank call fails), Q2 with similarity 0.60 and
    rerank score 0.80. *)
Definition scenario_A : Services :=
  make (fun _ => Ok [])
       (fun p => if PyStr.eqb (keyword p) "Q1"
                 then Ok (Some [row 5 (70 # 100)])
                 else Ok (Some [row 5 (60 # 100)]))
       (fun _ => Ok None)
       (fun query _ _ => if PyStr.eqb query "Q2"
                         then Ok [mkRerank 0 (80 # 100)]
                         else Raise unavailable).

(** As [healthy] below, but the embedding call fails for one sub-query. *)
Definition flaky : Services :=
  make (fun q => if PyStr.eqb q "eating" then Raise unavailable else Ok [])
       (fun p => if PyStr.eqb (keyword p) "sleep"
                 then Ok (Some [row 1 (9 # 10); row 2 (8 # 10)])
                 else Ok (Some [row 2 (6 # 10); row 3 (5 # 10)]))
       (fun _ => Ok (Some [row 1 (7 # 10)]))
       (fun _ => identity_rerank).

(** Scenario B: both tracks return nothing. *)
Definition empty_store : Services :=
  make (fun _ => Ok []) (fun _ => Ok None) (fun _ => Ok (Some []))
       (fun _ => identity_rerank).

(** Three rows per sub-query, two of them shared, and a working reranker. *)
Definition healthy : Services :=
  make (fun _ => Ok [])
       (fun p => if PyStr.eqb (keyword p) "sleep"
                 then Ok (Some [row 1 (9 # 10); row 2 (8 # 10)])
                 else Ok (Some [row 2 (6 # 10); row 3 (5 # 10)]))
       (fun _ => Ok (Some [row 1 (7 # 10)]))
       (fun _ => identity_rerank).

(** Two deduplicated chunks, as the aggregator leaves them. *)
Definition chunk (cid : Z) (sim : Q) (found_by : list string) : Aggregate.Chunk :=
  Aggregate.mkChunk (row cid sim) (list_to_set found_by) ∅
                    (length found_by) (length found_by) sim 0 None None.

Definition two_chunks : list Aggregate.Chunk :=
  [chunk 1 (9 # 10) ["sleep"]; chunk 2 (8 # 10) ["sleep"; "eating"]].

(** A reranker that prefers the later documents. *)
Definition reversing : Services :=
  make (fun _ => Ok []) (fun _ => Ok None) (fun _ => Ok None)
       (fun _ documents top_n =>
          Ok (map (fun i => mkRerank i (1 # 2)) (reverse (seq 0 top_n)))).

End Scenarios.

(** ** The session history of [server.py] *)

Module Session.

(** One entry of a chat log: [{"role": .., "content": ..}]. *)
Record Turn := mkTurn { role : string; content : string }.

(** [CHAT_MEMORY.get(chat_id, [])]: the log of a chat, empty for an
    unknown id; the lookup creates no entry. *)
Definition get_turns (chat_id : string) (CHAT_MEMORY : gmap string (list Turn))
  : list Turn :=
  default [] (CHAT_MEMORY !! chat_id).

(** [l[start:]] for any integer [start]: a negative one counts from the
    end, and both ends are clamped. *)
Definition slice_from {A} (start : Z) (l : list A) : list A :=
  if (start <? 0)%Z
  then drop (Z.to_nat (Z.max 0 (Z.of_nat (length l) + start))) l
  else drop (Z.to_nat start) l.

Definition who (m : Turn) : string :=
  if PyStr.eqb (role m) "user" then "User" else "Assistant".

(** [f"**{who}:** {m['content']}"] *)
Definition block (m : Turn) : string := "**" +:+ who m +:+ ":** " +:+ content m.

Definition newline : string := String 10%N EmptyString.

(** The list [blocks] of [build_history_prompt]. *)
Definition history_blocks (max_pairs : Z) (chat_id : string)
           (CHAT_MEMORY : gmap string (list Turn)) : list string :=
  map block (slice_from (- max_pairs * 2)%Z (get_turns chat_id CHAT_MEMORY)).

Definition build_history_prompt (max_pairs : Z) (chat_id : string)
           (CHAT_MEMORY : gmap string (list Turn)) : string :=
  PyStr.join_with newline (history_blocks max_pairs chat_id CHAT_MEMORY).

(** [CHAT_MEMORY[chat_id].append(turn)] on the [defaultdict(list)]. *)
Definition append_turn (chat_id : string) (turn : Turn)
           (CHAT_MEMORY : gmap string (list Turn)) : gmap string (list Turn) :=
  <[chat_id := get_turns chat_id CHAT_MEMORY ++ [turn]]> CHAT_MEMORY.

(** What [ask] leaves in the memory once the agent has answered. *)
Definition ask_records (chat_id query answer : string)
           (CHAT_MEMORY : gmap string (list Turn)) : gmap string (list Turn) :=
  append_turn chat_id (mkTurn "assistant" answer)
    (append_turn chat_id (mkTurn "user" query) CHAT_MEMORY).

(** A sequence of exchanges, each recorded as [ask] records it. *)
Definition record_all (exchanges : list (string * string * string))
           (CHAT_MEMORY : gmap string (list Turn)) : gmap string (list Turn) :=
  fold_left (fun mem x => ask_records (fst (fst x)) (snd (fst x)) (snd x) mem)
            exchanges CHAT_MEMORY.

(** The turns of one exchange, and the log of a chat that has seen the
    exchanges [exchanges], questions with their answers, through [ask]. *)
Definition exchange_turns (x : string * string) : list Turn :=
  [mkTurn "user" (fst x); mkTurn "assistant" (snd x)].

Definition session (chat_id : string) (exchanges : list (string * string))
  : gmap string (list Turn) :=
  record_all (map (fun x => (chat_id, fst x, snd x)) exchanges) ∅.

(** *** Requests in flight *)

(** The server runs its requests in threads, without a lock.  Every
    statement that changes [CHAT_MEMORY] is an append to the log of one
    chat; a write is the chat id and the turn appended. *)
Definition Write : Type := string * Turn.

Definition apply_write (w : Write) (CHAT_MEMORY : gmap string (list Turn))
  : gmap string (list Turn) :=
  append_turn (fst w) (snd w) CHAT_MEMORY.

(** Writes, in the order in which they happen. *)
Definition appended (writes : list Write) (CHAT_MEMORY : gmap string (list Turn))
  : gmap string (list Turn) :=
  fold_left (fun mem w => apply_write w mem) writes CHAT_MEMORY.

(** The writes of one request, [ask] or [worker], in program order. *)
Definition request_writes (chat_id query answer : string) : list Write :=
  [(chat_id, mkTurn "user" query); (chat_id, mkTurn "assistant" answer)].

(** Requests in flight: what each has still to write, the memory, and
    the writes made so far, each with the position of its request. *)
Record Flight := mkFlight {
  pending : list (list Write);
  memory : gmap string (list Turn);
  written : list (nat * Write)
}.

Definition take_off (programs : list (list Write))
           (CHAT_MEMORY : gmap string (list Turn)) : Flight :=
  mkFlight programs CHAT_MEMORY [].

(** The request at position [i] makes its next write. *)
Definition step_request (i : nat) (f : Flight) : Flight :=
  match pending f !! i with
  | Some (w :: rest) =>
      mkFlight (<[i := rest]> (pending f)) (apply_write w (memory f))
               (written f ++ [(i, w)])
  | _ => f
  end.

(** A schedule says which request moves next. *)
Definition fly (sched : list nat) (f : Flight) : Flight :=
  fold_left (fun f i => step_request i f) sched f.

(** What holds of the requests in flight after any schedule. *)
Record Flying (programs : list (list Write)) (mem : gmap string (list Turn))
       (f : Flight) : Prop := {
  fly_memory : memory f = appended (map snd (written f)) mem;
  fly_length : length (pending f) = length programs;
  fly_order :
    forall i program, programs !! i = Some program ->
      exists rest,
        pending f !! i = Some rest /\
        map snd (filter (fun d => fst d = i) (written f)) ++ rest = program;
  fly_origin :
    forall d, d ∈ written f ->
      exists program, programs !! fst d = Some program /\ snd d ∈ program
}.

(** [history_block] in [worker] when the other requests make the writes
    [others] between the append of the worker and its reading of the log. *)
Definition worker_history_among (others : list Write) (chat_id query : string)
           (CHAT_MEMORY : gmap string (list Turn)) : string :=
  build_history_prompt 6 chat_id
    (appended others (append_turn chat_id (mkTurn "user" query) CHAT_MEMORY)).

(** Two requests of one chat that overlap: both questions are logged
    before either answer. *)
Definition overlapping : list nat := [0; 1; 1; 0].

End Session.

(** ** Records without the keys that later stages add *)

Module Shape.
Import Search Aggregate.

(** A row without the two keys of the rerank loop. *)
Definition retrieved (r : Row) : Row :=
  mkRow (chunk_id r) (content r) (source_url r) (page_title r) (topic_heading r)
        (similarity r) None None.

(** A chunk without the two keys of the final ranking. *)
Definition unranked (c : Chunk) : Chunk :=
  mkChunk (row c) (retrieved_by_queries c) (retrieved_by_query_ids c)
          (retrieval_count c) (unique_query_count c)
          (best_similarity c) (best_cohere_score c) None None.

(** The ids of a list of rows in the order in which they are first met. *)
Fixpoint first_met (seen : gset Z) (rows : list Row) : list Z :=
  match rows with
  | [] => []
  | r :: rest =>
      if decide (chunk_id r ∈ seen) then first_met seen rest
      else chunk_id r :: first_met ({[chunk_id r]} ∪ seen) rest
  end.

(** The first row with a given id. *)
Fixpoint first_with (cid : Z) (rows : list Row) : option Row :=
  match rows with
  | [] => None
  | r :: rest => if decide (chunk_id r = cid) then Some r else first_with cid rest
  end.

(** [[q.strip() for q in queries if q.strip()]] over a list of strings,
    and the default query in the place of an empty list. *)
Definition stripped (queries : list string) : list string :=
  filter (fun q => PyStr.nonempty q = true) (map PyStr.strip queries).

Definition or_default (queries : list string) : list string :=
  match queries with
  | [] => [Parser.default_query]
  | _ => queries
  end.






(** The characters of a string that [strip] keeps, one string each. *)
Definition characters (s : string) : list string :=
  map (fun c => String c EmptyString)
      (filter (fun c => PyStr.is_space c = false) (PyStr.chars s)).

End Shape.

(* ===================================================================== *)
(** * Part II: properties                                                 *)
(* ===================================================================== *)

#[local] Arguments PyStr.append !_ _ / : simpl nomatch.

(** ** Strings *)

Module PyStrFacts.
Import PyStr.

Lemma app_nil_r (s : string) : s +:+ "" = s.
Proof. induction s as [|c s IH]; simpl; [reflexivity | now rewrite IH]. Qed.

Lemma app_assoc (a b c : string) : (a +:+ b) +:+ c = a +:+ (b +:+ c).
Proof. induction a as [|x a IH]; simpl; [reflexivity | now rewrite IH]. Qed.

Lemma length_app (a b : string) :
  PyStr.len (a +:+ b) = PyStr.len a + PyStr.len b.
Proof. induction a as [|x a IH]; simpl; [reflexivity | now rewrite IH]. Qed.

Lemma starts_with_length (m s : string) :
  starts_with m s = true -> PyStr.len m <= PyStr.len s.
Proof.
  revert s; induction m as [|a m IH]; intros s Hp; simpl in *; [lia|].
  destruct s as [|b s]; simpl in *; [discriminate|].
  apply andb_true_iff in Hp as [_ Hp]. specialize (IH _ Hp). lia.
Qed.

(** [m] starts [s] exactly when [s] is [m] followed by the rest. *)
Lemma starts_with_drop (m s : string) :
  starts_with m s = true -> s = m +:+ drop (PyStr.len m) s.
Proof.
  revert s; induction m as [|a m IH]; intros s Hp; simpl in *; [reflexivity|].
  destruct s as [|b s]; simpl in *; [discriminate|].
  apply andb_true_iff in Hp as [Hab Hp]. apply N.eqb_eq in Hab as ->.
  f_equal. now apply IH.
Qed.

Lemma starts_with_app_intro (m r : string) : starts_with m (m +:+ r) = true.
Proof.
  induction m as [|a m IH]; simpl; [reflexivity|].
  now rewrite N.eqb_refl.
Qed.

Lemma starts_with_app (m s t : string) :
  starts_with m s = true -> starts_with m (s +:+ t) = true.
Proof.
  intros Hp. rewrite (starts_with_drop _ _ Hp), app_assoc.
  apply starts_with_app_intro.
Qed.

Lemma starts_with_app_false (m s t : string) :
  starts_with m s = false -> PyStr.len m <= PyStr.len s ->
  starts_with m (s +:+ t) = false.
Proof.
  revert s; induction m as [|a m IH]; intros s Hp Hlen; simpl in *; [discriminate|].
  destruct s as [|b s]; simpl in *; [lia|].
  destruct (N.eqb a b); simpl in *; [|reflexivity].
  apply IH; [assumption | lia].
Qed.

Lemma drop_app (n : nat) (s t : string) :
  n <= PyStr.len s -> drop n (s +:+ t) = drop n s +:+ t.
Proof.
  revert s; induction n as [|n IH]; intros s Hlen; [reflexivity|].
  destruct s as [|c s]; simpl in *; [lia|]. apply IH; lia.
Qed.

Lemma after_length (m s r : string) :
  after m s = Some r -> PyStr.len m <= PyStr.len s.
Proof.
  induction s as [|c s IH]; simpl.
  - destruct (starts_with m "") eqn:Hp; [|discriminate].
    intros _. apply (starts_with_length _ _ Hp).
  - destruct (starts_with m (String c s)) eqn:Hp.
    + intros _. apply (starts_with_length _ _ Hp).
    + intros Ha. specialize (IH Ha). simpl. lia.
Qed.

(** Text appended to a string that holds the separator stays after it. *)
Lemma after_app (m s t r : string) :
  after m s = Some r -> after m (s +:+ t) = Some (r +:+ t).
Proof.
  induction s as [|c s IH]; simpl.
  - destruct (starts_with m "") eqn:Hp; [|discriminate].
    intros [= <-]. destruct m; [|discriminate]. simpl.
    destruct t; reflexivity.
  - destruct (starts_with m (String c s)) eqn:Hp.
    + intros [= <-].
      change (String c (s +:+ t)) with (String c s +:+ t).
      rewrite (starts_with_app _ _ t Hp).
      f_equal. apply drop_app. apply (starts_with_length _ _ Hp).
    + intros Ha.
      change (String c (s +:+ t)) with (String c s +:+ t).
      rewrite starts_with_app_false; [now apply IH | assumption |].
      apply after_length in Ha. simpl. lia.
Qed.

(** [after] cuts at an occurrence of the separator, and at the leftmost. *)
Lemma after_leftmost (m s r : string) :
  after m s = Some r ->
  exists pre, s = pre +:+ m +:+ r /\
    forall pre' r', s = pre' +:+ m +:+ r' -> PyStr.len pre <= PyStr.len pre'.
Proof.
  revert r; induction s as [|c s IH]; intros r; simpl.
  - destruct (starts_with m "") eqn:Hp; [|discriminate].
    intros [= <-]. exists "". split; [apply (starts_with_drop _ _ Hp) | simpl; lia].
  - destruct (starts_with m (String c s)) eqn:Hp.
    + intros [= <-]. exists "". split; [apply (starts_with_drop _ _ Hp) | simpl; lia].
    + intros Ha. destruct (IH _ Ha) as (pre & -> & Hmin).
      exists (String c pre). split; [reflexivity|].
      intros pre' r' Heq. destruct pre' as [|c' pre'].
      * simpl in Heq. rewrite Heq, starts_with_app_intro in Hp. discriminate.
      * simpl in Heq. injection Heq as _ Heq. specialize (Hmin _ _ Heq).
        simpl. lia.
Qed.

Lemma contains_after (m s : string) :
  contains m s = true <-> exists r, after m s = Some r.
Proof.
  unfold contains. destruct (after m s); split; eauto; try discriminate.
  intros [? [=]].
Qed.

Lemma join_app (a b : list string) : join (a ++ b) = join a +:+ join b.
Proof.
  induction a as [|x a IH]; simpl; [reflexivity|].
  unfold join in *. simpl. now rewrite IH, app_assoc.
Qed.

End PyStrFacts.

(** ** Token relay *)

Module RelayFacts.
Import PyStr PyStrFacts Relay.

(** Past the marker every token goes to the queue as it comes. *)
Lemma observe_started (tokens : list string) (h : Handler) :
  started h = true ->
  observe tokens h
  = (mkHandler (q h ++ tokens) (marker h) (buffer h) true (marker_len h), None).
Proof.
  revert h; induction tokens as [|t ts IH]; intros [q0 m b st ml] Hst;
    simpl in *; subst st.
  - now rewrite List.app_nil_r.
  - unfold on_llm_new_token; simpl. rewrite IH by reflexivity. simpl.
    now rewrite <- List.app_assoc.
Qed.

Lemma join_rest_of (rem : string) (later : list string) :
  join (rest_of rem ++ later) = rem +:+ join later.
Proof. destruct rem; reflexivity. Qed.

(** The run of a handler that has not seen its marker yet: nothing is
    forwarded while the buffer lacks the marker; the token that completes
    it contributes what follows the marker, and the later tokens follow. *)
Lemma observe_waiting (m : string) (tokens : list string) :
  m <> "" ->
  forall (q0 : list string) (b : string) (ml : nat),
  after m b = None ->
  exists h',
    observe tokens (mkHandler q0 m b false ml) = (h', None) /\
    match after m (b +:+ join tokens) with
    | None => q h' = q0 /\ started h' = false
    | Some text =>
        exists before t later rem,
          tokens = before ++ t :: later /\
          after m (b +:+ join before) = None /\
          after m (b +:+ join (before ++ [t])) = Some rem /\
          q h' = q0 ++ rest_of rem ++ later /\
          text = rem +:+ join later
    end.
Proof.
  intros Hm. induction tokens as [|t ts IH]; intros q0 b ml Hb.
  - eexists; split; [reflexivity|]. simpl. rewrite app_nil_r, Hb. now split.
  - simpl. unfold on_llm_new_token; simpl. unfold contains, split1_snd.
    change (join (t :: ts)) with (t +:+ join ts).
    rewrite <- app_assoc.
    destruct (after m (b +:+ t)) as [rem|] eqn:Hbt.
    + destruct m as [|c m]; [congruence|]. simpl nonempty. cbv iota.
      rewrite (after_app _ _ (join ts) _ Hbt).
      assert (Hrun : forall hq,
        observe ts (set_started hq)
        = (mkHandler (q hq ++ ts) (marker hq) (buffer hq) true (marker_len hq), None)).
      { intros hq. now rewrite observe_started. }
      eexists; split.
      * rewrite Hrun. reflexivity.
      * exists [], t, ts, rem. simpl. rewrite !app_nil_r.
        repeat split; try assumption.
        unfold rest_of. destruct (nonempty rem); simpl; [|reflexivity].
        now rewrite <- List.app_assoc.
    + destruct (IH q0 (b +:+ t) ml Hbt) as (h' & Hrun & Hspec).
      exists h'. split; [exact Hrun|].
      destruct (after m ((b +:+ t) +:+ join ts)) as [text|]; [|exact Hspec].
      destruct Hspec as (before & t' & later & rem & -> & Hnone & Hsome & Hq & ->).
      exists (t :: before), t', later, rem.
      change (join (t :: before)) with (t +:+ join before).
      change (join ((t :: before) ++ [t'])) with (t +:+ join (before ++ [t'])).
      rewrite <- !app_assoc. repeat split; assumption.
Qed.

(** C3: the default handler forwards no text up to and including the
    first occurrence of "Final Answer:" in the concatenated token stream;
    what it forwards is, concatenated, exactly the text after that
    occurrence: the rest of the token that completes the marker (when not
    empty), then every later token, in order.  Without the marker nothing
    is forwarded.  The stream of scenario D is relayed as
    [" Hello"; " world"]. *)
Theorem relay_forwards_only_after_marker :
  (forall tokens : list string,
     snd (observe tokens (init default_marker)) = None /\
     match after default_marker (join tokens) with
     | None => forwarded tokens = []
     | Some text =>
         join (forwarded tokens) = text /\
         (exists pre,
            join tokens = pre +:+ default_marker +:+ text /\
            forall pre' r', join tokens = pre' +:+ default_marker +:+ r' ->
                            PyStr.len pre <= PyStr.len pre') /\
         (exists before t later rem,
            tokens = before ++ t :: later /\
            after default_marker (join before) = None /\
            after default_marker (join (before ++ [t])) = Some rem /\
            forwarded tokens = rest_of rem ++ later)
     end) /\
  forwarded ["Thought: x"; "Final Answer:"; " Hello"; " world"]
  = [" Hello"; " world"].
Proof.
  split; [|reflexivity].
  intros tokens. unfold forwarded, init.
  destruct (observe_waiting default_marker tokens ltac:(discriminate)
              [] "" (PyStr.len default_marker) eq_refl)
    as (h' & Hrun & Hspec).
  rewrite Hrun. simpl fst; simpl snd. split; [reflexivity|].
  change ("" +:+ join tokens) with (join tokens) in Hspec.
  destruct (after default_marker (join tokens)) as [text|] eqn:Hafter.
  - destruct Hspec as (before & t & later & rem & Htok & Hnone & Hsome & Hq & Htext).
    simpl in Hq. split; [|split].
    + rewrite Hq, Htext. apply join_rest_of.
    + apply after_leftmost, Hafter.
    + exists before, t, later, rem. repeat split; assumption.
  - apply Hspec.
Qed.

End RelayFacts.

(** ** Stable sorting *)

Module SortFacts.

Section Sort.
Context {A : Type} (before : A -> A -> bool).

Lemma insert_by_Permutation (x : A) (l : list A) :
  insert_by before x l ≡ₚ x :: l.
Proof.
  induction l as [|y ys IH]; simpl; [reflexivity|].
  destruct (before x y); [reflexivity|].
  rewrite IH. apply Permutation_swap.
Qed.

Lemma stable_sort_Permutation (l : list A) : stable_sort before l ≡ₚ l.
Proof.
  induction l as [|x l IH]; simpl; [reflexivity|].
  now rewrite insert_by_Permutation, IH.
Qed.

Lemma stable_sort_length (l : list A) : length (stable_sort before l) = length l.
Proof. apply Permutation_length, stable_sort_Permutation. Qed.

Lemma stable_sort_elem_of (x : A) (l : list A) : x ∈ stable_sort before l <-> x ∈ l.
Proof. now rewrite stable_sort_Permutation. Qed.

Hypothesis before_total : forall x y, before x y = false -> before y x = true.

Lemma insert_by_Sorted (x : A) (l : list A) :
  Sorted (fun a b => before a b = true) l ->
  Sorted (fun a b => before a b = true) (insert_by before x l).
Proof.
  induction l as [|y ys IH]; intros Hs; simpl.
  - repeat constructor.
  - destruct (before x y) eqn:Hxy.
    + constructor; [assumption | constructor; assumption].
    + apply Sorted_inv in Hs as [Hs Hhd]. constructor; [now apply IH|].
      destruct ys as [|z zs]; simpl.
      * constructor. now apply before_total.
      * destruct (before x z); constructor.
        -- now apply before_total.
        -- now apply HdRel_inv in Hhd.
Qed.

Lemma stable_sort_Sorted (l : list A) :
  Sorted (fun a b => before a b = true) (stable_sort before l).
Proof.
  induction l as [|x l IH]; simpl; [constructor | now apply insert_by_Sorted].
Qed.

End Sort.

Lemma Sorted_weaken {A} (R R' : A -> A -> Prop) (l : list A) :
  (forall x y, R x y -> R' x y) -> Sorted R l -> Sorted R' l.
Proof.
  intros Himp Hs. induction Hs as [|x l Hs IH Hhd]; constructor; [assumption|].
  destruct Hhd; constructor. now apply Himp.
Qed.

Lemma insert_by_map {A B} (f : A -> B) (before : B -> B -> bool)
      (before' : A -> A -> bool) (x : A) (l : list A) :
  (forall y, y ∈ l -> before (f x) (f y) = before' x y) ->
  insert_by before (f x) (map f l) = map f (insert_by before' x l).
Proof.
  induction l as [|y ys IH]; intros Hext; simpl; [reflexivity|].
  rewrite Hext by now constructor.
  destruct (before' x y); [reflexivity|].
  simpl. f_equal. apply IH. intros z Hz. apply Hext. now constructor.
Qed.

(** Sorting commutes with a map under which the order is the order of the
    images. *)
Lemma stable_sort_map {A B} (f : A -> B) (before : B -> B -> bool)
      (before' : A -> A -> bool) (l : list A) :
  (forall x y, x ∈ l -> y ∈ l -> before (f x) (f y) = before' x y) ->
  stable_sort before (map f l) = map f (stable_sort before' l).
Proof.
  induction l as [|x l IH]; intros Hext; simpl; [reflexivity|].
  rewrite IH by (intros; apply Hext; now constructor).
  apply insert_by_map. intros y Hy.
  apply Hext; [now constructor|].
  constructor. now apply stable_sort_elem_of in Hy.
Qed.

End SortFacts.

(** ** Dual-track search *)

Module SearchFacts.
Import Search SortFacts.

Lemma by_similarity_desc_total (x y : Row) :
  by_similarity_desc x y = false -> by_similarity_desc y x = true.
Proof.
  unfold by_similarity_desc. intros Hf. apply Qle_bool_iff.
  destruct (Qlt_le_dec (get_similarity x) (get_similarity y)) as [Hlt|Hle].
  - now apply Qlt_le_weak.
  - apply Qle_bool_iff in Hle. congruence.
Qed.

#[local] Instance sim_ge_trans : Transitive sim_ge.
Proof. intros x y z Hxy Hyz. unfold sim_ge in *. eapply Qle_trans; eassumption. Qed.

Lemma sorted_by_similarity (rows : list Row) :
  StronglySorted sim_ge (stable_sort by_similarity_desc rows).
Proof.
  apply Sorted_StronglySorted; [apply sim_ge_trans|].
  eapply Sorted_weaken; [|apply stable_sort_Sorted, by_similarity_desc_total].
  intros x y Hxy. now apply Qle_bool_iff.
Qed.

Lemma take_StronglySorted {A} (R : A -> A -> Prop) (n : nat) (l : list A) :
  StronglySorted R l -> StronglySorted R (take n l).
Proof.
  intros Hs. rewrite <- (take_drop n l) in Hs.
  now apply StronglySorted_app_1_l in Hs.
Qed.

(** The sort is stable: the rows of one similarity keep their order. *)
Lemma insert_by_ties (x : Row) (l : list Row) (s : Q) :
  filter (fun y => (default 0 (similarity y) == s)%Q) (insert_by by_similarity_desc x l)
  = filter (fun y => (default 0 (similarity y) == s)%Q) (x :: l).
Proof.
  induction l as [|y l IH]; simpl; [reflexivity|].
  destruct (by_similarity_desc x y) eqn:Hxy; [reflexivity|].
  rewrite (filter_cons _ y), IH. rewrite !filter_cons.
  destruct (decide (default 0 (similarity x) == s)%Q) as [Hx|Hx];
    destruct (decide (default 0 (similarity y) == s)%Q) as [Hy|Hy]; try reflexivity.
  assert (Hle : by_similarity_desc x y = true); [|congruence].
  apply Qle_bool_iff. unfold get_similarity. rewrite Hx, Hy. apply Qle_refl.
Qed.

Lemma stable_sort_ties (rows : list Row) (s : Q) :
  filter (fun y => (default 0 (similarity y) == s)%Q)
         (stable_sort by_similarity_desc rows)
  = filter (fun y => (default 0 (similarity y) == s)%Q) rows.
Proof.
  induction rows as [|x rows IH]; simpl; [reflexivity|].
  now rewrite insert_by_ties, !filter_cons, IH.
Qed.

Section WithServices.
Context `{Services}.

(** The executor by cases on what the three calls of its body answer. *)
Lemma execute_cases (query : string) (search_id : option string) :
  match vo_embed query with
  | Raise e => execute_dual_track_search query search_id = failed query search_id e
  | Ok emb =>
      match simple_hybrid_search (search_params emb query) with
      | Raise e => execute_dual_track_search query search_id = failed query search_id e
      | Ok simple =>
          match title_filtered_search (title_params emb query) with
          | Raise e =>
              execute_dual_track_search query search_id = failed query search_id e
          | Ok title =>
              let combined := combine (default [] simple) (default [] title) in
              execute_dual_track_search query search_id
              = mkResult query search_id (rerank query combined)
                         (search_seconds query search_id) None
                         (Some (length combined))
                         (Some (length (rerank query combined)))
          end
      end
  end.
Proof.
  unfold execute_dual_track_search, search_body.
  destruct (vo_embed query) as [emb|e]; simpl; [|reflexivity].
  destruct (simple_hybrid_search _) as [simple|e]; simpl; [|reflexivity].
  destruct (title_filtered_search _) as [title|e]; simpl; reflexivity.
Qed.

Lemma rerank_raise (query : string) (rows : list Row) (e : exn) :
  rows <> [] ->
  co_rerank query (map content rows) (Nat.min 10 (length rows)) = Raise e ->
  rerank query rows = similarity_fallback rows.
Proof.
  intros Hne Hrr. unfold rerank. destruct rows as [|r0 rs]; [congruence|].
  cbv zeta. now rewrite length_map, Hrr.
Qed.

(** C6: an exception that leaves the body of the executor (raised by
    the embedding call or by either retrieval call) is caught: the
    executor returns the dictionary with the query, the search id, the
    error message, no records and the elapsed time.  When the three
    calls answer, no error is recorded, whatever the rerank block does. *)
Theorem executor_catches_every_exception (query : string) (search_id : option string) :
  (forall e, search_body query = Raise e ->
     let r := execute_dual_track_search query search_id in
     Search.query r = query /\ Search.search_id r = search_id /\
     error r = Some ("Search failed for '" +:+ query +:+ "': " +:+ exn_msg e) /\
     results r = [] /\
     search_time r = search_seconds query search_id) /\
  (forall e, vo_embed query = Raise e -> search_body query = Raise e) /\
  (forall emb e,
     vo_embed query = Ok emb ->
     simple_hybrid_search (search_params emb query) = Raise e ->
     search_body query = Raise e) /\
  (forall emb simple e,
     vo_embed query = Ok emb ->
     simple_hybrid_search (search_params emb query) = Ok simple ->
     title_filtered_search (title_params emb query) = Raise e ->
     search_body query = Raise e) /\
  (forall emb simple title,
     vo_embed query = Ok emb ->
     simple_hybrid_search (search_params emb query) = Ok simple ->
     title_filtered_search (title_params emb query) = Ok title ->
     is_ok (search_body query) = true /\
     error (execute_dual_track_search query search_id) = None).
Proof.
  unfold execute_dual_track_search, search_body.
  split; [|split; [|split; [|split]]].
  - intros e ->. simpl. repeat split.
  - intros e ->. reflexivity.
  - intros emb e -> Hs. simpl. now rewrite Hs.
  - intros emb simple e -> Hs Ht. simpl. rewrite Hs. simpl. now rewrite Ht.
  - intros emb simple title -> Hs Ht. simpl. rewrite Hs. simpl. rewrite Ht.
    simpl. now split.
Qed.

(** C2, as the code has it: when a retrieval call of either track fails
    the search of that sub-query fails as a whole.  The result carries
    the error of the failed track (of the simple track when both fail)
    and no records; the rows of the other track are dropped. *)
Theorem track_failure_fails_the_search (query : string) (search_id : option string)
        (emb : list Q) (e : exn) :
  vo_embed query = Ok emb ->
  simple_hybrid_search (search_params emb query) = Raise e
  \/ (is_ok (simple_hybrid_search (search_params emb query)) = true /\
      title_filtered_search (title_params emb query) = Raise e) ->
  execute_dual_track_search query search_id = failed query search_id e /\
  results (execute_dual_track_search query search_id) = [] /\
  error (execute_dual_track_search query search_id)
  = Some ("Search failed for '" +:+ query +:+ "': " +:+ exn_msg e).
Proof.
  intros Hemb Htrack.
  pose proof (execute_cases query search_id) as Hcases. rewrite Hemb in Hcases.
  destruct Htrack as [Hs | [Hs Ht]].
  - rewrite Hs in Hcases. now rewrite Hcases.
  - destruct (simple_hybrid_search _) as [simple|]; [|discriminate].
    rewrite Ht in Hcases. now rewrite Hcases.
Qed.

(** C7: when the three calls answer, the merged rows are not empty and
    the rerank call raises, the records are the merged rows sorted by
    similarity, highest first, cut to eight, and no error is recorded.
    Read on the key [similarity] of the rows, a missing key counting as
    0: the similarities of the records never increase along the list;
    the records come from the merged rows and are [min 8 (len merged)]
    many; no merged row left out has a higher similarity than a record;
    and rows of equal similarity keep the order of the merged rows. *)
Theorem rerank_failure_falls_back_to_similarity
        (query : string) (search_id : option string) (emb : list Q)
        (simple title : option (list Row)) (e : exn) :
  vo_embed query = Ok emb ->
  simple_hybrid_search (search_params emb query) = Ok simple ->
  title_filtered_search (title_params emb query) = Ok title ->
  let merged := combine (default [] simple) (default [] title) in
  merged <> [] ->
  co_rerank query (map content merged) (Nat.min 10 (length merged)) = Raise e ->
  let r := execute_dual_track_search query search_id in
  results r = take 8 (stable_sort by_similarity_desc merged) /\
  error r = None /\
  StronglySorted
    (fun x y => (default 0 (similarity y) <= default 0 (similarity x))%Q)
    (results r) /\
  length (results r) = Nat.min 8 (length merged) /\
  (forall x, x ∈ results r -> x ∈ merged) /\
  (exists left_out,
     results r ++ left_out ≡ₚ merged /\
     forall x y, x ∈ results r -> y ∈ left_out ->
       (default 0 (similarity y) <= default 0 (similarity x))%Q) /\
  (forall s,
     filter (fun x => (default 0 (similarity x) == s)%Q) (results r)
     `prefix_of` filter (fun x => (default 0 (similarity x) == s)%Q) merged).
Proof.
  intros Hemb Hs Ht merged Hne Hrr r.
  pose proof (execute_cases query search_id) as Hcases.
  rewrite Hemb, Hs, Ht in Hcases. cbv zeta in Hcases. fold merged in Hcases.
  rewrite (rerank_raise _ _ _ Hne Hrr) in Hcases. subst r. rewrite Hcases.
  cbn [results error].
  unfold similarity_fallback.
  pose proof (sorted_by_similarity merged) as Hsorted.
  split; [reflexivity|]. split; [reflexivity|].
  split; [now apply take_StronglySorted|].
  split; [rewrite length_take, stable_sort_length; lia|].
  split; [|split].
  - intros x Hx. apply (stable_sort_elem_of by_similarity_desc).
    eapply subseteq_take, Hx.
  - exists (drop 8 (stable_sort by_similarity_desc merged)). split.
    + rewrite take_drop. apply stable_sort_Permutation.
    + intros x y Hx Hy. rewrite <- (take_drop 8) in Hsorted.
      eapply (StronglySorted_app_1_elem_of sim_ge); eassumption.
  - intros s. rewrite <- (stable_sort_ties merged s).
    rewrite <- (take_drop 8 (stable_sort by_similarity_desc merged)) at 2.
    rewrite filter_app. now apply prefix_app_r.
Qed.

End WithServices.

(** *** The scenarios *)

(** C2 as stated fails: the simple track raises, the title track returns
    a row, and the executor returns the error result without records. *)
Lemma failed_track_discards_other_track :
  @simple_hybrid_search Scenarios.simple_track_down
     (search_params [] "night wandering") = Raise Scenarios.unavailable /\
  @title_filtered_search Scenarios.simple_track_down
     (title_params [] "night wandering") = Ok (Some [Scenarios.row 1 (7 # 10)]) /\
  results (@execute_dual_track_search Scenarios.simple_track_down
             "night wandering" (Some "Q1")) = [] /\
  error (@execute_dual_track_search Scenarios.simple_track_down
             "night wandering" (Some "Q1"))
  = Some "Search failed for 'night wandering': service unavailable".
Proof. repeat split. Qed.

Lemma track_failure_witness :
  @execute_dual_track_search Scenarios.title_track_down "night wandering" (Some "Q1")
  = @failed Scenarios.title_track_down "night wandering" (Some "Q1")
            Scenarios.unavailable /\
  results (@execute_dual_track_search Scenarios.title_track_down
             "night wandering" (Some "Q1")) = [] /\
  error (@execute_dual_track_search Scenarios.title_track_down
             "night wandering" (Some "Q1"))
  = Some ("Search failed for '" +:+ "night wandering" +:+ "': "
          +:+ exn_msg Scenarios.unavailable).
Proof.
  apply (@track_failure_fails_the_search Scenarios.title_track_down
           "night wandering" (Some "Q1") [] Scenarios.unavailable).
  - reflexivity.
  - right. split; reflexivity.
Defined.

Lemma executor_catches_witness :
  error (@execute_dual_track_search Scenarios.embedding_down "night wandering" (Some "Q1"))
  = Some ("Search failed for '" +:+ "night wandering" +:+ "': "
          +:+ exn_msg Scenarios.unavailable) /\
  results (@execute_dual_track_search Scenarios.embedding_down
             "night wandering" (Some "Q1")) = [].
Proof.
  destruct (@executor_catches_every_exception Scenarios.embedding_down
              "night wandering" (Some "Q1")) as (Hcaught & Hembed & _).
  destruct (Hcaught Scenarios.unavailable (Hembed Scenarios.unavailable eq_refl))
    as (_ & _ & Herr & Hres & _).
  split; [exact Herr | exact Hres].
Defined.

(** Scenario C: five merged rows, the reranker down. *)
Example scenario_C :
  results (@execute_dual_track_search Scenarios.rerank_down "sleep" (Some "Q1"))
  = [Scenarios.row 2 (9 # 10); Scenarios.row 5 (8 # 10); Scenarios.row 3 (7 # 10);
     Scenarios.row 4 (6 # 10); Scenarios.row 1 (5 # 10)] /\
  error (@execute_dual_track_search Scenarios.rerank_down "sleep" (Some "Q1")) = None.
Proof. split; reflexivity. Qed.

(** Scenario C through the general statement: the five merged rows in
    the order of their similarities. *)
Lemma rerank_failure_witness :
  let r := @execute_dual_track_search Scenarios.rerank_down "sleep" (Some "Q1") in
  results r
  = [Scenarios.row 2 (9 # 10); Scenarios.row 5 (8 # 10); Scenarios.row 3 (7 # 10);
     Scenarios.row 4 (6 # 10); Scenarios.row 1 (5 # 10)] /\
  map similarity (results r)
  = [Some (9 # 10); Some (8 # 10); Some (7 # 10); Some (6 # 10); Some (5 # 10)] /\
  error r = None.
Proof.
  intros r.
  destruct (@rerank_failure_falls_back_to_similarity Scenarios.rerank_down
              "sleep" (Some "Q1") [] _ _ Scenarios.unavailable
              eq_refl eq_refl eq_refl ltac:(discriminate) eq_refl)
    as (Hres & Herr & _).
  fold r in Hres, Herr. rewrite Hres.
  split; [reflexivity|]. split; [reflexivity | exact Herr].
Defined.

End SearchFacts.

(** ** Fan-out *)

Module FanOutFacts.
Import Search FanOut SortFacts.

Lemma of_std_inj (a b : Stdlib.Strings.String.string) :
  PyStr.of_std a = PyStr.of_std b -> a = b.
Proof.
  revert b. induction a as [|x a IH]; intros [|y b]; simpl; try discriminate.
  - reflexivity.
  - intros [= Hxy Hab]. f_equal; [|now apply IH].
    now rewrite <- (ascii_N_embedding x), Hxy, ascii_N_embedding.
Qed.

Lemma qid_inj (i j : nat) : qid i = qid j -> i = j.
Proof.
  unfold qid. intros Heq. simpl in Heq. injection Heq as Heq.
  apply of_std_inj, (inj pretty) in Heq. lia.
Qed.

Lemma search_id_to_order_lookup (n i : nat) :
  i < n -> search_id_to_order n !! qid i = Some i.
Proof.
  intros Hi. unfold search_id_to_order.
  apply elem_of_list_to_map_1.
  - rewrite <- list_fmap_compose.
    apply NoDup_fmap_2_strong; [|apply NoDup_seq].
    intros x y _ _ Hxy. now apply qid_inj.
  - apply (list_elem_of_fmap_2 (fun i => (qid i, i))).
    apply elem_of_seq. lia.
Qed.

Lemma Sorted_seq (a n : nat) : Sorted le (seq a n).
Proof.
  revert a; induction n as [|n IH]; intros a; simpl; constructor; [apply IH|].
  destruct n; simpl; constructor. lia.
Qed.

(** Sorting a permutation of [0 .. n-1] gives [0 .. n-1]. *)
Lemma sort_completion (n : nat) (completion : list nat) :
  completion ≡ₚ seq 0 n -> stable_sort Nat.leb completion = seq 0 n.
Proof.
  intros Hperm. apply (Sorted_unique le).
  - eapply Sorted_weaken; [|apply stable_sort_Sorted].
    + intros x y Hxy. now apply Nat.leb_le.
    + intros x y Hxy. apply Nat.leb_le. apply Nat.leb_gt in Hxy. lia.
  - apply Sorted_seq.
  - now rewrite stable_sort_Permutation.
Qed.

Section WithServices.
Context `{Services}.

Lemma search_id_task (i : nat) (q : string) : search_id (task i q) = Some (qid i).
Proof.
  unfold task, execute_dual_track_search.
  destruct (search_body q) as [[? ?]|]; reflexivity.
Qed.

Lemma order_key_task (n i : nat) (q : string) :
  i < n -> order_key n (task i q) = i.
Proof.
  intros Hi. unfold order_key.
  now rewrite search_id_task, search_id_to_order_lookup.
Qed.

Lemma collect_map (queries : list string) (completion : list nat) :
  Forall (fun i => i < length queries) completion ->
  collect completion queries = map (nth_task queries) completion.
Proof.
  unfold collect. induction 1 as [|i l Hi _ IH]; simpl; [reflexivity|].
  destruct (lookup_lt_is_Some_2 queries i Hi) as [q Hq].
  rewrite Hq. simpl. unfold nth_task at 1. rewrite Hq. simpl.
  f_equal. exact IH.
Qed.

Lemma submission_order (queries : list string) :
  map (nth_task queries) (seq 0 (length queries)) = imap task queries.
Proof.
  apply list_eq. intros i.
  rewrite list_lookup_imap.
  change (map (nth_task queries)) with (fmap (M:=list) (nth_task queries)).
  rewrite list_lookup_fmap.
  destruct (queries !! i) as [q|] eqn:Hq.
  - rewrite lookup_seq_lt by (eapply lookup_lt_Some; eassumption).
    simpl. unfold nth_task. now rewrite Hq.
  - rewrite lookup_seq_ge by (now apply lookup_ge_None). reflexivity.
Qed.

(** C4: for a non-empty list of sub-queries, whatever the services
    answer and in whatever order the tasks complete, the collected list
    has one result per sub-query, and sorting it restores the order of
    submission: the result at position [i] is the one of the task
    submitted for sub-query [i], with search id [Q(i+1)]. *)
Theorem fan_out_restores_submission_order
        (queries : list string) (completion : list nat) :
  queries <> [] ->
  completion ≡ₚ seq 0 (length queries) ->
  length (collect completion queries) = length queries /\
  length (fan_out completion queries) = length queries /\
  fan_out completion queries = imap task queries /\
  map search_id (fan_out completion queries)
  = map (fun i => Some (qid i)) (seq 0 (length queries)).
Proof.
  intros _ Hperm.
  assert (Hlt : Forall (fun i => i < length queries) completion).
  { apply Forall_forall. intros i Hi. rewrite Hperm in Hi.
    apply elem_of_seq in Hi. lia. }
  assert (Hfan : fan_out completion queries = imap task queries).
  { unfold fan_out, sort_by_order. rewrite (collect_map _ _ Hlt).
    rewrite (stable_sort_map _ _ Nat.leb).
    - now rewrite (sort_completion _ _ Hperm), submission_order.
    - intros x y Hx Hy. rewrite Forall_forall in Hlt.
      unfold nth_task. now rewrite !order_key_task by auto. }
  split; [|split; [|split]].
  - rewrite (collect_map _ _ Hlt), length_map.
    rewrite (Permutation_length Hperm). apply length_seq.
  - rewrite Hfan. apply length_imap.
  - exact Hfan.
  - rewrite Hfan, <- submission_order, map_map.
    apply map_ext. intros i. apply search_id_task.
Qed.

End WithServices.

(** Three sub-queries, the second of which fails, completing in the
    order third, first, second. *)
Lemma fan_out_witness :
  let queries := ["sleep"; "eating"; "wandering"] in
  length (@collect Scenarios.flaky [2; 0; 1] queries) = 3 /\
  @fan_out Scenarios.flaky [2; 0; 1] queries = imap (@task Scenarios.flaky) queries.
Proof.
  intros queries.
  destruct (@fan_out_restores_submission_order Scenarios.flaky queries [2; 0; 1]
              ltac:(discriminate)) as (Hlen & _ & Hfan & _).
  - change (seq 0 (length queries)) with [0; 1; 2].
    apply (Permutation_cons_append [0; 1] 2).
  - split; [exact Hlen | exact Hfan].
Defined.

End FanOutFacts.

(** ** Aggregation *)

Module AggregateFacts.
Import Search Aggregate.

(** *** The ordered dictionary *)

Lemma find_update (cid k : Z) (f : Group -> Group) (groups : list (Z * Group)) :
  find k (update cid f groups)
  = if decide (k = cid) then Some (f (default new_group (find cid groups)))
    else find k groups.
Proof.
  induction groups as [|[k' g] rest IH]; simpl.
  - destruct (decide (cid = k)), (decide (k = cid)); congruence.
  - destruct (decide (k' = cid)) as [->|Hne]; simpl.
    + destruct (decide (cid = k)), (decide (k = cid)); congruence.
    + rewrite IH.
      destruct (decide (k' = k)), (decide (k = cid)); congruence.
Qed.

Lemma find_None (cid : Z) (groups : list (Z * Group)) :
  find cid groups = None <-> cid ∉ groups.*1.
Proof.
  induction groups as [|[k g] rest IH]; simpl.
  - split; [intros _; apply not_elem_of_nil | reflexivity].
  - rewrite not_elem_of_cons. destruct (decide (k = cid)) as [->|Hne].
    + split; [discriminate | intros [Hk _]; congruence].
    + rewrite IH.
      split; [intros Hr; split; [congruence | exact Hr] | intros [_ Hr]; exact Hr].
Qed.

Lemma keys_update (cid : Z) (f : Group -> Group) (groups : list (Z * Group)) :
  (update cid f groups).*1
  = match find cid groups with
    | Some _ => groups.*1
    | None => groups.*1 ++ [cid]
    end.
Proof.
  induction groups as [|[k g] rest IH]; simpl; [reflexivity|].
  destruct (decide (k = cid)); [reflexivity|].
  rewrite fmap_cons, IH. now destruct (find cid rest).
Qed.

Lemma NoDup_update (cid : Z) (f : Group -> Group) (groups : list (Z * Group)) :
  NoDup groups.*1 -> NoDup (update cid f groups).*1.
Proof.
  intros Hnd. rewrite keys_update.
  destruct (find cid groups) eqn:Hfind; [assumption|].
  apply NoDup_app. split; [assumption|]. split; [|apply NoDup_singleton].
  intros x Hx ->%list_elem_of_singleton. now apply find_None in Hfind.
Qed.

Lemma find_elem_of (k : Z) (g : Group) (groups : list (Z * Group)) :
  NoDup groups.*1 -> (k, g) ∈ groups -> find k groups = Some g.
Proof.
  induction groups as [|[k' g'] rest IH]; simpl; intros Hnd Hin.
  - now apply elem_of_nil in Hin.
  - apply NoDup_cons in Hnd as [Hk' Hnd].
    apply elem_of_cons in Hin as [[= -> ->]|Hin]; [now rewrite decide_True|].
    rewrite decide_False; [now apply IH|].
    intros ->. apply Hk'. now apply (list_elem_of_fmap_2 fst) in Hin.
Qed.

(** *** The two loops as one pass over the visited rows *)

Lemma process_result_visits (groups : list (Z * Group)) (sr : SearchResult) :
  process_result groups sr
  = fold_left visit (map (fun r => (sr, r)) (results sr)) groups.
Proof.
  unfold process_result. generalize (results sr) groups.
  induction l as [|r rs IH]; intros gs; simpl; [reflexivity | apply IH].
Qed.

Lemma group_chunks_visits (all : list SearchResult) :
  group_chunks all = fold_left visit (visits all) [].
Proof.
  unfold group_chunks, visits. generalize (@nil (Z * Group)).
  induction all as [|sr rest IH]; intros gs; simpl; [reflexivity|].
  now rewrite fold_left_app, IH, process_result_visits.
Qed.

Lemma appearances_visits (cid : Z) (all : list SearchResult) :
  appearances cid all
  = map (fun p => (query (fst p), snd p)) (of_chunk cid (visits all)).
Proof.
  unfold appearances, of_chunk, visits.
  induction all as [|sr rest IH]; simpl; [reflexivity|].
  rewrite filter_app, map_app, IH. f_equal.
  induction (results sr) as [|r rs IHr]; simpl; [reflexivity|].
  rewrite !filter_cons. simpl. case_decide; simpl; now rewrite IHr.
Qed.

(** *** What a group summarises *)

Lemma summarize_snoc (g0 : Group) (ps : list (SearchResult * Row)) (p : SearchResult * Row) :
  summarize g0 (ps ++ [p]) = record_retrieval (fst p) (snd p) (summarize g0 ps).
Proof. unfold summarize. now rewrite fold_left_app. Qed.

Lemma summarize_queries (ps : list (SearchResult * Row)) (g0 : Group) :
  source_queries (summarize g0 ps)
  = source_queries g0 ++ map (fun p => query (fst p)) ps.
Proof.
  revert g0; induction ps as [|p ps IH]; intros g0; simpl.
  - now rewrite List.app_nil_r.
  - unfold summarize in *. simpl. rewrite IH. simpl. now rewrite <- List.app_assoc.
Qed.

Lemma summarize_chunk_data (ps : list (SearchResult * Row)) (g0 : Group) :
  chunk_data (summarize g0 ps)
  = match chunk_data g0 with
    | Some kept => Some kept
    | None => head (map snd ps)
    end.
Proof.
  revert g0; induction ps as [|p ps IH]; intros g0; simpl.
  - now destruct (chunk_data g0).
  - unfold summarize in *. simpl. rewrite IH. simpl. now destruct (chunk_data g0).
Qed.

(** [max]-like update of a best score. *)
Lemma best_update (x best : Q) :
  let best' := if Qgtb x best then x else best in
  (best <= best')%Q /\ (x <= best')%Q.
Proof.
  unfold Qgtb. simpl. destruct (Qle_bool x best) eqn:Hle; simpl.
  - apply Qle_bool_iff in Hle. split; [apply Qle_refl | assumption].
  - split; [|apply Qle_refl].
    destruct (Qlt_le_dec best x) as [Hlt|Hge]; [now apply Qlt_le_weak|].
    apply Qle_bool_iff in Hge. congruence.
Qed.

Lemma summarize_best (ps : list (SearchResult * Row)) (g0 : Group) :
  ((bs_similarity (best_scores g0) <= bs_similarity (best_scores (summarize g0 ps)))%Q /\
   (bs_cohere_score (best_scores g0)
    <= bs_cohere_score (best_scores (summarize g0 ps)))%Q) /\
  forall p, p ∈ ps ->
    (get_similarity (snd p) <= bs_similarity (best_scores (summarize g0 ps)))%Q /\
    (get_cohere_score (snd p) <= bs_cohere_score (best_scores (summarize g0 ps)))%Q.
Proof.
  revert g0; induction ps as [|p ps IH]; intros g0.
  - split; [split; apply Qle_refl|]. intros p Hp. now apply elem_of_nil in Hp.
  - change (summarize g0 (p :: ps))
      with (summarize (record_retrieval (fst p) (snd p) g0) ps).
    destruct (IH (record_retrieval (fst p) (snd p) g0)) as [[Hs Hc] Hall].
    simpl in Hs, Hc.
    destruct (best_update (get_similarity (snd p)) (bs_similarity (best_scores g0)))
      as [Hs1 Hs2].
    destruct (best_update (get_cohere_score (snd p)) (bs_cohere_score (best_scores g0)))
      as [Hc1 Hc2].
    simpl in Hs1, Hs2, Hc1, Hc2.
    split; [split; eapply Qle_trans; eassumption|].
    intros p' [->|Hp']%elem_of_cons; [|now apply Hall].
    split; eapply Qle_trans; eassumption.
Qed.

(** *** The invariant of the pass *)

Lemma of_chunk_snoc (k : Z) (ps : list (SearchResult * Row)) (p : SearchResult * Row) :
  of_chunk k (ps ++ [p])
  = if decide (chunk_id (snd p) = k) then of_chunk k ps ++ [p] else of_chunk k ps.
Proof.
  unfold of_chunk. rewrite filter_app, filter_cons, filter_nil.
  case_decide; [reflexivity | apply List.app_nil_r].
Qed.

Lemma pass_invariant (ps : list (SearchResult * Row)) :
  let groups := fold_left visit ps [] in
  NoDup groups.*1 /\
  forall k,
    (of_chunk k ps = [] -> find k groups = None) /\
    (of_chunk k ps <> [] ->
     find k groups = Some (summarize new_group (of_chunk k ps))).
Proof.
  induction ps as [|p ps IH] using rev_ind; simpl.
  - split; [constructor|]. intros k.
    split; [reflexivity | intros Hne; exfalso; apply Hne; reflexivity].
  - rewrite fold_left_app. simpl. destruct IH as [Hnd Hfind].
    split; [now apply NoDup_update|].
    intros k. unfold visit at 1 3. rewrite find_update, of_chunk_snoc.
    destruct (decide (k = chunk_id (snd p))) as [->|Hne].
    + rewrite decide_True by reflexivity.
      split; [intros Hnil; now apply app_eq_nil in Hnil as [_ [=]]|].
      intros _. f_equal. rewrite summarize_snoc. f_equal.
      destruct (Hfind (chunk_id (snd p))) as [Hnone Hsome].
      destruct (of_chunk (chunk_id (snd p)) ps) as [|p0 l] eqn:Hps.
      * now rewrite Hnone.
      * now rewrite Hsome.
    + rewrite decide_False by congruence. apply Hfind.
Qed.

Lemma size_list_to_set_le (l : list string) :
  size (list_to_set l : gset string) <= length l.
Proof.
  induction l as [|x l IH].
  - now rewrite list_to_set_nil, size_empty.
  - rewrite list_to_set_cons, size_union_alt, size_singleton. simpl length.
    pose proof (subseteq_size (list_to_set l ∖ {[x]}) (list_to_set l : gset string)
                  (subseteq_difference_l _ _ _ (reflexivity _))).
    lia.
Qed.

(** C5: for every chunk of the deduplicated output, with [apps] the
    appearances of its id in the results of all sub-queries:
    [retrieval_count] is the number of appearances, [unique_query_count]
    the number of distinct sub-query texts among them, hence at most
    [retrieval_count], and [best_similarity] and [best_cohere_score] are
    at least the similarity and the rerank score of every appearance.
    In scenario A the aggregate of row 5 has [retrieval_count = 2],
    [unique_query_count = 2], [best_similarity = 0.70] and
    [best_cohere_score = 0.80]. *)
Theorem aggregate_counts_and_best_scores :
  (forall (all : list SearchResult) (c : Chunk),
     c ∈ deduplicate all ->
     let apps := appearances (chunk_id (row c)) all in
     apps <> [] /\
     retrieval_count c = length apps /\
     unique_query_count c = size (list_to_set apps.*1 : gset string) /\
     unique_query_count c <= retrieval_count c /\
     forall q r, (q, r) ∈ apps ->
       (get_similarity r <= best_similarity c)%Q /\
       (get_cohere_score r <= best_cohere_score c)%Q) /\
  map (fun c => (chunk_id (row c), retrieval_count c, unique_query_count c,
                 best_similarity c, best_cohere_score c))
      (deduplicate (@FanOut.fan_out Scenarios.scenario_A [0; 1] ["Q1"; "Q2"]))
  = [(5%Z, 2, 2, 70 # 100, 80 # 100)].
Proof.
  split; [|vm_compute; reflexivity].
  intros all c Hc apps.
  unfold deduplicate, deduplicated_chunks in Hc. rewrite group_chunks_visits in Hc.
  apply list_elem_of_omap in Hc as ([k g] & Hkg & Hto). simpl in Hto.
  destruct (pass_invariant (visits all)) as [Hnd Hfind]. simpl in Hnd, Hfind.
  pose proof (find_elem_of _ _ _ Hnd Hkg) as Hk.
  destruct (Hfind k) as [Hnone Hsome].
  destruct (of_chunk k (visits all)) as [|p0 ps] eqn:Hps;
    [rewrite Hnone in Hk by reflexivity; discriminate|].
  rewrite Hsome in Hk by discriminate.
  assert (Hg : g = summarize new_group (p0 :: ps)) by congruence.
  subst g. clear Hk.
  unfold to_chunk in Hto. rewrite summarize_chunk_data in Hto.
  change (chunk_data new_group) with (@None Row) in Hto.
  change (head (map snd (p0 :: ps))) with (Some (snd p0)) in Hto.
  cbv iota in Hto.
  assert (Hc : c = mkChunk (snd p0)
                 (list_to_set (source_queries (summarize new_group (p0 :: ps))))
                 (list_to_set (source_query_ids (summarize new_group (p0 :: ps))))
                 (length (source_queries (summarize new_group (p0 :: ps))))
                 (size (list_to_set (source_queries (summarize new_group (p0 :: ps)))
                        : gset string))
                 (bs_similarity (best_scores (summarize new_group (p0 :: ps))))
                 (bs_cohere_score (best_scores (summarize new_group (p0 :: ps))))
                 None None) by congruence.
  subst c. clear Hto.
  cbn [row retrieval_count unique_query_count best_similarity best_cohere_score] in *.
  assert (Hid : chunk_id (snd p0) = k).
  { assert (Hin : p0 ∈ of_chunk k (visits all)) by (rewrite Hps; constructor).
    unfold of_chunk in Hin. now apply list_elem_of_filter in Hin as [? _]. }
  assert (Happs : apps = map (fun p => (query (fst p), snd p)) (p0 :: ps)).
  { subst apps. now rewrite Hid, appearances_visits, Hps. }
  assert (Hqs : apps.*1 = source_queries (summarize new_group (p0 :: ps))).
  { rewrite summarize_queries, Happs. cbn [source_queries new_group app].
    rewrite <- list_fmap_compose. reflexivity. }
  split; [now rewrite Happs|].
  split; [now rewrite <- Hqs, length_fmap|].
  split; [now rewrite Hqs|].
  split; [apply size_list_to_set_le|].
  intros q r Hqr. rewrite Happs in Hqr.
  apply (list_elem_of_fmap_1 (fun p => (query (fst p), snd p))) in Hqr
    as (p & [= -> ->] & Hp).
  now apply (proj2 (summarize_best (p0 :: ps) new_group)).
Qed.

(** The chunk scenario A aggregates, read through the general statement. *)
Lemma aggregate_witness :
  let all := @FanOut.fan_out Scenarios.scenario_A [0; 1] ["Q1"; "Q2"] in
  let c := default (Scenarios.chunk 0 0 []) (head (deduplicate all)) in
  retrieval_count c = length (appearances (chunk_id (row c)) all) /\
  unique_query_count c <= retrieval_count c /\
  forall q r, (q, r) ∈ appearances (chunk_id (row c)) all ->
    (get_similarity r <= best_similarity c)%Q /\
    (get_cohere_score r <= best_cohere_score c)%Q.
Proof.
  intros all c.
  destruct (proj1 aggregate_counts_and_best_scores all c) as (_ & Hcount & _ & Hle & Hbest).
  - subst c. destruct (deduplicate all) as [|c0 l] eqn:Hd.
    + vm_compute in Hd. discriminate.
    + simpl. constructor.
  - split; [exact Hcount|]. split; [exact Hle | exact Hbest].
Defined.

End AggregateFacts.

(** ** Final fusion *)

Module FusionFacts.
Import Search Aggregate Fusion Shape.

Lemma deref_lookup {A} (store : list A) (refs : list nat) :
  Forall (fun i => is_Some (store !! i)) refs ->
  length (deref store refs) = length refs /\
  forall j i, refs !! j = Some i -> deref store refs !! j = store !! i.
Proof.
  unfold deref. induction 1 as [|i refs [x Hx] _ [IHlen IH]]; simpl.
  - split; [reflexivity|]. intros j i Hj. now rewrite lookup_nil in Hj.
  - rewrite Hx. simpl. split; [f_equal; exact IHlen|].
    intros [|j] i' Hj; simpl in *; [congruence | exact (IH j i' Hj)].
Qed.

(** The loop over a response whose indices are distinct and in range:
    every index is appended, the chunks outside the response are left
    alone, and the chunk at the index of the [j]-th result gets the
    score of that result and the rank [idx + j + 1]. *)
Lemma apply_ranking_distinct (response : list RerankResult) :
  forall (idx : nat) (store : list Chunk) (refs : list nat),
  NoDup (map index response) ->
  Forall (fun rr => index rr < length store) response ->
  exists store',
    apply_ranking response idx store refs
    = (store', Some (refs ++ map index response)) /\
    length store' = length store /\
    (forall i, i ∉ map index response -> store' !! i = store !! i) /\
    (forall j rr, response !! j = Some rr ->
       exists c, store !! index rr = Some c /\
         store' !! index rr
         = Some (set_final (relevance_score rr) (idx + j + 1) c)).
Proof.
  induction response as [|rr rest IH]; intros idx store refs Hnd Hrange; simpl.
  - exists store. rewrite List.app_nil_r. repeat split; try reflexivity.
    intros j rr Hj. now rewrite lookup_nil in Hj.
  - apply NoDup_cons in Hnd as [Hfresh Hnd].
    apply Forall_cons in Hrange as [Hrr Hrange].
    destruct (lookup_lt_is_Some_2 store (index rr) Hrr) as [c Hc]. rewrite Hc.
    set (store1 := <[index rr := set_final (relevance_score rr) (idx + 1) c]> store).
    destruct (IH (S idx) store1 (refs ++ [index rr]) Hnd) as
      (store' & Hrun & Hlen & Hout & Hin).
    { unfold store1. eapply Forall_impl; [exact Hrange|].
      intros rr' Hlt. simpl in Hlt. now rewrite length_insert. }
    exists store'. split; [|split; [|split]].
    + rewrite Hrun. now rewrite <- List.app_assoc.
    + rewrite Hlen. apply length_insert.
    + intros i Hi. apply not_elem_of_cons in Hi as [Hne Hi].
      rewrite (Hout i Hi). unfold store1. now apply list_lookup_insert_ne.
    + intros [|j] rr' Hj; simpl in Hj.
      * injection Hj as <-. exists c. split; [assumption|].
        rewrite (Hout _ Hfresh). unfold store1.
        rewrite list_lookup_insert_eq by assumption.
        now rewrite Nat.add_0_r.
      * destruct (Hin j rr' Hj) as (c' & Hc' & Hfinal).
        assert (Hne : index rr <> index rr').
        { intros Heq. apply Hfresh. rewrite Heq.
          apply (list_elem_of_fmap_2 index).
          eapply list_elem_of_lookup_2; eassumption. }
        exists c'. split.
        -- unfold store1 in Hc'. now rewrite list_lookup_insert_ne in Hc' by assumption.
        -- rewrite Hfinal. do 2 f_equal. lia.
Qed.

Section WithServices.
Context `{Services}.

(** C8: with more than one sub-query and a non-empty deduplicated set
    the reranker is called with the sub-query texts joined by spaces,
    the contents of all deduplicated chunks and [top_n = min 10 n];
    for a response with distinct indices in range the final list has
    one chunk per result, the [i]-th being the deduplicated chunk at
    the index of the [i]-th result: its [final_rank] is [i + 1], its
    [final_cohere_score] the score of that result, and its other keys
    are as they were.  When the call raises, the final list is the
    first 12 deduplicated chunks in their order; with a single
    sub-query it is the first 8. *)
Theorem final_fusion_rerank (queries : list string) (dedup : list Chunk) :
  (1 < length queries -> dedup <> [] ->
   forall response,
     co_rerank (PyStr.join_with " " queries)
               (map (fun chunk => content (row chunk)) dedup)
               (Nat.min 10 (length dedup)) = Ok response ->
     NoDup (map index response) ->
     Forall (fun rr => index rr < length dedup) response ->
     length (final_chunks queries dedup) = length response /\
     forall i rr, response !! i = Some rr ->
       exists c c',
         dedup !! index rr = Some c /\
         final_chunks queries dedup !! i = Some c' /\
         final_rank c' = Some (i + 1) /\
         final_cohere_score c' = Some (relevance_score rr) /\
         unranked c' = unranked c) /\
  (1 < length queries -> dedup <> [] ->
   forall e,
     co_rerank (PyStr.join_with " " queries)
               (map (fun chunk => content (row chunk)) dedup)
               (Nat.min 10 (length dedup)) = Raise e ->
     final_chunks queries dedup = take 12 dedup) /\
  (length queries = 1 -> final_chunks queries dedup = take 8 dedup).
Proof.
  unfold final_chunks. split; [|split].
  - intros Hlen Hne response Hcall Hnd Hrange.
    apply Nat.ltb_lt in Hlen. rewrite Hlen.
    destruct dedup as [|c0 cs] eqn:Hd; [congruence|]. rewrite <- Hd in *.
    assert (Hnonempty : nonempty dedup = true) by now rewrite Hd.
    rewrite Hnonempty. cbv zeta. simpl andb. cbv iota.
    rewrite length_map, Hcall.
    destruct (apply_ranking_distinct response 0 dedup [] Hnd Hrange)
      as (store' & Hrun & Hlen' & Hout & Hin).
    rewrite Hrun. simpl app.
    destruct (deref_lookup store' (map index response)) as [Hdlen Hd'].
    { apply Forall_forall. intros i Hi.
      apply (list_elem_of_fmap_1 index) in Hi as (rr & -> & Hrr).
      apply list_elem_of_lookup_1 in Hrr as [j Hj].
      destruct (Hin j rr Hj) as (c & _ & Hc). now rewrite Hc. }
    split; [now rewrite Hdlen, length_map|].
    intros i rr Hi. destruct (Hin i rr Hi) as (c & Hc & Hfinal).
    exists c, (set_final (relevance_score rr) (i + 1) c).
    split; [assumption|]. split; [|now repeat split].
    rewrite (Hd' i (index rr)); [exact Hfinal|].
    change (map index response) with (index <$> response).
    now rewrite list_lookup_fmap, Hi.
  - intros Hlen Hne e Hcall.
    apply Nat.ltb_lt in Hlen. rewrite Hlen.
    destruct dedup as [|c0 cs] eqn:Hd; [congruence|]. rewrite <- Hd in *.
    assert (Hnonempty : nonempty dedup = true) by now rewrite Hd.
    rewrite Hnonempty. cbv zeta. simpl andb. cbv iota.
    now rewrite length_map, Hcall.
  - intros ->. reflexivity.
Qed.

End WithServices.

(** Two sub-queries and two chunks; the reranker answers indices 1, 0:
    the chunk of row 2 comes first, ranked 1 with the score 1/2. *)
Lemma final_fusion_witness :
  exists c',
    @final_chunks Scenarios.reversing ["sleep"; "eating"] Scenarios.two_chunks !! 0
    = Some c' /\
    chunk_id (row c') = 2%Z /\
    final_rank c' = Some 1 /\
    final_cohere_score c' = Some (1 # 2).
Proof.
  destruct (@final_fusion_rerank Scenarios.reversing ["sleep"; "eating"]
              Scenarios.two_chunks) as (Hok & _ & _).
  destruct (Hok ltac:(simpl; lia) ltac:(discriminate)
              [mkRerank 1 (1 # 2); mkRerank 0 (1 # 2)] eq_refl)
    as (_ & Hat).
  - apply (bool_decide_unpack _). vm_compute. exact I.
  - repeat constructor; simpl; lia.
  - destruct (Hat 0 (mkRerank 1 (1 # 2)) eq_refl)
      as (c & c' & Hc & Hfinal & Hrank & Hscore & Hsame).
    simpl in Hc. injection Hc as <-.
    exists c'. split; [exact Hfinal|]. split; [|split; assumption].
    exact (f_equal (fun c => chunk_id (row c)) Hsame).
Defined.

End FusionFacts.

(** ** The input parser *)

Module ParserFacts.
Import Parser.

Lemma cleanup_blank (l : list json) :
  Forall (fun v => exists s, v = JStr s /\ PyStr.strip s = "") l ->
  cleanup l = Ok [].
Proof.
  induction 1 as [|v l (s & -> & Hs) _ IH]; simpl; [reflexivity|].
  rewrite Hs, IH. reflexivity.
Qed.

Lemma validate_nonempty (v : json) (queries : list string) :
  validate v = Ok queries -> queries <> [].
Proof.
  unfold validate. destruct (iterate v) as [items|]; simpl; [|discriminate].
  destruct (cleanup items) as [[|q qs]|]; simpl; intros [= <-]; discriminate.
Qed.

Section WithServices.
Context `{Services}.

(** A text that [json.loads] rejects with an exception that the [except]
    clause names is read as one query, the stripped text. *)
Lemma read_input_caught (query_input : string) (e : exn) :
  json_loads query_input = Raise e -> caught e = true ->
  read_input query_input = Ok (JList [JStr (PyStr.strip query_input)]).
Proof.
  intros Hloads Hcaught. unfold read_input, try_body. rewrite Hloads. simpl.
  now rewrite Hcaught.
Qed.

Lemma read_input_list (query_input : string) (l : list json) :
  json_loads query_input = Ok (JList l) -> read_input query_input = Ok (JList l).
Proof. intros Hloads. unfold read_input, try_body. now rewrite Hloads. Qed.

(** C10: an input that is empty or only whitespace (which [json.loads]
    rejects with [JSONDecodeError]), and an input that parses to a list
    of blank strings, are read as the single default query; and on every
    input on which the parser returns, the list it returns is not empty.
    Whitespace is what [str.strip] removes, the Unicode spaces included. *)
Theorem parser_substitutes_default_query :
  (forall query_input e,
     PyStr.strip query_input = "" ->
     json_loads query_input = Raise e -> exn_kind_of e = JSONDecodeError ->
     parse_queries query_input = Ok ["general dementia care information"]) /\
  (forall query_input l,
     json_loads query_input = Ok (JList l) ->
     Forall (fun v => exists s, v = JStr s /\ PyStr.strip s = "") l ->
     parse_queries query_input = Ok ["general dementia care information"]) /\
  (forall query_input queries,
     parse_queries query_input = Ok queries -> queries <> []).
Proof.
  unfold parse_queries. split; [|split].
  - intros query_input e Hblank Hloads Hkind.
    rewrite (read_input_caught _ e Hloads) by (unfold caught; now rewrite Hkind).
    unfold validate. simpl. now rewrite Hblank.
  - intros query_input l Hloads Hl. rewrite (read_input_list _ _ Hloads).
    unfold validate. simpl. now rewrite (cleanup_blank _ Hl).
  - intros query_input queries.
    destruct (read_input query_input) as [v|e]; simpl; [|discriminate].
    apply validate_nonempty.
Qed.

End WithServices.

(** Three inputs: spaces; a no-break space, an ideographic space and a
    tab; and the JSON text of a list of two blank strings. *)
Lemma parser_witness :
  @parse_queries Scenarios.empty_store "   "
  = Ok ["general dementia care information"] /\
  @parse_queries Scenarios.empty_store
     (String 160%N (String 12288%N (String 9%N EmptyString)))
  = Ok ["general dementia care information"] /\
  @parse_queries Scenarios.empty_store Scenarios.blank_list_text
  = Ok ["general dementia care information"].
Proof.
  destruct (@parser_substitutes_default_query Scenarios.empty_store)
    as (Hblank & Hlist & _).
  split; [|split].
  - apply (Hblank _ Scenarios.not_json); reflexivity.
  - apply (Hblank _ Scenarios.not_json); reflexivity.
  - apply (Hlist _ [JStr ""; JStr " "]); [reflexivity|].
    repeat constructor; eexists; split; reflexivity.
Defined.

(** The validation does not cover every input: a list of numbers is
    valid JSON, and [q.strip()] raises on its first item. *)
Example number_list_raises :
  @parse_queries Scenarios.empty_store Scenarios.number_list_text
  = Raise (Exn AttributeError "'int' object has no attribute 'strip'").
Proof. reflexivity. Qed.

End ParserFacts.

(** ** The report *)

Module ReportFacts.
Import Search FanOut Aggregate Report SortFacts.

Lemma total_before_empty (all : list SearchResult) :
  Forall (fun sr => results sr = []) all -> total_before all = 0.
Proof.
  unfold total_before. induction 1 as [|sr all Hsr _ IH]; simpl; [reflexivity|].
  now rewrite Hsr, IH.
Qed.

Lemma group_chunks_empty (all : list SearchResult) :
  Forall (fun sr => results sr = []) all -> group_chunks all = [].
Proof.
  intros Hall. unfold group_chunks.
  assert (Hfold : forall gs, fold_left process_result all gs = gs); [|apply Hfold].
  induction Hall as [|sr all Hsr _ IH]; intros gs; simpl; [reflexivity|].
  unfold process_result at 2. rewrite Hsr. simpl. apply IH.
Qed.

Section WithServices.
Context `{Services}.

Lemma elem_of_fan_out (completion : list nat) (queries : list string)
      (sr : SearchResult) :
  sr ∈ fan_out completion queries ->
  exists i q, queries !! i = Some q /\ sr = task i q.
Proof.
  unfold fan_out, sort_by_order, collect. rewrite stable_sort_elem_of.
  intros (i & _ & Hi)%list_elem_of_omap.
  destruct (queries !! i) as [q|] eqn:Hq; [|discriminate].
  injection Hi as <-. eauto.
Qed.

(** A sub-query for which both tracks return nothing has no records. *)
Lemma no_rows_no_results (query : string) (search_id : option string)
      (emb : list Q) (simple title : option (list Row)) :
  vo_embed query = Ok emb ->
  simple_hybrid_search (search_params emb query) = Ok simple ->
  title_filtered_search (title_params emb query) = Ok title ->
  default [] simple = [] -> default [] title = [] ->
  results (execute_dual_track_search query search_id) = [] /\
  error (execute_dual_track_search query search_id) = None.
Proof.
  intros Hemb Hs Ht Hs0 Ht0.
  pose proof (SearchFacts.execute_cases query search_id) as Hcases.
  rewrite Hemb, Hs, Ht, Hs0, Ht0 in Hcases. rewrite Hcases. now split.
Qed.

(** C9: when the search of every sub-query returns no records, by
    failing or because both tracks return nothing, the tool returns
    the object with status "not_found", whose summary has
    [total_results = 0] and [duplicates_removed = 0]; on every input the
    parser accepts this is what the tool returns, not an exception. *)
Theorem empty_results_give_not_found (completion : list nat) (queries : list string) :
  (forall i q, queries !! i = Some q -> results (task i q) = []) ->
  let report := search_and_report completion queries in
  status report = Some "not_found" /\
  total_results (summary report) = 0 /\
  duplicates_removed (deduplication_stats (summary report)) = 0%Z /\
  summary_results (summary report) = [] /\
  report = NotFound "No relevant information found for any of the queries."
                    queries (summary report) /\
  forall query_input,
    Parser.parse_queries query_input = Ok queries ->
    parallel_comprehensive_search completion query_input = Ok report.
Proof.
  intros Hempty report.
  assert (Hall : Forall (fun sr => results sr = []) (fan_out completion queries)).
  { apply Forall_forall. intros sr (i & q & Hq & ->)%elem_of_fan_out. eauto. }
  assert (Hreport : report
    = NotFound not_found_message queries
        (mkSummary (length queries) queries
           (mkStats 0 0 0 0)
           (map query_detail (fan_out completion queries)) [] 0
           (py_round overall_seconds 2))).
  { subst report. unfold search_and_report, deduplicate.
    rewrite (total_before_empty _ Hall), (group_chunks_empty _ Hall).
    unfold Fusion.final_chunks. simpl. rewrite andb_false_r. reflexivity. }
  rewrite Hreport. repeat split.
  intros query_input Hparse. unfold parallel_comprehensive_search.
  rewrite Hparse. simpl. f_equal. now rewrite <- Hreport.
Qed.

End WithServices.

(** Scenario B: one sub-query, nothing in either track. *)
Lemma scenario_B :
  let report := @search_and_report Scenarios.empty_store [0] ["memory loss"] in
  status report = Some "not_found" /\
  total_results (summary report) = 0 /\
  duplicates_removed (deduplication_stats (summary report)) = 0%Z.
Proof.
  intros report.
  destruct (@empty_results_give_not_found Scenarios.empty_store [0] ["memory loss"])
    as (Hstatus & Htotal & Hdup & _).
  - intros [|i] q Hq; [|destruct i; discriminate].
    injection Hq as <-.
    apply (@no_rows_no_results Scenarios.empty_store "memory loss" (Some (qid 0))
             [] None (Some [])); reflexivity.
  - split; [exact Hstatus|]. split; [exact Htotal | exact Hdup].
Defined.

End ReportFacts.

(** ** The streaming endpoint *)

Module StreamFacts.
Import Stream.

#[local] Arguments worker : simpl never.

Ltac tidy_lists :=
  repeat (rewrite List.app_nil_r || rewrite <- List.app_assoc); simpl.

Lemma statuses_app (a b : list Event) : statuses (a ++ b) = statuses a ++ statuses b.
Proof. apply omap_app. Qed.

Lemma chunks_app (a b : list Event) : chunks (a ++ b) = chunks a ++ chunks b.
Proof. apply omap_app. Qed.

Lemma relayed_app (a b : list Event) : relayed (a ++ b) = relayed a ++ relayed b.
Proof. unfold relayed. now rewrite statuses_app, filter_app. Qed.

Lemma count_status_app (x : Status) (a b : list Event) :
  count_status x (a ++ b) = count_status x a + count_status x b.
Proof. unfold count_status. now rewrite statuses_app, filter_app, length_app. Qed.

Lemma pending_tokens_worker (tokens : list string) (g : Generation) :
  pending_tokens (worker tokens g)
  = map Some tokens ++ match g with Returns => [None] | Dies => [] end.
Proof.
  unfold worker, pending_tokens. rewrite !omap_app. simpl. f_equal.
  - induction tokens as [|t ts IH]; simpl; [reflexivity | f_equal; exact IH].
  - now destruct g.
Qed.

Lemma pending_statuses_worker (tokens : list string) (g : Generation) :
  pending_statuses (worker tokens g)
  = [thinking; searching] ++ match g with Returns => [finished] | Dies => [] end.
Proof.
  unfold worker, pending_statuses. rewrite !omap_app. simpl. do 2 f_equal.
  replace (omap _ (map _ tokens)) with (@nil Status).
  - now destruct g.
  - induction tokens as [|t ts IH]; simpl; [reflexivity | exact IH].
Qed.

(** The worker never queues [answering]. *)
Lemma queued_not_answering (tokens : list string) (g : Generation)
      (drained queue rest : list Status) (x : Status) :
  drained ++ (x :: queue) ++ rest = pending_statuses (worker tokens g) ->
  status_eqb x answering = false.
Proof.
  rewrite pending_statuses_worker. intros Heq.
  assert (Hin : x ∈ [thinking; searching]
                     ++ match g with Returns => [finished] | Dies => [] end).
  { rewrite <- Heq. apply elem_of_app. right. constructor. }
  destruct x; try reflexivity.
  destruct g; simpl in Hin;
    repeat (apply elem_of_cons in Hin as [Hin|Hin]; [discriminate|]);
    now apply elem_of_nil in Hin.
Qed.

Section Invariant.
Context (tokens : list string) (g : Generation).

Lemma inv_initial : Inv tokens g (start tokens g).
Proof.
  split; simpl.
  - now split.
  - reflexivity.
  - exists []. split; reflexivity.
  - exists []. reflexivity.
  - now split.
  - discriminate.
Qed.

Lemma inv_worker_step (s : State) : Inv tokens g s -> Inv tokens g (worker_step s).
Proof.
  intros [Hstart Htok Hstat Hshape Hnot Hans]. unfold worker_step.
  destruct s as [td sq tq p started em]; simpl in *.
  destruct td as [|[x|t] rest]; simpl in *.
  - now split.
  - split; simpl; try assumption.
    destruct Hstat as (drained & Hrel & Hcons). exists drained.
    split; [assumption|]. now rewrite <- List.app_assoc.
  - split; simpl; try assumption.
    rewrite <- Htok. now rewrite <- !List.app_assoc.
Qed.

Lemma inv_consumer_step (s : State) : Inv tokens g s -> Inv tokens g (consumer_step s).
Proof.
  intros [Hstart Htok Hstat Hshape Hnot Hans]. unfold consumer_step.
  destruct s as [td sq tq p started em]; simpl in *.
  destruct p; simpl in *.
  - (* AtStart *)
    destruct (Hstart eq_refl) as [-> ->]. split; simpl; try discriminate.
    + assumption.
    + destruct Hstat as (drained & Hrel & Hcons). simpl in Hrel.
      rewrite List.app_nil_r in Hrel. subst drained.
      exists []. split; [reflexivity | exact Hcons].
    + exists []. reflexivity.
    + intros _. now split.
  - (* AtPoll *)
    destruct tq as [|[token|] rest]; simpl in *.
    + split; simpl; try assumption; discriminate.
    + split; simpl; try discriminate.
      * rewrite <- Htok, !chunks_app.
        destruct started; simpl; rewrite ?List.app_nil_r, map_app; now tidy_lists.
      * destruct Hstat as (drained & Hrel & Hcons). exists drained.
        split; [|assumption]. rewrite !relayed_app, Hrel.
        destruct started; simpl; now tidy_lists.
      * destruct Hshape as (body & ->).
        exists (body ++ (if started then [] else [EvStatus answering])
                     ++ [EvAnswer token]).
        simpl. now tidy_lists.
      * intros _. destruct started.
        -- destruct (Hans eq_refl) as (Hcount & pre & t & post & -> & Hpre).
           split.
           ++ simpl. rewrite count_status_app, Hcount. reflexivity.
           ++ exists pre, t, (post ++ [EvAnswer token]). split; [|assumption].
              simpl. now tidy_lists.
        -- destruct (Hnot eq_refl) as (Hchunks & Hcount). split.
           ++ rewrite count_status_app, Hcount. reflexivity.
           ++ exists em, token, []. now split.
    + split; simpl; try assumption; discriminate.
  - (* AtDrain *)
    destruct sq as [|stat rest]; simpl in *.
    + split; simpl; try assumption; discriminate.
    + destruct Hstat as (drained & Hrel & Hcons).
      pose proof (queued_not_answering _ _ _ _ _ _ Hcons) as Hstat.
      assert (Hrelayed : relayed [EvStatus stat] = [stat]).
      { unfold relayed. simpl. rewrite filter_cons, decide_True by assumption.
        reflexivity. }
      assert (Hcount : count_status answering [EvStatus stat] = 0).
      { unfold count_status. simpl. rewrite filter_cons, decide_False; [reflexivity|].
        rewrite Hstat. discriminate. }
      split; simpl; try discriminate.
      * rewrite chunks_app. simpl. now tidy_lists.
      * exists (drained ++ [stat]). split.
        -- rewrite relayed_app, Hrel, Hrelayed. simpl. now tidy_lists.
        -- rewrite <- Hcons. now tidy_lists.
      * destruct Hshape as (body & ->). exists (body ++ [EvStatus stat]).
        simpl. now tidy_lists.
      * intros Hs. destruct (Hnot Hs) as [Hchunks Hc]. split.
        -- rewrite chunks_app, Hchunks. reflexivity.
        -- rewrite count_status_app, Hc, Hcount. reflexivity.
      * intros Hs. destruct (Hans Hs) as (Hc & pre & t & post & -> & Hpre). split.
        -- rewrite count_status_app, Hc, Hcount. reflexivity.
        -- exists pre, t, (post ++ [EvStatus stat]). split; [|assumption].
           simpl. now tidy_lists.
  - (* AtFinal *)
    split; simpl; try discriminate.
    + rewrite chunks_app. simpl. now tidy_lists.
    + destruct Hstat as (drained & Hrel & Hcons). exists drained.
      split; [|assumption]. rewrite relayed_app, Hrel. simpl. now tidy_lists.
    + destruct Hshape as (body & ->). exists body. simpl. now tidy_lists.
    + intros Hs. destruct (Hnot Hs) as [Hchunks Hc]. split.
      * rewrite chunks_app, Hchunks. reflexivity.
      * rewrite count_status_app, Hc. reflexivity.
    + intros Hs. destruct (Hans Hs) as (Hc & pre & t & post & -> & Hpre). split.
      * rewrite count_status_app, Hc. reflexivity.
      * exists pre, t, (post ++ [EvStatus finished]). split; [|assumption].
        simpl. now tidy_lists.
  - (* Stopped *)
    now split.
Qed.

Lemma inv_run (sched : list Thread) (s : State) :
  Inv tokens g s -> Inv tokens g (run sched s).
Proof.
  revert s; induction sched as [|t sched IH]; intros s Hs; simpl; [assumption|].
  apply IH. destruct t; [now apply inv_worker_step | now apply inv_consumer_step].
Qed.

End Invariant.

(** *** The statuses of the worker come before its tokens *)

Lemma pending_tokens_app (a b : list WorkerOp) :
  pending_tokens (a ++ b) = pending_tokens a ++ pending_tokens b.
Proof. apply omap_app. Qed.

Lemma pending_statuses_app (a b : list WorkerOp) :
  pending_statuses (a ++ b) = pending_statuses a ++ pending_statuses b.
Proof. apply omap_app. Qed.

Lemma statuses_put_first (tokens : list string) (g : Generation)
      (done rest : list WorkerOp) :
  worker tokens g = done ++ rest ->
  pending_tokens done <> [] ->
  length (pending_statuses rest) + 2 <= length (pending_statuses (worker tokens g)).
Proof.
  intros Hsplit Hput. rewrite Hsplit, pending_statuses_app, length_app.
  unfold worker in Hsplit.
  destruct done as [|d1 [|d2 done]]; simpl in *.
  - congruence.
  - injection Hsplit as <- _. simpl in Hput. congruence.
  - injection Hsplit as <- <- _. simpl. lia.
Qed.

Lemma relayed_length (tokens : list string) (g : Generation) (s : State) :
  Inv tokens g s ->
  length (relayed (emitted s)) + length (status_queue s)
    + length (pending_statuses (todo s))
  = length (opening (pc s)) + length (closing (pc s))
    + length (pending_statuses (worker tokens g)).
Proof.
  intros [_ _ (drained & Hrel & Hcons) _ _ _].
  rewrite Hrel, <- Hcons, !length_app. lia.
Qed.

Lemma order_initial (tokens : list string) (g : Generation) :
  Order tokens g (start tokens g).
Proof. split; simpl; [now exists [] | discriminate]. Qed.

Lemma order_worker_step (tokens : list string) (g : Generation) (s : State) :
  Order tokens g s -> Order tokens g (worker_step s).
Proof.
  intros [(done & Hsuf) Hrel]. unfold worker_step.
  destruct s as [td sq tq p started em]; simpl in *.
  destruct td as [|op rest]; [split; simpl; eauto|].
  assert (Hsuf' : exists done', worker tokens g = done' ++ rest).
  { exists (done ++ [op]). now rewrite <- List.app_assoc. }
  destruct op as [x|t]; split; simpl; try assumption.
  intros Hs. specialize (Hrel Hs). unfold waiting in *. simpl in *.
  destruct p; simpl in *; try lia. rewrite length_app. simpl. lia.
Qed.

Lemma order_consumer_step (tokens : list string) (g : Generation) (s : State) :
  Inv tokens g s -> Order tokens g s -> Order tokens g (consumer_step s).
Proof.
  intros Hinv [(done & Hsuf) Hrel].
  pose proof (relayed_length _ _ _ Hinv) as Hlen.
  assert (Hput : token_queue s <> [] -> pc s = AtPoll ->
                 length (pending_statuses (todo s)) + 2
                 <= length (pending_statuses (worker tokens g))).
  { intros Hq Hp. apply (statuses_put_first _ _ done); [exact Hsuf|].
    destruct Hinv as [_ Htok _ _ _ _].
    rewrite Hsuf, pending_tokens_app, Hp in Htok. simpl in Htok.
    rewrite List.app_assoc in Htok. apply app_inv_tail in Htok.
    rewrite <- Htok. destruct (token_queue s); [congruence|].
    intros Hnil. apply app_eq_nil in Hnil as [_ [=]]. }
  assert (Hqueued : forall stat rest, status_queue s = stat :: rest ->
                    length (relayed [EvStatus stat]) = 1).
  { intros stat rest Hsq. destruct Hinv as [_ _ (drained & _ & Hcons) _ _ _].
    rewrite Hsq in Hcons. apply queued_not_answering in Hcons.
    unfold relayed. simpl. now rewrite filter_cons, decide_True. }
  remember (length (pending_statuses (worker tokens g))) as total eqn:Htotal.
  clear Htotal Hinv.
  unfold consumer_step.
  destruct s as [td sq tq p started em]; unfold waiting in *; simpl in *.
  destruct p; simpl in *.
  - (* AtStart *)
    split; unfold waiting; simpl; [eauto | discriminate].
  - (* AtPoll *)
    destruct tq as [|[token|] rest]; split; unfold waiting; simpl; eauto.
    + intros Hs. specialize (Hrel Hs). lia.
    + intros _. specialize (Hput ltac:(discriminate) eq_refl).
      assert (Hsame : relayed (em ++ (if started then [] else [EvStatus answering])
                                  ++ [EvAnswer token]) = relayed em).
      { rewrite !relayed_app. destruct started; simpl; now rewrite ?List.app_nil_r. }
      rewrite Hsame. lia.
  - (* AtDrain *)
    destruct sq as [|stat rest]; split; unfold waiting; simpl; eauto;
      intros Hs; specialize (Hrel Hs); simpl in Hrel;
      rewrite ?relayed_app, ?length_app, ?(Hqueued _ _ eq_refl); lia.
  - (* AtFinal *)
    split; unfold waiting; simpl; eauto. intros Hs. specialize (Hrel Hs).
    rewrite relayed_app, length_app. simpl in *. lia.
  - (* Stopped *)
    split; unfold waiting; simpl; eauto.
Qed.

Lemma order_run (tokens : list string) (g : Generation) (sched : list Thread) :
  forall s, Inv tokens g s -> Order tokens g s -> Order tokens g (run sched s).
Proof.
  induction sched as [|t sched IH]; intros s Hinv Hord; simpl; [assumption|].
  destruct t.
  - apply IH; [now apply inv_worker_step | now apply order_worker_step].
  - apply IH; [now apply inv_consumer_step | now apply order_consumer_step].
Qed.

(** *** After the generator has stopped *)

Lemma worker_step_consumer (s : State) :
  pc (worker_step s) = pc s /\ emitted (worker_step s) = emitted s.
Proof. unfold worker_step. destruct (todo s) as [|[x|t] rest]; now split. Qed.

Lemma stopped_run (more : list Thread) (s : State) :
  pc s = Stopped -> pc (run more s) = Stopped /\ emitted (run more s) = emitted s.
Proof.
  revert s; induction more as [|t more IH]; intros s Hs; simpl; [now split|].
  destruct t; simpl.
  - destruct (worker_step_consumer s) as [Hpc Hem].
    destruct (IH (worker_step s)) as [Hpc' Hem']; [congruence|].
    split; congruence.
  - unfold consumer_step. rewrite Hs. now apply IH.
Qed.

(** *** Tokens are relayed in order *)

Lemma relayed_all (a b : list string) (x y : list (option string)) :
  map Some a ++ None :: x = map Some b ++ y ->
  (forall z, z ∈ y -> z = None) ->
  a = b.
Proof.
  revert b; induction a as [|a0 a IH]; intros [|b0 b] Heq Hy; simpl in *.
  - reflexivity.
  - discriminate.
  - assert (Some a0 = None) by (apply Hy; rewrite <- Heq; constructor). discriminate.
  - injection Heq as -> Heq. f_equal. now apply IH.
Qed.

Lemma relayed_prefix (a b : list string) (x y : list (option string)) :
  map Some a ++ x = map Some b ++ y ->
  (forall z, z ∈ y -> z = None) ->
  a `prefix_of` b.
Proof.
  revert b; induction a as [|a0 a IH]; intros [|b0 b] Heq Hy; simpl in *.
  - apply prefix_nil.
  - apply prefix_nil.
  - assert (Some a0 = None) by (apply Hy; rewrite <- Heq; constructor). discriminate.
  - injection Heq as -> Heq. apply prefix_cons. now apply IH.
Qed.

Lemma only_sentinel (g : Generation) (z : option string) :
  z ∈ match g with Returns => [None] | Dies => [] end -> z = None.
Proof.
  destruct g; intros Hz.
  - now apply list_elem_of_singleton in Hz.
  - now apply elem_of_nil in Hz.
Qed.

(** *** The generator stops *)

Lemma worker_alone (n : nat) :
  forall s, length (todo s) <= n -> todo (run (repeat W n) s) = [].
Proof.
  induction n as [|n IH]; intros s Hlen; simpl.
  - destruct (todo s); [reflexivity | simpl in Hlen; lia].
  - apply IH. unfold worker_step.
    destruct (todo s) as [|[x|t] rest] eqn:Htodo; simpl in *; try lia.
    rewrite Htodo. simpl. lia.
Qed.

Lemma consumer_step_sentinel (s : State) :
  sentinel_ahead s -> sentinel_ahead (consumer_step s).
Proof.
  unfold sentinel_ahead, consumer_step.
  destruct s as [td sq tq p started em]; simpl.
  intros [Hin|[->| ->]]; simpl; auto.
  destruct p; simpl; auto.
  - destruct tq as [|[t|] rest]; simpl; auto.
    apply elem_of_cons in Hin as [Hin|Hin]; [discriminate | auto].
  - destruct sq as [|stat rest]; simpl; auto.
Qed.

Lemma consumer_step_fuel (s : State) :
  sentinel_ahead s -> pc s <> Stopped -> fuel (consumer_step s) < fuel s.
Proof.
  unfold sentinel_ahead, consumer_step, fuel.
  destruct s as [td sq tq p started em]; simpl.
  intros Hsent Hs. destruct p; simpl; try lia; try congruence.
  - destruct tq as [|[t|] rest]; simpl; try lia.
    destruct Hsent as [Hin|[Hp|Hp]]; try discriminate.
    now apply elem_of_nil in Hin.
  - destruct sq as [|stat rest]; simpl; lia.
Qed.

Lemma consumer_alone (n : nat) :
  forall s, sentinel_ahead s -> fuel s <= n -> pc (run (repeat C n) s) = Stopped.
Proof.
  induction n as [|n IH]; intros s Hsent Hfuel.
  - unfold fuel in Hfuel. simpl. destruct (pc s); simpl in *; try lia. reflexivity.
  - assert (Hdec : pc s = Stopped \/ pc s <> Stopped)
      by (destruct (pc s); auto; right; discriminate).
    destruct Hdec as [Hs|Hs]; [now apply stopped_run|].
    simpl. apply IH; [now apply consumer_step_sentinel|].
    pose proof (consumer_step_fuel s Hsent Hs). lia.
Qed.

(** *** The events of the stream on every schedule *)

(** C1, as the code has it.  On every interleaving of the worker and the
    generator: the stream opens with [thinking] and, once the generator
    has stopped, closes with a [finished] that the generator emits; in
    between, besides [answering] and the chunks, come the statuses the
    generator drains from the status queue, in the order the worker
    queued them (a leading part of thinking, searching, finished), the
    first two of them by the end of the drain loop that follows the first
    chunk, so that [thinking] is emitted a second time; [answering] is emitted
    once, right before the first chunk, and not at all without a chunk;
    the chunks are the forwarded tokens in order, all of them when the
    generator has stopped; a stopped generator emits nothing more, and
    the generator stops only if the generation returned.  When the
    generation returns, the generator does stop: once the worker is done,
    [2 * len(tokens) + 7] steps of the generator suffice. *)
Theorem stream_events_on_every_schedule
        (tokens : list string) (g : Generation) (sched : list Thread) :
  let s := run sched (start tokens g) in
  (exists body,
     emitted s
     = map EvStatus (opening (pc s)) ++ body ++ map EvStatus (closing (pc s))) /\
  (exists drained,
     relayed (emitted s) = opening (pc s) ++ drained ++ closing (pc s) /\
     drained `prefix_of` [thinking; searching; finished] /\
     (chunks (emitted s) <> [] -> pc s <> AtDrain -> 2 <= length drained)) /\
  count_status answering (emitted s)
  = match chunks (emitted s) with [] => 0 | _ => 1 end /\
  (chunks (emitted s) <> [] ->
   exists pre t post,
     emitted s = pre ++ [EvStatus answering; EvAnswer t] ++ post /\
     chunks pre = []) /\
  chunks (emitted s) `prefix_of` tokens /\
  (pc s = Stopped ->
   g = Returns /\ chunks (emitted s) = tokens /\
   forall more, emitted (run more s) = emitted s) /\
  (g = Returns ->
   forall n, 2 * length tokens + 7 <= n ->
     pc (run (repeat C n) (run (repeat W (length (todo s))) s)) = Stopped).
Proof.
  intros s.
  pose proof (inv_run tokens g sched _ (inv_initial tokens g)) as Hinv.
  pose proof (order_run tokens g sched _ (inv_initial tokens g) (order_initial tokens g))
    as [_ Htwice].
  fold s in Hinv, Htwice. destruct Hinv as [Hstart Htok Hstat Hshape Hnot Hans].
  rewrite pending_tokens_worker in Htok.
  split; [exact Hshape|].
  split.
  { destruct Hstat as (drained & Hrel & Hcons). exists drained.
    split; [exact Hrel|]. rewrite pending_statuses_worker in Hcons.
    split.
    - destruct g.
      + eexists. simpl in Hcons. rewrite <- Hcons. reflexivity.
      + exists ((status_queue s ++ pending_statuses (todo s)) ++ [finished]).
        rewrite List.app_assoc, Hcons. reflexivity.
    - intros Hch Hpc.
      assert (Hs : answer_started s = true).
      { destruct (answer_started s); [reflexivity|].
        now destruct (Hnot eq_refl) as [Hnil _]. }
      specialize (Htwice Hs). unfold waiting in Htwice.
      rewrite Hrel, !length_app in Htwice.
      assert (Hopen : length (opening (pc s)) <= 1) by (destruct (pc s); simpl; lia).
      destruct (pc s); try congruence; simpl in *; lia. }
  split.
  { destruct (answer_started s) eqn:Hst.
    - destruct (Hans eq_refl) as (Hc & pre & t & post & Hem & Hpre).
      rewrite Hc, Hem, !chunks_app, Hpre. reflexivity.
    - destruct (Hnot eq_refl) as [Hch Hc]. now rewrite Hc, Hch. }
  split.
  { intros Hne. destruct (answer_started s) eqn:Hst.
    - now destruct (Hans eq_refl) as (_ & Hdec).
    - now destruct (Hnot eq_refl) as [Hch _]. }
  split.
  { eapply relayed_prefix; [exact Htok | apply only_sentinel]. }
  split.
  { intros Hstop. rewrite Hstop in Htok. simpl in Htok.
    assert (Hch : chunks (emitted s) = tokens)
      by (eapply relayed_all; [exact Htok | apply only_sentinel]).
    split; [|split; [exact Hch|]].
    - destruct g; [reflexivity|]. exfalso.
      rewrite Hch, List.app_nil_r in Htok.
      apply (f_equal (@length _)) in Htok.
      rewrite length_app in Htok. simpl in Htok. lia.
    - intros more. now apply stopped_run. }
  intros -> n Hn.
  set (s' := run (repeat W (length (todo s))) s).
  pose proof (inv_run tokens Returns (repeat W (length (todo s))) s
                (inv_run tokens Returns sched _ (inv_initial tokens Returns))) as Hinv'.
  fold s' in Hinv'. destruct Hinv' as [_ Htok' Hstat' _ _ _].
  assert (Htodo : todo s' = []) by (apply worker_alone; lia).
  rewrite Htodo, pending_tokens_worker in Htok'.
  destruct Hstat' as (drained & _ & Hcons').
  rewrite Htodo, pending_statuses_worker in Hcons'.
  apply consumer_alone.
  - unfold sentinel_ahead.
    assert (Hin : None ∈ map Some (chunks (emitted s')) ++ sentinel_read (pc s')
                        ++ token_queue s' ++ pending_tokens []).
    { rewrite Htok'. apply elem_of_app. right. constructor. }
    apply elem_of_app in Hin as [Hin|Hin].
    { apply (list_elem_of_fmap_1 Some) in Hin as (? & [=] & _). }
    apply elem_of_app in Hin as [Hin|Hin].
    { destruct (pc s'); simpl in Hin; auto; now apply elem_of_nil in Hin. }
    apply elem_of_app in Hin as [Hin|Hin]; [auto|].
    now apply elem_of_nil in Hin.
  - apply (f_equal (@length _)) in Htok', Hcons'.
    rewrite !length_app, !length_map in Htok'. rewrite !length_app in Hcons'.
    simpl in Htok', Hcons'. unfold fuel.
    assert (weight (pc s') <= 2) by (destruct (pc s'); simpl; lia).
    lia.
Qed.

(** *** A forward path has no status twice *)

Lemma forward_cons (a : Status) (l : list Status) :
  forward (a :: l) = true <->
  Forall (fun x => rank a < rank x) l /\ forward l = true.
Proof.
  revert a; induction l as [|b l IH]; intros a.
  - simpl. split; [now split | reflexivity].
  - change (forward (a :: b :: l)) with (Nat.ltb (rank a) (rank b) && forward (b :: l)).
    rewrite andb_true_iff, Nat.ltb_lt. split.
    + intros [Hab Hf]. split; [|exact Hf]. constructor; [exact Hab|].
      apply IH in Hf as [Hall _]. eapply Forall_impl; [exact Hall|].
      intros x Hx. simpl in Hx. lia.
    + intros [Hall Hf]. split; [|exact Hf]. now apply Forall_cons in Hall as [? _].
Qed.

Lemma forward_filter (P : Status -> Prop) `{forall x, Decision (P x)} (l : list Status) :
  forward l = true -> forward (filter P l) = true.
Proof.
  induction l as [|a l IH]; intros Hf; [reflexivity|].
  apply forward_cons in Hf as [Hall Hf]. rewrite filter_cons.
  destruct (decide (P a)); [|now apply IH].
  apply forward_cons. split; [|now apply IH].
  rewrite Forall_forall in Hall |- *.
  intros x Hx. apply Hall. eapply list_subseteq_filter, Hx.
Qed.

(** Every run that stops after relaying a token has emitted [thinking]
    twice: the claim of a single forward path fails on all of them. *)
Lemma stopped_run_repeats_thinking
      (tokens : list string) (g : Generation) (sched : list Thread) :
  tokens <> [] ->
  pc (run sched (start tokens g)) = Stopped ->
  single_forward_path (emitted (run sched (start tokens g))) = false.
Proof.
  intros Hne Hstop. set (s := run sched (start tokens g)) in *.
  pose proof (inv_run tokens g sched _ (inv_initial tokens g)) as Hinv.
  pose proof (order_run tokens g sched _ (inv_initial tokens g) (order_initial tokens g))
    as Hord.
  fold s in Hinv, Hord.
  destruct Hinv as [_ Htok (drained & Hrel & Hcons) _ Hnot _].
  destruct Hord as [_ Htwice].
  rewrite pending_tokens_worker, Hstop in Htok. simpl in Htok.
  assert (Hch : chunks (emitted s) = tokens)
    by (eapply relayed_all; [exact Htok | apply only_sentinel]).
  assert (Hs : answer_started s = true).
  { destruct (answer_started s); [reflexivity|].
    destruct (Hnot eq_refl) as [Hnil _]. congruence. }
  specialize (Htwice Hs). unfold waiting in Htwice.
  rewrite Hstop, Hrel, Hstop in Htwice. simpl in Htwice.
  rewrite length_app in Htwice. simpl in Htwice.
  rewrite pending_statuses_worker in Hcons. rewrite Hstop in Hrel. simpl in Hrel.
  assert (Hd : exists d, drained = thinking :: d).
  { destruct drained as [|d0 d]; simpl in *; [lia|].
    injection Hcons as -> _. eauto. }
  destruct Hd as [d ->].
  unfold single_forward_path.
  destruct (forward (statuses (emitted s))) eqn:Hf; [|reflexivity].
  apply (forward_filter (fun x => status_eqb x answering = false)) in Hf.
  fold (relayed (emitted s)) in Hf. rewrite Hrel in Hf. discriminate.
Qed.

(** C1 as stated fails on the unhurried run of a request with one
    forwarded token: the generator emits [thinking] itself and relays the
    [thinking] of the worker, so the statuses do not move strictly
    forward. *)
Lemma ordinary_run_repeats_thinking :
  pc (run ordinary (start [" Hello"] Returns)) = Stopped /\
  emitted (run ordinary (start [" Hello"] Returns))
  = [EvStatus thinking; EvStatus thinking; EvStatus searching;
     EvStatus answering; EvAnswer " Hello"; EvStatus finished] /\
  single_forward_path (emitted (run ordinary (start [" Hello"] Returns))) = false.
Proof. repeat split. Qed.

(** With a slow generator the [finished] of the worker is relayed too,
    before the last chunk. *)
Example slow_run_relays_finished_early :
  emitted (run slow_generator (start [" a"; " b"] Returns))
  = [EvStatus thinking; EvStatus answering; EvAnswer " a";
     EvStatus thinking; EvStatus searching; EvStatus finished;
     EvAnswer " b"; EvStatus finished].
Proof. reflexivity. Qed.

Lemma stream_witness :
  chunks (emitted (run ordinary (start [" Hello"] Returns))) = [" Hello"] /\
  pc (run (repeat C 9)
          (run (repeat W (length (todo (run [W; C] (start [" Hello"] Returns)))))
               (run [W; C] (start [" Hello"] Returns)))) = Stopped.
Proof.
  split.
  - destruct (stream_events_on_every_schedule [" Hello"] Returns ordinary)
      as (_ & _ & _ & _ & _ & Hstop & _).
    now destruct (Hstop eq_refl) as (_ & Hch & _).
  - destruct (stream_events_on_every_schedule [" Hello"] Returns [W; C])
      as (_ & _ & _ & _ & _ & _ & Hlive).
    apply (Hlive eq_refl 9). simpl. lia.
Defined.

End StreamFacts.

(** ** More on the token relay *)

Module RelayMore.
Import PyStr PyStrFacts Relay RelayFacts.

(** What a handler with a non-empty marker has forwarded after a run. *)
Lemma relay_text (marker : string) (toks : list string) :
  marker <> "" ->
  snd (observe toks (init marker)) = None /\
  join (q (fst (observe toks (init marker))))
  = default "" (after marker (join toks)) /\
  (after marker (join toks) = None ->
   q (fst (observe toks (init marker))) = []).
Proof.
  intros Hm. unfold init.
  destruct (observe_waiting marker toks Hm [] "" (PyStr.len marker))
    as (h' & Hrun & Hspec).
  { destruct marker; [congruence | reflexivity]. }
  rewrite Hrun. simpl fst; simpl snd.
  change ("" +:+ join toks) with (join toks) in Hspec.
  destruct (after marker (join toks)) as [text|].
  - destruct Hspec as (before & t & later & rem & _ & _ & _ & Hq & ->).
    simpl in Hq. rewrite Hq.
    split; [reflexivity|]. split; [apply join_rest_of | discriminate].
  - destruct Hspec as [Hq _]. rewrite Hq. now repeat split.
Qed.

(** The relay for any non-empty marker: no call raises, the forwarded
    tokens put together are the text after the leftmost occurrence of the
    marker in the tokens put together (nothing without an occurrence), and
    so two ways of cutting one text into tokens relay the same text. *)
Theorem relay_any_marker (marker : string) (tokens : list string) :
  marker <> "" ->
  snd (observe tokens (init marker)) = None /\
  join (q (fst (observe tokens (init marker))))
  = default "" (after marker (join tokens)) /\
  (after marker (join tokens) = None -> q (fst (observe tokens (init marker))) = []) /\
  forall tokens',
    join tokens' = join tokens ->
    join (q (fst (observe tokens' (init marker))))
    = join (q (fst (observe tokens (init marker)))).
Proof.
  intros Hm.
  destruct (relay_text marker tokens Hm) as (He & Hjoin & Hnone).
  split; [exact He|]. split; [exact Hjoin|]. split; [exact Hnone|].
  intros tokens' Heq. destruct (relay_text marker tokens' Hm) as (_ & Hjoin' & _).
  now rewrite Hjoin', Hjoin, Heq.
Qed.

Lemma relay_any_marker_witness :
  join (q (fst (observe ["intro #"; "## Hel"; "lo"] (init "###")))) = " Hello" /\
  join (q (fst (observe ["intro ###"; " Hello"] (init "###"))))
  = join (q (fst (observe ["intro #"; "## Hel"; "lo"] (init "###")))).
Proof.
  destruct (relay_any_marker "###" ["intro #"; "## Hel"; "lo"] ltac:(discriminate))
    as (_ & Hjoin & _ & Hsame).
  split; [exact Hjoin | apply Hsame; reflexivity].
Defined.

(** A handler made with the empty marker never forwards anything: every
    call on it finds the marker in the buffer, the split raises
    [ValueError], and the handler stays unstarted with an unchanged queue;
    so the run over any tokens ends at the first of them. *)
Theorem empty_marker_raises :
  (forall (h : Handler) (t : string),
     marker h = "" -> started h = false ->
     snd (on_llm_new_token t h) = Some ValueError_empty_separator /\
     q (fst (on_llm_new_token t h)) = q h /\
     started (fst (on_llm_new_token t h)) = false /\
     marker (fst (on_llm_new_token t h)) = "" /\
     buffer (fst (on_llm_new_token t h)) = buffer h +:+ t) /\
  (forall (t : string) (tokens : list string),
     observe (t :: tokens) (init "")
     = (mkHandler [] "" t false 0, Some ValueError_empty_separator)).
Proof.
  split.
  - intros [q0 m b st ml] t Hm Hst. simpl in *. subst m st.
    unfold on_llm_new_token. simpl. unfold contains, split1_snd. simpl.
    destruct (b +:+ t); now repeat split.
  - intros t tokens. simpl. unfold on_llm_new_token. simpl.
    unfold contains, split1_snd. simpl. destruct t; reflexivity.
Qed.

End RelayMore.

(** ** The relay and the stream together *)

Module StreamMore.
Import PyStr Relay Stream StreamFacts.

(** Without a chunk there is no [answering] status. *)
Lemma no_chunk_no_answering (tokens : list string) (g : Generation) (s : State) :
  Inv tokens g s -> chunks (emitted s) = [] -> count_status answering (emitted s) = 0.
Proof.
  intros [_ _ _ _ Hnot Hans] Hch.
  destruct (answer_started s); [|now destruct (Hnot eq_refl)].
  destruct (Hans eq_refl) as (_ & pre & t & post & Hem & _).
  rewrite Hem, !chunks_app in Hch. simpl in Hch.
  apply app_eq_nil in Hch as [_ [=]].
Qed.

(** End to end, for an agent call that relays the tokens as the
    specification says ([agent_tokens]), on every schedule: when the
    stream has stopped, the answer chunks put together are the text the
    model wrote after the first "Final Answer:" (the empty text when it
    never wrote the marker); and when the marker never comes, no chunk
    and no [answering] status is ever emitted. *)
Theorem client_receives_text_after_marker
        (raw : list string) (g : Generation) (sched : list Thread) :
  let s := run sched (start (agent_tokens raw) g) in
  (pc s = Stopped ->
   join (chunks (emitted s)) = default "" (after default_marker (join raw))) /\
  (after default_marker (join raw) = None ->
   chunks (emitted s) = [] /\ count_status answering (emitted s) = 0).
Proof.
  intros s. unfold agent_tokens in s.
  pose proof (inv_run (forwarded raw) g sched _ (inv_initial (forwarded raw) g)) as Hinv.
  fold s in Hinv.
  destruct (RelayMore.relay_text default_marker raw ltac:(discriminate))
    as (_ & Hjoin & Hnone).
  fold (forwarded raw) in Hjoin, Hnone.
  pose proof (inv_tokens _ _ _ Hinv) as Htok. rewrite pending_tokens_worker in Htok.
  split.
  - intros Hstop. rewrite Hstop in Htok. simpl in Htok.
    assert (Hch : chunks (emitted s) = forwarded raw)
      by (eapply relayed_all; [exact Htok | apply only_sentinel]).
    now rewrite Hch.
  - intros Hno. specialize (Hnone Hno).
    assert (Hch : chunks (emitted s) = []).
    { assert (Hpre : chunks (emitted s) `prefix_of` forwarded raw)
        by (eapply relayed_prefix; [exact Htok | apply only_sentinel]).
      rewrite Hnone in Hpre. now apply prefix_nil_inv in Hpre. }
    split; [exact Hch | eapply no_chunk_no_answering; eassumption].
Qed.

Lemma client_receives_witness :
  join (chunks (emitted (run ordinary
          (start (agent_tokens ["Thought: x"; "Final Answer: Hello"]) Returns))))
  = " Hello".
Proof.
  destruct (client_receives_text_after_marker
              ["Thought: x"; "Final Answer: Hello"] Returns ordinary) as [Hstop _].
  exact (Hstop eq_refl).
Defined.

End StreamMore.

(** ** The session history *)

Module SessionFacts.
Import Session.

Lemma get_turns_append (chat_id other : string) (turn : Turn)
      (mem : gmap string (list Turn)) :
  get_turns other (append_turn chat_id turn mem)
  = if decide (chat_id = other) then get_turns chat_id mem ++ [turn]
    else get_turns other mem.
Proof.
  unfold append_turn, get_turns at 1. rewrite lookup_insert.
  destruct (decide (chat_id = other)); reflexivity.
Qed.

Lemma concat_snoc (sep : string) (l : list string) (x : string) :
  exists pre, PyStr.join_with sep (l ++ [x]) = pre +:+ x.
Proof.
  induction l as [|y l (pre & IH)].
  - now exists "".
  - change ((y :: l) ++ [x]) with (y :: (l ++ [x])).
    destruct (l ++ [x]) as [|z zs] eqn:Hl.
    + now destruct l.
    + exists (y +:+ sep +:+ pre).
      change (PyStr.join_with sep (y :: z :: zs))
        with (y +:+ sep +:+ PyStr.join_with sep (z :: zs)).
      now rewrite IH, !PyStrFacts.app_assoc.
Qed.

(** The window of [build_history_prompt]: with a positive [max_pairs] the
    blocks are those of the last [2 * max_pairs] turns of the chat (of all
    its turns when it has fewer), in order; with [max_pairs = 0] the slice
    [turns[-0:]] keeps every turn; and a chat without a log gives the empty
    prompt. *)
Theorem history_window (max_pairs : Z) (chat_id : string)
        (mem : gmap string (list Turn)) :
  ((0 < max_pairs)%Z ->
   exists older kept,
     get_turns chat_id mem = older ++ kept /\
     history_blocks max_pairs chat_id mem = map block kept /\
     length kept = Nat.min (length (get_turns chat_id mem)) (Z.to_nat (2 * max_pairs))) /\
  (max_pairs = 0%Z ->
   history_blocks max_pairs chat_id mem = map block (get_turns chat_id mem)) /\
  (mem !! chat_id = None -> build_history_prompt max_pairs chat_id mem = "").
Proof.
  unfold build_history_prompt, history_blocks, slice_from. split; [|split].
  - intros Hpos.
    set (turns := get_turns chat_id mem).
    set (k := Z.to_nat (Z.max 0 (Z.of_nat (length turns) + - max_pairs * 2))).
    assert (Hneg : ((- max_pairs * 2 <? 0) = true)%Z) by (apply Z.ltb_lt; lia).
    rewrite Hneg. exists (take k turns), (drop k turns).
    split; [now rewrite take_drop|]. split; [reflexivity|].
    rewrite length_drop. subst k. lia.
  - intros ->. simpl. now rewrite drop_0.
  - intros Hnone. unfold get_turns. rewrite Hnone. simpl.
    destruct (- max_pairs * 2 <? 0)%Z; now rewrite drop_nil.
Qed.

Lemma history_window_witness :
  let mem : gmap string (list Turn) :=
    {[ "c1" := [mkTurn "user" "hi"; mkTurn "assistant" "hello";
                mkTurn "user" "sleep?"; mkTurn "assistant" "rest"] ]} in
  (0 < 1)%Z /\
  exists older kept,
    get_turns "c1" mem = older ++ kept /\
    history_blocks 1 "c1" mem = map block kept /\
    length kept = Nat.min (length (get_turns "c1" mem)) (Z.to_nat (2 * 1)).
Proof.
  intros mem. split; [lia|].
  apply (proj1 (history_window 1 "c1" mem)). lia.
Defined.

Lemma filter_none {A} (P : A -> Prop) `{forall x, Decision (P x)} (l : list A) :
  (forall x, x ∈ l -> ~ P x) -> filter P l = [].
Proof.
  induction l as [|x l IH]; intros Hnone; [reflexivity|].
  rewrite filter_cons, decide_False by (apply Hnone; constructor).
  apply IH. intros y Hy. apply Hnone. now constructor.
Qed.

(** The log of a chat after a sequence of writes. *)
Lemma appended_log (writes : list Write) (chat_id : string) :
  forall mem,
    get_turns chat_id (appended writes mem)
    = get_turns chat_id mem
      ++ map snd (filter (fun w => fst w = chat_id) writes).
Proof.
  unfold appended. induction writes as [|[cid turn] writes IH]; intros mem; simpl.
  - now rewrite List.app_nil_r.
  - rewrite IH. unfold apply_write. simpl. rewrite get_turns_append, filter_cons.
    simpl. destruct (decide (cid = chat_id)) as [->|Hne]; simpl.
    + now rewrite <- List.app_assoc.
    + reflexivity.
Qed.

(** The history that [worker] gives the agent, and the question just
    asked.  The worker logs the question and reads the log in two steps,
    and other requests may write to the same chat in between, [mine]
    being their turns.  With at most eleven of them the history holds
    the line of the question, followed by their lines; with twelve or
    more the question is no longer in the window; and when no request
    writes to the chat in between, the history ends with the line of the
    question. *)
Theorem worker_history_holds_question
        (others : list Write) (chat_id query : string)
        (mem : gmap string (list Turn)) :
  let mine := map snd (filter (fun w => fst w = chat_id) others) in
  let blocks :=
    history_blocks 6 chat_id
      (appended others (append_turn chat_id (mkTurn "user" query) mem)) in
  (length mine <= 11 ->
   exists earlier,
     blocks = earlier ++ ("**User:** " +:+ query) :: map block mine /\
     length earlier + length mine <= 11) /\
  (12 <= length mine -> blocks = map block (drop (length mine - 12) mine)) /\
  (mine = [] ->
   exists pre,
     worker_history_among others chat_id query mem = pre +:+ "**User:** " +:+ query).
Proof.
  intros mine blocks.
  assert (Hblocks : blocks
    = map block (drop (length (get_turns chat_id mem) + 1 + length mine - 12)
                      ((get_turns chat_id mem ++ [mkTurn "user" query]) ++ mine))).
  { subst blocks. unfold history_blocks, slice_from.
    rewrite appended_log, get_turns_append, decide_True by reflexivity.
    fold mine.
    assert (Hneg : ((- (6) * 2 <? 0) = true)%Z) by reflexivity.
    rewrite Hneg, !length_app. simpl length. do 2 f_equal. lia. }
  set (old := get_turns chat_id mem) in *.
  assert (Hfew : length mine <= 11 ->
     exists earlier,
       blocks = earlier ++ ("**User:** " +:+ query) :: map block mine /\
       length earlier + length mine <= 11).
  { intros Hle. rewrite Hblocks.
    set (k := length old + 1 + length mine - 12).
    assert (Hk : k <= length old) by (subst k; lia).
    rewrite drop_app_le by (rewrite length_app; simpl; lia).
    rewrite drop_app_le by exact Hk.
    exists (map block (drop k old)). split.
    - now rewrite !map_app, <- List.app_assoc.
    - rewrite length_map, length_drop. subst k. lia. }
  split; [exact Hfew|]. split.
  - intros Hmany. rewrite Hblocks.
    rewrite drop_app_ge by (rewrite length_app; simpl; lia).
    rewrite length_app. simpl length. do 2 f_equal. lia.
  - intros Hnone.
    destruct Hfew as (earlier & Heq & _); [rewrite Hnone; simpl; lia|].
    unfold worker_history_among, build_history_prompt. fold blocks.
    rewrite Heq, Hnone. simpl map. apply concat_snoc.
Qed.

(** A second request of the chat logs its question in between. *)
Example worker_history_interleaved :
  history_blocks 6 "c1"
    (appended [("c1", mkTurn "user" "second")]
              (append_turn "c1" (mkTurn "user" "first") ∅))
  = ["**User:** first"; "**User:** second"].
Proof. reflexivity. Qed.

(** [ask] appends the question and the answer, in this order, to the log
    of its chat and leaves every other log as it was. *)
Lemma ask_records_log (chat_id query answer other : string)
      (mem : gmap string (list Turn)) :
  get_turns other (ask_records chat_id query answer mem)
  = if decide (chat_id = other)
    then get_turns chat_id mem ++ [mkTurn "user" query; mkTurn "assistant" answer]
    else get_turns other mem.
Proof.
  unfold ask_records. rewrite !get_turns_append.
  destruct (decide (chat_id = other)) as [->|Hne].
  - rewrite decide_True by reflexivity. now rewrite <- List.app_assoc.
  - reflexivity.
Qed.

(** The log of a chat after a sequence of exchanges. *)
Lemma record_all_log (exchanges : list (string * string * string))
      (chat_id : string) :
  forall mem,
    get_turns chat_id (record_all exchanges mem)
    = get_turns chat_id mem
      ++ flat_map (fun x => [mkTurn "user" (snd (fst x)); mkTurn "assistant" (snd x)])
                  (filter (fun x => fst (fst x) = chat_id) exchanges).
Proof.
  unfold record_all. induction exchanges as [|[[cid qu] an] rest IH]; intros m; simpl.
  - now rewrite List.app_nil_r.
  - rewrite IH, ask_records_log, filter_cons. simpl.
    destruct (decide (cid = chat_id)) as [->|Hne]; simpl.
    + now rewrite <- List.app_assoc.
    + reflexivity.
Qed.

Lemma flying_take_off (programs : list (list Write)) (mem : gmap string (list Turn)) :
  Flying programs mem (take_off programs mem).
Proof.
  split; simpl; try reflexivity.
  - intros i program Hi. now exists program.
  - intros d Hd. now apply elem_of_nil in Hd.
Qed.

Lemma flying_step (programs : list (list Write)) (mem : gmap string (list Turn))
      (i : nat) (f : Flight) :
  Flying programs mem f -> Flying programs mem (step_request i f).
Proof.
  intros [Hmem Hlen Horder Horigin]. unfold step_request.
  destruct (pending f !! i) as [[|w rest]|] eqn:Hi;
    [now split | | now split].
  assert (Hlt : i < length (pending f)) by (eapply lookup_lt_Some; eassumption).
  destruct (lookup_lt_is_Some_2 programs i) as [program Hprogram]; [lia|].
  destruct (Horder i program Hprogram) as (rest0 & Hrest0 & Hsplit).
  assert (Hrest : rest0 = w :: rest) by congruence. subst rest0.
  split; simpl.
  - rewrite Hmem, map_app. unfold appended. now rewrite fold_left_app.
  - now rewrite length_insert.
  - intros j program' Hj. rewrite filter_app, map_app, filter_cons, filter_nil.
    simpl. destruct (decide (i = j)) as [<-|Hne].
    + exists rest. rewrite list_lookup_insert_eq by assumption.
      split; [reflexivity|]. simpl.
      assert (program' = program) by congruence. subst program'.
      now rewrite <- List.app_assoc.
    + rewrite list_lookup_insert_ne by assumption.
      simpl. rewrite List.app_nil_r. now apply Horder.
  - intros d [Hd| ->%list_elem_of_singleton]%elem_of_app; [now apply Horigin|].
    exists program. split; [assumption|]. rewrite <- Hsplit.
    apply elem_of_app. right. constructor.
Qed.

Lemma flying_fly (programs : list (list Write)) (mem : gmap string (list Turn))
      (sched : list nat) :
  forall f, Flying programs mem f -> Flying programs mem (fly sched f).
Proof.
  unfold fly. induction sched as [|i sched IH]; intros f Hf; simpl; [assumption|].
  now apply IH, flying_step.
Qed.

(** The logs only grow, however the requests interleave.  The requests
    write by appends; after any schedule of their writes the memory is
    the one that the writes made so far leave, in the order in which
    they were made; each request has made its writes in program order,
    so that in the log its question stands before its answer; the log of
    every chat is its log before, followed by the turns written to it,
    in the order of the writes; and the history of a chat that no
    request writes to does not change.  The turns of two requests of one
    chat can interleave. *)
Theorem logs_only_grow (programs : list (list Write))
        (mem : gmap string (list Turn)) (sched : list nat) :
  let f := fly sched (take_off programs mem) in
  memory f = appended (map snd (written f)) mem /\
  (forall i program, programs !! i = Some program ->
     exists rest,
       pending f !! i = Some rest /\
       map snd (filter (fun d => fst d = i) (written f)) ++ rest = program) /\
  (forall chat_id,
     get_turns chat_id (memory f)
     = get_turns chat_id mem
       ++ map snd (filter (fun w => fst w = chat_id) (map snd (written f))) /\
     get_turns chat_id mem `prefix_of` get_turns chat_id (memory f)) /\
  (forall chat_id,
     Forall (Forall (fun w => fst w <> chat_id)) programs ->
     forall max_pairs,
       build_history_prompt max_pairs chat_id (memory f)
       = build_history_prompt max_pairs chat_id mem).
Proof.
  intros f.
  destruct (flying_fly programs mem sched _ (flying_take_off programs mem))
    as [Hmem _ Horder Horigin].
  fold f in Hmem, Horder, Horigin.
  split; [exact Hmem|]. split; [exact Horder|]. split.
  - intros chat_id. rewrite Hmem, appended_log.
    split; [reflexivity | now apply prefix_app_r].
  - intros chat_id Hother max_pairs.
    unfold build_history_prompt, history_blocks. rewrite Hmem, appended_log.
    replace (filter (fun w => fst w = chat_id) (map snd (written f)))
      with (@nil Write); [simpl; now rewrite List.app_nil_r|].
    symmetry. apply filter_none.
    intros w (d & -> & Hd)%(list_elem_of_fmap_1 snd).
    destruct (Horigin d Hd) as (program & Hprogram & Hin).
    rewrite Forall_forall in Hother.
    assert (Hprog : Forall (fun w => fst w <> chat_id) program)
      by (apply Hother; eapply list_elem_of_lookup_2; eassumption).
    rewrite Forall_forall in Hprog. now apply Hprog.
Qed.

(** Two requests of one chat, in sequence and overlapping. *)
Lemma logs_only_grow_witness :
  let programs := [request_writes "c1" "q1" "a1"; request_writes "c1" "q2" "a2"] in
  get_turns "c1" (memory (fly [0; 0; 1; 1] (take_off programs ∅)))
  = [mkTurn "user" "q1"; mkTurn "assistant" "a1";
     mkTurn "user" "q2"; mkTurn "assistant" "a2"] /\
  get_turns "c1" (memory (fly overlapping (take_off programs ∅)))
  = [mkTurn "user" "q1"; mkTurn "user" "q2";
     mkTurn "assistant" "a2"; mkTurn "assistant" "a1"] /\
  build_history_prompt 6 "c2" (memory (fly overlapping (take_off programs ∅)))
  = build_history_prompt 6 "c2" ∅.
Proof.
  intros programs.
  destruct (logs_only_grow programs ∅ [0; 0; 1; 1]) as (_ & _ & Hlog & _).
  destruct (logs_only_grow programs ∅ overlapping) as (_ & _ & Hlog' & Hsame).
  split; [|split].
  - rewrite (proj1 (Hlog "c1")). reflexivity.
  - rewrite (proj1 (Hlog' "c1")). reflexivity.
  - apply Hsame. repeat constructor; simpl; discriminate.
Defined.

End SessionFacts.

(** ** Merging the two tracks and mapping the rerank response back *)

Module SearchMore.
Import Search Shape SortFacts SearchFacts.

Lemma first_with_Some (cid : Z) (rows : list Row) (r : Row) :
  first_with cid rows = Some r -> chunk_id r = cid /\ r ∈ rows.
Proof.
  induction rows as [|x rows IH]; simpl; [discriminate|].
  destruct (decide (chunk_id x = cid)) as [Hx|Hx].
  - intros [= <-]. split; [assumption | constructor].
  - intros Hr. destruct (IH Hr). split; [assumption | now constructor].
Qed.

Lemma first_with_elem_of (rows : list Row) (r : Row) :
  r ∈ rows -> exists r', first_with (chunk_id r) rows = Some r'.
Proof.
  induction rows as [|x rows IH]; intros Hr.
  - now apply elem_of_nil in Hr.
  - simpl. destruct (decide (chunk_id x = chunk_id r)); [eauto|].
    apply elem_of_cons in Hr as [->|Hr]; [congruence | now apply IH].
Qed.

(** The loop of the merge, from any set of ids already seen. *)
Lemma dedup_by_id_spec (rows : list Row) :
  forall seen : gset Z,
    NoDup (map chunk_id (dedup_by_id seen rows)) /\
    dedup_by_id seen rows `sublist_of` rows /\
    forall r, r ∈ dedup_by_id seen rows
              <-> (chunk_id r ∉ seen) /\ first_with (chunk_id r) rows = Some r.
Proof.
  induction rows as [|x rows IH]; intros seen; simpl.
  - split; [constructor|]. split; [constructor|].
    intros r. split; [intros Hr; now apply elem_of_nil in Hr | intros [_ [=]]].
  - destruct (decide (chunk_id x ∈ seen)) as [Hseen|Hfresh].
    + destruct (IH seen) as (Hnd & Hsub & Hiff).
      split; [assumption|]. split; [now apply sublist_cons|].
      intros r. rewrite Hiff. split; intros [Hr Hfirst]; split; try assumption.
      * rewrite decide_False; [assumption | congruence].
      * destruct (decide (chunk_id x = chunk_id r)); [congruence | assumption].
    + destruct (IH ({[chunk_id x]} ∪ seen)) as (Hnd & Hsub & Hiff).
      split; [|split; [now apply sublist_skip|]].
      * simpl. apply NoDup_cons. split; [|assumption].
        intros (r & Hid & Hr)%(list_elem_of_fmap_1 chunk_id).
        apply Hiff in Hr as [Hr _]. apply Hr.
        apply elem_of_union_l, elem_of_singleton. congruence.
      * intros r. rewrite elem_of_cons, Hiff. split.
        -- intros [->|[Hr Hfirst]].
           ++ split; [assumption | now rewrite decide_True].
           ++ apply not_elem_of_union in Hr as [Hne Hr].
              apply not_elem_of_singleton in Hne.
              split; [assumption|]. rewrite decide_False; [assumption | congruence].
        -- intros [Hr Hfirst].
           destruct (decide (chunk_id x = chunk_id r)) as [Heq|Hne];
             [left; congruence|].
           right. split; [|assumption].
           apply not_elem_of_union. split; [|assumption].
           apply not_elem_of_singleton. congruence.
Qed.

(** Rows with distinct ids, none of them seen, pass the merge in a block. *)
Lemma dedup_by_id_distinct (simple rest : list Row) :
  forall seen : gset Z,
    NoDup (map chunk_id simple) ->
    (forall r, r ∈ simple -> chunk_id r ∉ seen) ->
    exists seen', dedup_by_id seen (simple ++ rest) = simple ++ dedup_by_id seen' rest.
Proof.
  induction simple as [|x simple IH]; intros seen Hnd Hfresh; simpl.
  - now exists seen.
  - apply NoDup_cons in Hnd as [Hx Hnd].
    rewrite decide_False by (apply Hfresh; constructor).
    destruct (IH ({[chunk_id x]} ∪ seen) Hnd) as [seen' Heq].
    + intros r Hr. apply not_elem_of_union. split.
      * apply not_elem_of_singleton. intros Heq. apply Hx. rewrite <- Heq.
        now apply (list_elem_of_fmap_2 chunk_id).
      * apply Hfresh. now constructor.
    + exists seen'. now rewrite Heq.
Qed.

(** The merge of the two tracks: the merged rows have pairwise distinct
    ids; they are rows of the simple track followed by rows of the title
    track, in the order of retrieval; a row is kept exactly when it is the
    first row with its id, so that the row of the simple track wins over a
    row of the title track with the same id; every retrieved id is kept;
    and a simple track without repeated ids comes first as a whole. *)
Theorem merge_keeps_first_row_of_each_id (simple_results title_results : list Row) :
  let merged := combine simple_results title_results in
  NoDup (map chunk_id merged) /\
  merged `sublist_of` simple_results ++ title_results /\
  (forall r, r ∈ merged
             <-> first_with (chunk_id r) (simple_results ++ title_results) = Some r) /\
  (forall cid, cid ∈ map chunk_id merged
               <-> cid ∈ map chunk_id (simple_results ++ title_results)) /\
  length merged <= length simple_results + length title_results /\
  (NoDup (map chunk_id simple_results) -> simple_results `prefix_of` merged).
Proof.
  intros merged. subst merged. unfold combine.
  destruct (dedup_by_id_spec (simple_results ++ title_results) ∅)
    as (Hnd & Hsub & Hiff).
  assert (Hin : forall r, r ∈ dedup_by_id ∅ (simple_results ++ title_results)
             <-> first_with (chunk_id r) (simple_results ++ title_results) = Some r).
  { intros r. rewrite Hiff. split; [now intros [_ ?]|].
    intros Hr. split; [apply not_elem_of_empty | assumption]. }
  split; [assumption|]. split; [assumption|]. split; [assumption|].
  split; [|split].
  - intros cid. split.
    + intros (r & -> & Hr)%(list_elem_of_fmap_1 chunk_id).
      apply (list_elem_of_fmap_2 chunk_id).
      eapply elem_of_sublist; eassumption.
    + intros (r & -> & Hr)%(list_elem_of_fmap_1 chunk_id).
      destruct (first_with_elem_of _ _ Hr) as [r' Hr'].
      destruct (first_with_Some _ _ _ Hr') as [Hid _].
      rewrite <- Hid. apply (list_elem_of_fmap_2 chunk_id).
      apply Hin. now rewrite Hid.
  - rewrite <- length_app. now apply sublist_length.
  - intros Hsimple.
    destruct (dedup_by_id_distinct simple_results title_results ∅ Hsimple)
      as [seen' Heq]; [intros r _; apply not_elem_of_empty|].
    rewrite Heq. now apply prefix_app_r.
Qed.

Lemma merge_witness :
  combine [Scenarios.row 1 (5 # 10); Scenarios.row 2 (9 # 10)]
          [Scenarios.row 2 (1 # 10); Scenarios.row 3 (7 # 10)]
  = [Scenarios.row 1 (5 # 10); Scenarios.row 2 (9 # 10); Scenarios.row 3 (7 # 10)] /\
  [Scenarios.row 1 (5 # 10); Scenarios.row 2 (9 # 10)]
    `prefix_of` combine [Scenarios.row 1 (5 # 10); Scenarios.row 2 (9 # 10)]
                        [Scenarios.row 2 (1 # 10); Scenarios.row 3 (7 # 10)].
Proof.
  split; [reflexivity|].
  apply (merge_keeps_first_row_of_each_id
           [Scenarios.row 1 (5 # 10); Scenarios.row 2 (9 # 10)]
           [Scenarios.row 2 (1 # 10); Scenarios.row 3 (7 # 10)]).
  apply (bool_decide_unpack _). vm_compute. exact I.
Defined.

(** *** The loop that maps the response back *)

Lemma retrieved_set_rerank (score : Q) (position : nat) (r : Row) :
  retrieved (set_rerank score position r) = retrieved r.
Proof. reflexivity. Qed.

Lemma map_retrieved_insert (store : list Row) (i : nat) (r r' : Row) :
  store !! i = Some r -> retrieved r' = retrieved r ->
  map retrieved (<[i := r']> store) = map retrieved store.
Proof.
  intros Hi Heq. change (map retrieved) with (fmap (M:=list) retrieved).
  rewrite list_fmap_insert, Heq. apply list_insert_id.
  now rewrite list_lookup_fmap, Hi.
Qed.

(** Whatever the response, the loop changes only the two rerank keys of
    the rows, and it ends without [IndexError] exactly when every index is
    in range; it then has appended every index. *)
Lemma map_back_shape (response : list RerankResult) :
  forall (idx : nat) (store : list Row) (refs : list nat) store' out,
    map_back response idx store refs = (store', out) ->
    map retrieved store' = map retrieved store /\
    match out with
    | Some refs' =>
        refs' = refs ++ map index response /\
        Forall (fun rr => index rr < length store) response
    | None => ~ Forall (fun rr => index rr < length store) response
    end.
Proof.
  induction response as [|rr rest IH]; intros idx store refs store' out; simpl.
  - intros [= <- <-]. split; [reflexivity|].
    split; [now rewrite List.app_nil_r | constructor].
  - destruct (store !! index rr) as [orig|] eqn:Horig.
    + intros Hrun. apply IH in Hrun as [Hshape Hout].
      rewrite (map_retrieved_insert _ _ _ _ Horig (retrieved_set_rerank _ _ _))
        in Hshape.
      split; [assumption|]. rewrite length_insert in Hout.
      apply lookup_lt_Some in Horig.
      destruct out as [refs'|].
      * destruct Hout as [-> Hrange]. split; [now rewrite <- List.app_assoc|].
        now constructor.
      * intros Hall. apply Hout. now apply Forall_cons in Hall as [_ ?].
    + intros [= <- <-]. split; [reflexivity|].
      intros Hall. apply Forall_cons in Hall as [Hlt _].
      apply lookup_ge_None in Horig. lia.
Qed.

(** The loop over a response whose indices are distinct and in range. *)
Lemma map_back_distinct (response : list RerankResult) :
  forall (idx : nat) (store : list Row) (refs : list nat),
  NoDup (map index response) ->
  Forall (fun rr => index rr < length store) response ->
  exists store',
    map_back response idx store refs = (store', Some (refs ++ map index response)) /\
    (forall i, i ∉ map index response -> store' !! i = store !! i) /\
    (forall j rr, response !! j = Some rr ->
       exists orig, store !! index rr = Some orig /\
         store' !! index rr
         = Some (set_rerank (relevance_score rr) (idx + j + 1) orig)).
Proof.
  induction response as [|rr rest IH]; intros idx store refs Hnd Hrange; simpl.
  - exists store. rewrite List.app_nil_r. repeat split; try reflexivity.
    intros j rr Hj. now rewrite lookup_nil in Hj.
  - apply NoDup_cons in Hnd as [Hfresh Hnd].
    apply Forall_cons in Hrange as [Hrr Hrange].
    destruct (lookup_lt_is_Some_2 store (index rr) Hrr) as [orig Horig].
    rewrite Horig.
    set (store1 := <[index rr := set_rerank (relevance_score rr) (idx + 1) orig]> store).
    destruct (IH (S idx) store1 (refs ++ [index rr]) Hnd) as (store' & Hrun & Hout & Hin).
    { unfold store1. eapply Forall_impl; [exact Hrange|].
      intros rr' Hlt. simpl in Hlt. now rewrite length_insert. }
    exists store'. split; [|split].
    + rewrite Hrun. now rewrite <- List.app_assoc.
    + intros i Hi. apply not_elem_of_cons in Hi as [Hne Hi].
      rewrite (Hout i Hi). unfold store1. now apply list_lookup_insert_ne.
    + intros [|j] rr' Hj; simpl in Hj.
      * injection Hj as <-. exists orig. split; [assumption|].
        rewrite (Hout _ Hfresh). unfold store1.
        rewrite list_lookup_insert_eq by assumption.
        now rewrite Nat.add_0_r.
      * destruct (Hin j rr' Hj) as (orig' & Horig' & Hfinal).
        assert (Hne : index rr <> index rr').
        { intros Heq. apply Hfresh. rewrite Heq.
          apply (list_elem_of_fmap_2 index).
          eapply list_elem_of_lookup_2; eassumption. }
        exists orig'. split.
        -- unfold store1 in Horig'.
           now rewrite list_lookup_insert_ne in Horig' by assumption.
        -- rewrite Hfinal. do 2 f_equal. lia.
Qed.

Lemma deref_elem_of {A} (store : list A) (refs : list nat) (x : A) :
  x ∈ deref store refs -> x ∈ store.
Proof.
  unfold deref. intros (i & _ & Hi)%list_elem_of_omap.
  eapply list_elem_of_lookup_2; eassumption.
Qed.

Lemma similarity_fallback_elem_of (rows : list Row) (x : Row) :
  x ∈ similarity_fallback rows -> x ∈ rows.
Proof.
  unfold similarity_fallback. intros Hx.
  apply (stable_sort_elem_of by_similarity_desc). eapply subseteq_take, Hx.
Qed.

(** The fallback looks at the similarity only: rows that differ in the
    rerank keys are sorted and cut alike. *)
Lemma similarity_fallback_shape (rows rows' : list Row) :
  map retrieved rows' = map retrieved rows ->
  map retrieved (similarity_fallback rows') = map retrieved (similarity_fallback rows).
Proof.
  intros Hshape. unfold similarity_fallback.
  change (map retrieved) with (fmap (M:=list) retrieved) in *.
  rewrite !fmap_take. f_equal.
  change (fmap (M:=list) retrieved) with (map retrieved) in *.
  rewrite <- !(stable_sort_map retrieved by_similarity_desc by_similarity_desc)
    by reflexivity.
  now rewrite Hshape.
Qed.

Section WithServices.
Context `{Services}.

(** Every record of the rerank block is a merged row, up to the two
    rerank keys. *)
Lemma rerank_elem_of (query : string) (rows : list Row) (x : Row) :
  x ∈ rerank query rows -> exists orig, orig ∈ rows /\ retrieved x = retrieved orig.
Proof.
  unfold rerank. destruct rows as [|r0 rs] eqn:Hrows.
  - intros Hx. now apply elem_of_nil in Hx.
  - rewrite <- Hrows. clear Hrows. cbv zeta.
    destruct (co_rerank _ _ _) as [response|e].
    + destruct (map_back response 0 rows []) as [store' out] eqn:Hrun.
      apply map_back_shape in Hrun as [Hshape _].
      intros Hx.
      assert (Hstore : x ∈ store').
      { destruct out; [eapply deref_elem_of | apply similarity_fallback_elem_of];
          eassumption. }
      apply (list_elem_of_fmap_2 retrieved) in Hstore.
      change (fmap (M:=list) retrieved store') with (map retrieved store') in Hstore.
      rewrite Hshape in Hstore.
      apply (list_elem_of_fmap_1 retrieved) in Hstore as (orig & Heq & Horig). eauto.
    + intros Hx. exists x. split; [now apply similarity_fallback_elem_of | reflexivity].
Qed.

(** A rerank response whose indices are in range: the records are one per
    result, the [i]-th being the merged row at the index of the [i]-th
    result with changes to the two rerank keys only; two results with the
    same index give the same record, the rows being shared; and when the
    indices are distinct the [cohere_score] of the [i]-th record is the
    score of the [i]-th result and its [rerank_position] is [i + 1].  A
    response with an index out of
    range ends the loop with [IndexError]: the records are then those of
    the similarity fallback, up to the rerank keys that the loop had
    written before. *)
Theorem rerank_response_is_mapped_back
        (query : string) (rows : list Row) (response : list RerankResult) :
  rows <> [] ->
  co_rerank query (map content rows) (Nat.min 10 (length rows)) = Ok response ->
  (Forall (fun rr => index rr < length rows) response ->
   length (rerank query rows) = length response /\
   (forall i rr, response !! i = Some rr ->
      exists orig r,
        rows !! index rr = Some orig /\ rerank query rows !! i = Some r /\
        retrieved r = retrieved orig) /\
   (forall i j rr rr', response !! i = Some rr -> response !! j = Some rr' ->
      index rr = index rr' -> rerank query rows !! i = rerank query rows !! j) /\
   (NoDup (map index response) ->
    forall i rr, response !! i = Some rr ->
      exists orig r,
        rows !! index rr = Some orig /\
        rerank query rows !! i = Some r /\
        cohere_score r = Some (relevance_score rr) /\
        rerank_position r = Some (i + 1) /\
        retrieved r = retrieved orig)) /\
  (~ Forall (fun rr => index rr < length rows) response ->
   map retrieved (rerank query rows) = map retrieved (similarity_fallback rows) /\
   length (rerank query rows) = Nat.min 8 (length rows)).
Proof.
  intros Hne Hcall. unfold rerank.
  destruct rows as [|r0 rs] eqn:Hrows; [congruence|]. rewrite <- Hrows in *.
  clear Hrows r0 rs. cbv zeta. rewrite length_map, Hcall.
  destruct (map_back response 0 rows []) as [store' out] eqn:Hrun.
  pose proof (map_back_shape _ _ _ _ _ _ Hrun) as [Hshape Hout].
  assert (Hlen : length store' = length rows).
  { now rewrite <- (length_map retrieved store'), Hshape, length_map. }
  split.
  - intros Hrange. destruct out as [refs|]; [|contradiction].
    destruct Hout as [-> _]. simpl app.
    destruct (FusionFacts.deref_lookup store' (map index response)) as [Hdlen Hd].
    { apply Forall_forall. intros i (rr & -> & Hrr)%(list_elem_of_fmap_1 index).
      apply lookup_lt_is_Some_2. rewrite Hlen.
      rewrite Forall_forall in Hrange. now apply Hrange. }
    assert (Hat : forall i rr, response !! i = Some rr ->
              deref store' (map index response) !! i = store' !! index rr).
    { intros i rr Hi. apply Hd.
      change (map index response) with (index <$> response).
      now rewrite list_lookup_fmap, Hi. }
    split; [now rewrite Hdlen, length_map|]. split; [|split].
    + intros i rr Hi. rewrite (Hat i rr Hi).
      rewrite Forall_forall in Hrange.
      assert (Hlt : index rr < length rows)
        by (apply Hrange; eapply list_elem_of_lookup_2; eassumption).
      destruct (lookup_lt_is_Some_2 rows (index rr) Hlt) as [orig Horig].
      destruct (lookup_lt_is_Some_2 store' (index rr)) as [r Hr]; [lia|].
      exists orig, r. split; [assumption|]. split; [assumption|].
      assert (Heq : map retrieved store' !! index rr = map retrieved rows !! index rr)
        by now rewrite Hshape.
      change (map retrieved) with (fmap (M:=list) retrieved) in Heq.
      rewrite !list_lookup_fmap, Hr, Horig in Heq. simpl in Heq. congruence.
    + intros i j rr rr' Hi Hj Hsame.
      now rewrite (Hat i rr Hi), (Hat j rr' Hj), Hsame.
    + intros Hnd i rr Hi.
      destruct (map_back_distinct response 0 rows [] Hnd Hrange)
        as (store2 & Hrun2 & _ & Hin).
      assert (Hstore : store2 = store') by congruence. subst store2.
      destruct (Hin i rr Hi) as (orig & Horig & Hfinal).
      exists orig, (set_rerank (relevance_score rr) (i + 1) orig).
      split; [assumption|]. split; [|now repeat split].
      now rewrite (Hat i rr Hi), Hfinal.
  - intros Hout_of_range. destruct out as [refs|]; [now destruct Hout|].
    split; [now apply similarity_fallback_shape|].
    unfold similarity_fallback. rewrite length_take, stable_sort_length. lia.
Qed.

(** What the executor returns, in every case: the query and the search id
    it was given; records that are rows returned by one of the two tracks,
    changed in the two rerank keys at most; the two totals when no error
    is recorded, the second being the number of records; and neither
    records nor totals when an error is recorded. *)
Theorem executor_returns_retrieved_rows (query : string) (search_id : option string) :
  let r := execute_dual_track_search query search_id in
  Search.query r = query /\ Search.search_id r = search_id /\
  search_time r = search_seconds query search_id /\
  (forall x, x ∈ results r ->
     exists emb simple title orig,
       vo_embed query = Ok emb /\
       simple_hybrid_search (search_params emb query) = Ok simple /\
       title_filtered_search (title_params emb query) = Ok title /\
       orig ∈ default [] simple ++ default [] title /\
       retrieved x = retrieved orig) /\
  (error r = None ->
   total_after_rerank r = Some (length (results r)) /\
   exists before, total_before_rerank r = Some before /\
     (results r <> [] -> 0 < before)) /\
  (forall msg, error r = Some msg ->
     results r = [] /\ total_before_rerank r = None /\ total_after_rerank r = None).
Proof.
  intros r. subst r.
  pose proof (execute_cases query search_id) as Hcases.
  destruct (vo_embed query) as [emb|e];
    [|rewrite Hcases; repeat split; try discriminate;
      intros x Hx; now apply elem_of_nil in Hx].
  destruct (simple_hybrid_search _) as [simple|e] eqn:Hs;
    [|rewrite Hcases; repeat split; try discriminate;
      intros x Hx; now apply elem_of_nil in Hx].
  destruct (title_filtered_search _) as [title|e] eqn:Ht;
    [|rewrite Hcases; repeat split; try discriminate;
      intros x Hx; now apply elem_of_nil in Hx].
  cbv zeta in Hcases. rewrite Hcases. cbn [Search.query Search.search_id search_time
    results error total_before_rerank total_after_rerank].
  split; [reflexivity|]. split; [reflexivity|]. split; [reflexivity|].
  split; [|split].
  - intros x (orig & Horig & Heq)%rerank_elem_of.
    exists emb, simple, title, orig. repeat split; try assumption.
    eapply elem_of_sublist; [exact Horig|].
    apply (dedup_by_id_spec (default [] simple ++ default [] title) ∅).
  - intros _. split; [reflexivity|]. eexists. split; [reflexivity|].
    intros Hres. destruct (combine _ _); [now destruct Hres | simpl; lia].
  - intros msg [=].
Qed.

End WithServices.

(** Two merged rows and a reranker that answers the indices 1, 0: row 2
    comes first, at position 1 with the score 1/2. *)
Lemma rerank_response_witness :
  exists r,
    @rerank Scenarios.reversing "sleep"
            [Scenarios.row 1 (9 # 10); Scenarios.row 2 (8 # 10)] !! 0 = Some r /\
    chunk_id r = 2%Z /\
    cohere_score r = Some (1 # 2) /\
    rerank_position r = Some 1.
Proof.
  destruct (@rerank_response_is_mapped_back Scenarios.reversing "sleep"
              [Scenarios.row 1 (9 # 10); Scenarios.row 2 (8 # 10)]
              [mkRerank 1 (1 # 2); mkRerank 0 (1 # 2)]
              ltac:(discriminate) eq_refl) as [Hin _].
  destruct Hin as (_ & _ & _ & Hdistinct); [repeat constructor; simpl; lia|].
  destruct (Hdistinct ltac:(apply (bool_decide_unpack _); vm_compute; exact I)
              0 (mkRerank 1 (1 # 2)) eq_refl)
    as (orig & r & Horig & Hfinal & Hscore & Hposition & Hsame).
  simpl in Horig. injection Horig as <-.
  exists r. split; [exact Hfinal|]. split; [|split; assumption].
  exact (f_equal chunk_id Hsame).
Defined.

End SearchMore.

(** ** The deduplicated chunks as a whole *)

Module AggregateMore.
Import Search Aggregate Shape AggregateFacts.

Lemma first_met_dedup (rows : list Row) :
  forall seen : gset Z, first_met seen rows = map chunk_id (dedup_by_id seen rows).
Proof.
  induction rows as [|x rows IH]; intros seen; simpl; [reflexivity|].
  destruct (decide (chunk_id x ∈ seen)); simpl; now rewrite IH.
Qed.

Lemma visits_rows (all : list SearchResult) :
  map snd (visits all) = flat_map results all.
Proof.
  unfold visits. induction all as [|sr all IH]; simpl; [reflexivity|].
  rewrite map_app, IH, map_map. simpl. now rewrite map_id.
Qed.

Lemma visits_length (all : list SearchResult) :
  length (visits all) = Report.total_before all.
Proof.
  unfold visits, Report.total_before.
  induction all as [|sr all IH]; simpl; [reflexivity|].
  now rewrite length_app, length_map, IH.
Qed.

Lemma find_is_Some (cid : Z) (groups : list (Z * Group)) :
  is_Some (find cid groups) <-> cid ∈ groups.*1.
Proof.
  destruct (find cid groups) eqn:Hfind.
  - split; [intros _|eauto].
    destruct (decide (cid ∈ groups.*1)) as [|Hout]; [assumption|].
    apply find_None in Hout. congruence.
  - split; [intros [? [=]]|]. intros Hin. now apply find_None in Hfind.
Qed.

(** The keys of [chunk_groups] are the ids in the order in which the
    pass first meets them. *)
Lemma keys_pass (ps : list (SearchResult * Row)) :
  forall groups,
    (fold_left visit ps groups).*1
    = groups.*1 ++ first_met (list_to_set groups.*1) (map snd ps).
Proof.
  induction ps as [|p ps IH]; intros groups; simpl.
  - now rewrite List.app_nil_r.
  - rewrite IH. unfold visit. rewrite !keys_update.
    destruct (find (chunk_id (snd p)) groups) eqn:Hfind.
    + rewrite decide_True; [reflexivity|].
      apply elem_of_list_to_set, find_is_Some. now rewrite Hfind.
    + rewrite decide_False.
      * rewrite <- List.app_assoc. simpl. do 3 f_equal.
        apply leibniz_equiv.
        rewrite list_to_set_app, list_to_set_singleton. apply (comm (∪)).
      * rewrite elem_of_list_to_set. now apply find_None.
Qed.

Lemma first_with_of_chunk (k : Z) (ps : list (SearchResult * Row)) :
  first_with k (map snd ps) = head (map snd (of_chunk k ps)).
Proof.
  unfold of_chunk. induction ps as [|p ps IH]; simpl; [reflexivity|].
  rewrite filter_cons. destruct (decide (chunk_id (snd p) = k)); [reflexivity|].
  exact IH.
Qed.

(** The group of a key after the pass. *)
Lemma group_entry (ps : list (SearchResult * Row)) (k : Z) (g : Group) :
  (k, g) ∈ fold_left visit ps [] ->
  exists p0 rest,
    of_chunk k ps = p0 :: rest /\
    g = summarize new_group (p0 :: rest) /\
    chunk_data g = Some (snd p0) /\
    chunk_id (snd p0) = k.
Proof.
  intros Hkg. destruct (pass_invariant ps) as [Hnd Hfind]. simpl in Hnd, Hfind.
  pose proof (find_elem_of _ _ _ Hnd Hkg) as Hk.
  destruct (Hfind k) as [Hnone Hsome].
  destruct (of_chunk k ps) as [|p0 rest] eqn:Hps;
    [rewrite Hnone in Hk by reflexivity; discriminate|].
  rewrite Hsome in Hk by discriminate.
  assert (Hg : g = summarize new_group (p0 :: rest)) by congruence.
  exists p0, rest. split; [reflexivity|]. split; [assumption|]. split.
  - rewrite Hg, summarize_chunk_data. reflexivity.
  - assert (Hin : p0 ∈ of_chunk k ps) by (rewrite Hps; constructor).
    unfold of_chunk in Hin. now apply list_elem_of_filter in Hin as [? _].
Qed.

(** Groups that all hold a row give one chunk each. *)
Lemma deduplicated_chunks_map (groups : list (Z * Group)) :
  Forall (fun kg => exists r, chunk_data (snd kg) = Some r /\ chunk_id r = fst kg) groups ->
  map (fun c => chunk_id (row c)) (deduplicated_chunks groups) = groups.*1 /\
  map retrieval_count (deduplicated_chunks groups)
  = map (fun kg => length (source_queries (snd kg))) groups.
Proof.
  unfold deduplicated_chunks.
  induction 1 as [|[k g] groups (r & Hr & Hid) _ [IHid IHcount]]; simpl;
    [split; reflexivity|].
  unfold to_chunk. simpl in Hr, Hid. rewrite Hr. simpl.
  split; f_equal; assumption.
Qed.

Lemma groups_hold_rows (ps : list (SearchResult * Row)) :
  Forall (fun kg => exists r, chunk_data (snd kg) = Some r /\ chunk_id r = fst kg)
         (fold_left visit ps []).
Proof.
  apply Forall_forall. intros [k g] Hkg.
  destruct (group_entry _ _ _ Hkg) as (p0 & rest & _ & _ & Hdata & Hid).
  exists (snd p0). now split.
Qed.

(** One pass adds one retrieval to one group. *)
Lemma retrievals_update (cid : Z) (sr : SearchResult) (r : Row)
      (groups : list (Z * Group)) :
  sum_list (map (fun kg => length (source_queries (snd kg)))
                (update cid (record_retrieval sr r) groups))
  = S (sum_list (map (fun kg => length (source_queries (snd kg))) groups)).
Proof.
  induction groups as [|[k g] groups IH]; simpl; [reflexivity|].
  destruct (decide (k = cid)); simpl.
  - rewrite length_app. simpl. lia.
  - rewrite IH. lia.
Qed.

Lemma retrievals_pass (ps : list (SearchResult * Row)) :
  forall groups,
    sum_list (map (fun kg => length (source_queries (snd kg))) (fold_left visit ps groups))
    = sum_list (map (fun kg => length (source_queries (snd kg))) groups) + length ps.
Proof.
  induction ps as [|p ps IH]; intros groups; simpl; [lia|].
  rewrite IH. unfold visit. rewrite retrievals_update. lia.
Qed.

(** The chunk that the pass builds for a key. *)
Lemma chunk_of_group (all : list SearchResult) (c : Chunk) :
  c ∈ deduplicate all ->
  exists p0 rest,
    of_chunk (chunk_id (row c)) (visits all) = p0 :: rest /\
    to_chunk (summarize new_group (p0 :: rest)) = Some c /\
    row c = snd p0.
Proof.
  unfold deduplicate, deduplicated_chunks. rewrite group_chunks_visits.
  intros ([k g] & Hkg & Hto)%list_elem_of_omap. simpl in Hto.
  destruct (group_entry _ _ _ Hkg) as (p0 & rest & Hps & Hg & Hdata & Hid).
  assert (Hrow : row c = snd p0).
  { unfold to_chunk in Hto. rewrite Hdata in Hto. now injection Hto as <-. }
  exists p0, rest. rewrite Hrow, Hid. split; [assumption|]. split; [|reflexivity].
  now rewrite <- Hg.
Qed.

(** Deduplication as a whole: the output has one chunk for each id that
    some sub-query retrieved, in the order in which the ids are first met
    when the results are read query by query; the chunk holds the row of
    that first appearance, with the scores that query gave it, and no
    final score or rank yet; its set of queries is the set of the queries
    that retrieved the id. *)
Theorem one_chunk_per_retrieved_id (all : list SearchResult) :
  let rows := flat_map results all in
  let ids := map (fun c => chunk_id (row c)) (deduplicate all) in
  ids = first_met ∅ rows /\
  NoDup ids /\
  (forall cid, cid ∈ ids <-> cid ∈ map chunk_id rows) /\
  forall c, c ∈ deduplicate all ->
    first_with (chunk_id (row c)) rows = Some (row c) /\
    retrieved_by_queries c
    = list_to_set (appearances (chunk_id (row c)) all).*1 /\
    unique_query_count c = size (retrieved_by_queries c) /\
    final_cohere_score c = None /\ final_rank c = None.
Proof.
  intros rows ids.
  assert (Hids : ids = first_met ∅ rows).
  { subst ids rows. unfold deduplicate. rewrite group_chunks_visits.
    rewrite (proj1 (deduplicated_chunks_map _ (groups_hold_rows _))).
    rewrite keys_pass, visits_rows. reflexivity. }
  destruct (SearchMore.dedup_by_id_spec rows ∅) as (Hnd & Hsub & Hiff).
  split; [assumption|]. rewrite Hids, first_met_dedup.
  split; [assumption|]. split.
  - intros cid. split.
    + intros (r & -> & Hr)%(list_elem_of_fmap_1 chunk_id).
      apply (list_elem_of_fmap_2 chunk_id). eapply elem_of_sublist; eassumption.
    + intros (r & -> & Hr)%(list_elem_of_fmap_1 chunk_id).
      destruct (SearchMore.first_with_elem_of _ _ Hr) as [r' Hr'].
      destruct (SearchMore.first_with_Some _ _ _ Hr') as [Hid _].
      rewrite <- Hid. apply (list_elem_of_fmap_2 chunk_id).
      apply Hiff. split; [apply not_elem_of_empty | now rewrite Hid].
  - intros c (p0 & rest & Hps & Hto & Hrow)%chunk_of_group.
    subst rows. rewrite <- visits_rows, first_with_of_chunk, Hps, Hrow.
    split; [reflexivity|].
    unfold to_chunk in Hto. rewrite summarize_chunk_data in Hto.
    change (chunk_data new_group) with (@None Row) in Hto.
    change (head (map snd (p0 :: rest))) with (Some (snd p0)) in Hto.
    cbv iota in Hto.
    assert (Hc : c = mkChunk (snd p0)
                   (list_to_set (source_queries (summarize new_group (p0 :: rest))))
                   (list_to_set (source_query_ids (summarize new_group (p0 :: rest))))
                   (length (source_queries (summarize new_group (p0 :: rest))))
                   (size (list_to_set (source_queries (summarize new_group (p0 :: rest)))
                          : gset string))
                   (bs_similarity (best_scores (summarize new_group (p0 :: rest))))
                   (bs_cohere_score (best_scores (summarize new_group (p0 :: rest))))
                   None None) by congruence.
    rewrite Hc. cbn [row retrieved_by_queries unique_query_count
                     final_cohere_score final_rank].
    split; [|repeat split].
    rewrite <- Hrow, appearances_visits, Hps, summarize_queries.
    cbn [source_queries new_group app].
    now rewrite <- list_fmap_compose.
Qed.

Lemma retrieval_counts_sum (all : list SearchResult) :
  sum_list (map retrieval_count (deduplicate all)) = Report.total_before all.
Proof.
  unfold deduplicate. rewrite group_chunks_visits.
  rewrite (proj2 (deduplicated_chunks_map _ (groups_hold_rows _))).
  rewrite retrievals_pass. simpl. apply visits_length.
Qed.

(** The counts of a chunk: it was retrieved at least once, by at least
    one query, and by at most as many queries as it was retrieved. *)
Lemma chunk_counts (all : list SearchResult) (c : Chunk) :
  c ∈ deduplicate all ->
  1 <= unique_query_count c /\
  unique_query_count c <= retrieval_count c /\
  unique_query_count c = size (retrieved_by_queries c).
Proof.
  intros (p0 & rest & _ & Hto & _)%chunk_of_group.
  unfold to_chunk in Hto.
  destruct (chunk_data _) as [kept|]; [|discriminate]. injection Hto as <-.
  cbn [retrieval_count unique_query_count retrieved_by_queries].
  split; [|split; [apply size_list_to_set_le | reflexivity]].
  rewrite summarize_queries. simpl.
  rewrite size_union_alt, size_singleton. lia.
Qed.

(** The row of a chunk is a record of one of the search results. *)
Lemma chunk_row_retrieved (all : list SearchResult) (c : Chunk) :
  c ∈ deduplicate all -> exists sr, sr ∈ all /\ row c ∈ results sr.
Proof.
  intros (p0 & rest & Hps & _ & Hrow)%chunk_of_group.
  assert (Hin : p0 ∈ visits all).
  { assert (Hp0 : p0 ∈ of_chunk (chunk_id (row c)) (visits all))
      by (rewrite Hps; constructor).
    unfold of_chunk in Hp0. now apply list_elem_of_filter in Hp0 as [_ ?]. }
  unfold visits in Hin. apply list_elem_of_In, in_flat_map in Hin as (sr & Hsr & Hp).
  apply in_map_iff in Hp as (r & <- & Hr). simpl in Hrow.
  exists sr. split; [now apply list_elem_of_In|]. rewrite Hrow.
  now apply list_elem_of_In.
Qed.

Lemma length_le_sum_list (l : list nat) :
  (forall n, n ∈ l -> 1 <= n) ->
  length l <= sum_list l /\
  (length l = sum_list l <-> forall n, n ∈ l -> n = 1).
Proof.
  induction l as [|n l IH]; intros Hpos; simpl.
  - split; [lia|]. split; [|reflexivity]. intros _ n Hn. now apply elem_of_nil in Hn.
  - destruct IH as [Hle Hiff]; [intros n' Hn'; apply Hpos; now constructor|].
    pose proof (Hpos n ltac:(constructor)) as Hn.
    split; [lia|]. split.
    + intros Heq n' [->|Hn']%elem_of_cons; [lia|]. apply Hiff; [lia | assumption].
    + intros Hone. rewrite (Hone n) by constructor.
      f_equal. apply Hiff. intros n' Hn'. apply Hone. now constructor.
Qed.

Lemma deduplicate_length_le (all : list SearchResult) :
  length (deduplicate all) <= Report.total_before all.
Proof.
  rewrite <- retrieval_counts_sum, <- (length_map retrieval_count).
  apply length_le_sum_list.
  intros n (c & -> & Hc)%(list_elem_of_fmap_1 retrieval_count).
  destruct (chunk_counts all c Hc). lia.
Qed.

(** The retrieval counts add up: every retrieved row is counted in
    exactly one chunk, every chunk counts at least one row, and so the
    deduplicated chunks are at most as many as the retrieved rows, and as
    many exactly when no row was retrieved twice. *)
Theorem retrieval_counts_add_up (all : list SearchResult) :
  sum_list (map retrieval_count (deduplicate all)) = Report.total_before all /\
  (forall c, c ∈ deduplicate all -> 1 <= retrieval_count c) /\
  length (deduplicate all) <= Report.total_before all /\
  (length (deduplicate all) = Report.total_before all
   <-> forall c, c ∈ deduplicate all -> retrieval_count c = 1).
Proof.
  assert (Hpos : forall n, n ∈ map retrieval_count (deduplicate all) -> 1 <= n).
  { intros n (c & -> & Hc)%(list_elem_of_fmap_1 retrieval_count).
    destruct (chunk_counts all c Hc). lia. }
  destruct (length_le_sum_list _ Hpos) as [_ Hiff].
  rewrite length_map, retrieval_counts_sum in Hiff.
  split; [apply retrieval_counts_sum|]. split; [|split].
  - intros c Hc. apply Hpos. now apply (list_elem_of_fmap_2 retrieval_count).
  - apply deduplicate_length_le.
  - rewrite Hiff. split.
    + intros Hone c Hc. apply Hone. now apply (list_elem_of_fmap_2 retrieval_count).
    + intros Hone n (c & -> & Hc)%(list_elem_of_fmap_1 retrieval_count). now apply Hone.
Qed.

Lemma summarize_attained (ps : list (SearchResult * Row)) :
  forall g0,
    (bs_similarity (best_scores (summarize g0 ps)) = bs_similarity (best_scores g0)
     \/ exists p, p ∈ ps /\
          bs_similarity (best_scores (summarize g0 ps)) = get_similarity (snd p)) /\
    (bs_cohere_score (best_scores (summarize g0 ps)) = bs_cohere_score (best_scores g0)
     \/ exists p, p ∈ ps /\
          bs_cohere_score (best_scores (summarize g0 ps)) = get_cohere_score (snd p)).
Proof.
  induction ps as [|p ps IH]; intros g0; [split; now left|].
  change (summarize g0 (p :: ps))
    with (summarize (record_retrieval (fst p) (snd p) g0) ps).
  destruct (IH (record_retrieval (fst p) (snd p) g0)) as [Hs Hc]. split.
  - destruct Hs as [Hs|(p' & Hp' & Hs)].
    + rewrite Hs. simpl.
      destruct (Qgtb _ _); [right; exists p; split; [constructor | reflexivity] | now left].
    + right. exists p'. split; [now constructor | assumption].
  - destruct Hc as [Hc|(p' & Hp' & Hc)].
    + rewrite Hc. simpl.
      destruct (Qgtb _ _); [right; exists p; split; [constructor | reflexivity] | now left].
    + right. exists p'. split; [now constructor | assumption].
Qed.

(** The best scores of a chunk are the largest scores among its
    appearances and 0: each is at least 0 and at least the score of every
    appearance, and it is 0 or the score of one of the appearances.  The
    chunk of an id whose scores are all below 0, or missing, has the best
    score 0. *)
Theorem best_scores_are_maxima (all : list SearchResult) (c : Chunk) :
  c ∈ deduplicate all ->
  let apps := appearances (chunk_id (row c)) all in
  ((0 <= best_similarity c)%Q /\
   (forall q r, (q, r) ∈ apps -> (get_similarity r <= best_similarity c)%Q) /\
   (best_similarity c = 0%Q
    \/ exists q r, (q, r) ∈ apps /\ best_similarity c = get_similarity r)) /\
  ((0 <= best_cohere_score c)%Q /\
   (forall q r, (q, r) ∈ apps -> (get_cohere_score r <= best_cohere_score c)%Q) /\
   (best_cohere_score c = 0%Q
    \/ exists q r, (q, r) ∈ apps /\ best_cohere_score c = get_cohere_score r)).
Proof.
  intros (p0 & rest & Hps & Hto & Hrow)%chunk_of_group apps.
  assert (Happs : apps = map (fun p => (query (fst p), snd p)) (p0 :: rest)).
  { subst apps. now rewrite appearances_visits, Hps. }
  unfold to_chunk in Hto. destruct (chunk_data _) as [kept|]; [|discriminate].
  injection Hto as <-. cbn [best_similarity best_cohere_score].
  destruct (summarize_best (p0 :: rest) new_group) as [[Hs0 Hc0] Hall].
  destruct (summarize_attained (p0 :: rest) new_group) as [Hsa Hca].
  assert (Hfrom : forall q r, (q, r) ∈ apps -> exists p, p ∈ p0 :: rest /\ snd p = r).
  { intros q r Hqr. rewrite Happs in Hqr.
    apply (list_elem_of_fmap_1 (fun p => (query (fst p), snd p))) in Hqr
      as (p & [= -> ->] & Hp). eauto. }
  assert (Hto_app : forall p, p ∈ p0 :: rest -> (query (fst p), snd p) ∈ apps).
  { intros p Hp. rewrite Happs.
    now apply (list_elem_of_fmap_2 (fun p => (query (fst p), snd p))). }
  split; (split; [assumption|]); split.
  - intros q r (p & Hp & <-)%Hfrom. now apply Hall.
  - destruct Hsa as [Hsa|(p & Hp & Hsa)]; [now left|].
    right. exists (query (fst p)), (snd p). split; [now apply Hto_app | assumption].
  - intros q r (p & Hp & <-)%Hfrom. now apply Hall.
  - destruct Hca as [Hca|(p & Hp & Hca)]; [now left|].
    right. exists (query (fst p)), (snd p). split; [now apply Hto_app | assumption].
Qed.

(** Scenario A, where the first query gives row 5 no rerank score. *)
Lemma best_scores_witness :
  let all := @FanOut.fan_out Scenarios.scenario_A [0; 1] ["Q1"; "Q2"] in
  let c := default (Scenarios.chunk 0 0 []) (head (deduplicate all)) in
  (0 <= best_similarity c)%Q /\ (0 <= best_cohere_score c)%Q.
Proof.
  intros all c.
  destruct (best_scores_are_maxima all c) as ((Hs & _) & (Hc & _)).
  - subst c. destruct (deduplicate all) as [|c0 l] eqn:Hd.
    + vm_compute in Hd. discriminate.
    + simpl. constructor.
  - split; [exact Hs | exact Hc].
Defined.

End AggregateMore.

(** ** The final ranking and the chunks *)

Module FusionMore.
Import Search Aggregate Fusion Shape.

Lemma map_unranked_insert (store : list Chunk) (i : nat) (c c' : Chunk) :
  store !! i = Some c -> unranked c' = unranked c ->
  map unranked (<[i := c']> store) = map unranked store.
Proof.
  intros Hi Heq. change (map unranked) with (fmap (M:=list) unranked).
  rewrite list_fmap_insert, Heq. apply list_insert_id.
  now rewrite list_lookup_fmap, Hi.
Qed.

(** Whatever the response, the loop changes only the final score and the
    final rank of the chunks, and it ends without [IndexError] exactly
    when every index is in range. *)
Lemma apply_ranking_shape (response : list RerankResult) :
  forall (idx : nat) (store : list Chunk) (refs : list nat) store' out,
    apply_ranking response idx store refs = (store', out) ->
    map unranked store' = map unranked store /\
    match out with
    | Some refs' =>
        refs' = refs ++ map index response /\
        Forall (fun rr => index rr < length store) response
    | None => ~ Forall (fun rr => index rr < length store) response
    end.
Proof.
  induction response as [|rr rest IH]; intros idx store refs store' out; simpl.
  - intros [= <- <-]. split; [reflexivity|].
    split; [now rewrite List.app_nil_r | constructor].
  - destruct (store !! index rr) as [c|] eqn:Hc.
    + intros Hrun. apply IH in Hrun as [Hshape Hout].
      rewrite (map_unranked_insert _ _ c) in Hshape by (assumption || reflexivity).
      split; [assumption|]. rewrite length_insert in Hout.
      apply lookup_lt_Some in Hc.
      destruct out as [refs'|].
      * destruct Hout as [-> Hrange]. split; [now rewrite <- List.app_assoc|].
        now constructor.
      * intros Hall. apply Hout. now apply Forall_cons in Hall as [_ ?].
    + intros [= <- <-]. split; [reflexivity|].
      intros Hall. apply Forall_cons in Hall as [Hlt _].
      apply lookup_ge_None in Hc. lia.
Qed.

Lemma unranked_elem_of (store store' : list Chunk) (c : Chunk) :
  map unranked store' = map unranked store -> c ∈ store' ->
  exists d, d ∈ store /\ unranked c = unranked d.
Proof.
  intros Hshape Hc. apply (list_elem_of_fmap_2 unranked) in Hc.
  change (fmap (M:=list) unranked store') with (map unranked store') in Hc.
  rewrite Hshape in Hc.
  apply (list_elem_of_fmap_1 unranked) in Hc as (d & Heq & Hd). eauto.
Qed.

Section WithServices.
Context `{Services}.

(** Every final chunk is a deduplicated chunk, up to the final score and
    the final rank. *)
Lemma final_chunks_elem_of (queries : list string) (dedup : list Chunk) (c : Chunk) :
  c ∈ final_chunks queries dedup ->
  exists d, d ∈ dedup /\ unranked c = unranked d.
Proof.
  unfold final_chunks.
  destruct (Nat.ltb 1 (length queries) && nonempty dedup).
  - cbv zeta. destruct (co_rerank _ _ _) as [response|e].
    + destruct (apply_ranking response 0 dedup []) as [store' out] eqn:Hrun.
      apply apply_ranking_shape in Hrun as [Hshape _].
      intros Hc. apply (unranked_elem_of dedup store' c Hshape).
      destruct out; [eapply SearchMore.deref_elem_of | eapply subseteq_take];
        eassumption.
    + intros Hc. exists c. split; [eapply subseteq_take, Hc | reflexivity].
  - intros Hc. exists c. split; [eapply subseteq_take, Hc | reflexivity].
Qed.

(** The final list, whatever the reranker answers: its chunks are
    deduplicated chunks that differ from the originals in the final score
    and the final rank at most.  For a response with indices in range the
    list has one chunk per result, and results with the same index give
    the same chunk; a response with an index out of range ends the loop
    with [IndexError], and the list is that of the first 12 deduplicated
    chunks, up to the final keys written before.  Without a second
    sub-query, or without chunks, the reranker is not consulted. *)
Theorem fusion_keeps_the_chunks (queries : list string) (dedup : list Chunk) :
  (forall c, c ∈ final_chunks queries dedup ->
     exists d, d ∈ dedup /\ unranked c = unranked d) /\
  (forall response,
     1 < length queries -> dedup <> [] ->
     co_rerank (PyStr.join_with " " queries)
               (map (fun chunk => content (row chunk)) dedup)
               (Nat.min 10 (length dedup)) = Ok response ->
     (Forall (fun rr => index rr < length dedup) response ->
      length (final_chunks queries dedup) = length response /\
      forall i j rr rr', response !! i = Some rr -> response !! j = Some rr' ->
        index rr = index rr' ->
        final_chunks queries dedup !! i = final_chunks queries dedup !! j) /\
     (~ Forall (fun rr => index rr < length dedup) response ->
      map unranked (final_chunks queries dedup) = map unranked (take 12 dedup) /\
      length (final_chunks queries dedup) = Nat.min 12 (length dedup))) /\
  (length queries <= 1 \/ dedup = [] -> final_chunks queries dedup = take 8 dedup).
Proof.
  split; [intros c; apply final_chunks_elem_of|]. split.
  - intros response Hlen Hne Hcall. unfold final_chunks.
    apply Nat.ltb_lt in Hlen. rewrite Hlen.
    destruct dedup as [|c0 cs] eqn:Hd; [congruence|]. rewrite <- Hd in *.
    assert (Hnonempty : nonempty dedup = true) by now rewrite Hd.
    rewrite Hnonempty. cbv zeta. simpl andb. cbv iota.
    rewrite length_map, Hcall.
    destruct (apply_ranking response 0 dedup []) as [store' out] eqn:Hrun.
    pose proof (apply_ranking_shape _ _ _ _ _ _ Hrun) as [Hshape Hout].
    assert (Hlen' : length store' = length dedup).
    { now rewrite <- (length_map unranked store'), Hshape, length_map. }
    split.
    + intros Hrange. destruct out as [refs|]; [|contradiction].
      destruct Hout as [-> _]. simpl app.
      destruct (FusionFacts.deref_lookup store' (map index response)) as [Hdlen Hd'].
      { apply Forall_forall. intros i (rr & -> & Hrr)%(list_elem_of_fmap_1 index).
        apply lookup_lt_is_Some_2. rewrite Hlen'.
        rewrite Forall_forall in Hrange. now apply Hrange. }
      split; [now rewrite Hdlen, length_map|].
      intros i j rr rr' Hi Hj Hsame.
      rewrite (Hd' i (index rr)), (Hd' j (index rr')); [now rewrite Hsame| |];
        change (map index response) with (index <$> response);
        rewrite list_lookup_fmap; [now rewrite Hj | now rewrite Hi].
    + intros Hout_of_range. destruct out as [refs|]; [now destruct Hout|].
      change (map unranked) with (fmap (M:=list) unranked) in *.
      rewrite !fmap_take, Hshape. split; [reflexivity|].
      rewrite length_take. lia.
  - intros Hfew. unfold final_chunks.
    destruct Hfew as [Hlen| ->].
    + apply Nat.ltb_ge in Hlen. now rewrite Hlen.
    + now rewrite andb_false_r.
Qed.

End WithServices.

(** Two chunks and a response with the index 5. *)
Lemma fusion_keeps_witness :
  let services :=
    Scenarios.make (fun _ => Ok []) (fun _ => Ok None) (fun _ => Ok None)
                   (fun _ _ _ => Ok [mkRerank 1 (1 # 2); mkRerank 5 (1 # 3)]) in
  map unranked (@final_chunks services ["sleep"; "eating"] Scenarios.two_chunks)
  = map unranked (take 12 Scenarios.two_chunks) /\
  map final_rank (@final_chunks services ["sleep"; "eating"] Scenarios.two_chunks)
  = [None; Some 1].
Proof.
  intros services. split; [|reflexivity].
  destruct (@fusion_keeps_the_chunks services ["sleep"; "eating"] Scenarios.two_chunks)
    as (_ & Hresp & _).
  destruct (Hresp [mkRerank 1 (1 # 2); mkRerank 5 (1 # 3)]
              ltac:(simpl; lia) ltac:(discriminate) eq_refl) as [_ Hout].
  apply Hout. intros Hall. apply Forall_cons in Hall as [_ Hall].
  apply Forall_cons in Hall as [Hlt _]. simpl in Hlt. lia.
Defined.

End FusionMore.

(** ** The summary and the formatted results *)

Module ReportMore.
Import Search FanOut Aggregate Fusion Report Shape SortFacts.

Lemma take_length (n : nat) (s : string) :
  PyStr.len (PyStr.take n s) = Nat.min n (PyStr.len s).
Proof.
  unfold PyStr.take. revert n.
  induction s as [|c s IH]; intros [|n]; simpl; try reflexivity.
  now rewrite IH.
Qed.

Lemma filter_map_length {A B} (f : A -> B) (P : B -> Prop) `{forall y, Decision (P y)}
      (l : list A) :
  length (filter P (map f l)) = length (filter (fun x => P (f x)) l).
Proof.
  induction l as [|x l IH]; simpl; [reflexivity|].
  rewrite !filter_cons. destruct (decide (P (f x))); simpl; now rewrite IH.
Qed.

(** A chunk of the aggregator has no final score and no final rank. *)
Lemma deduplicate_unranked (all : list SearchResult) (c : Chunk) :
  c ∈ deduplicate all -> unranked c = c.
Proof.
  intros (p0 & rest & _ & Hto & _)%AggregateMore.chunk_of_group.
  unfold to_chunk in Hto.
  destruct (chunk_data _) as [kept|]; [|discriminate]. now injection Hto as <-.
Qed.

Section WithServices.
Context `{Services}.



(** The summary of the report, whichever object carries it. *)
Lemma summary_report (completion : list nat) (queries : list string) :
  let all := fan_out completion queries in
  let final := final_chunks queries (deduplicate all) in
  summary (search_and_report completion queries)
  = mkSummary (length queries) queries
      (mkStats (total_before all) (length (deduplicate all))
         (Z.of_nat (total_before all) - Z.of_nat (length (deduplicate all)))%Z
         (length (filter (fun chunk => Nat.ltb 1 (retrieval_count chunk) = true) final)))
      (map query_detail all) (map format_chunk final)
      (length (map format_chunk final)) (py_round overall_seconds 2) /\
  (status (search_and_report completion queries) = Some "not_found"
   <-> map format_chunk final = []) /\
  (status (search_and_report completion queries) = None
   <-> map format_chunk final <> []).
Proof.
  intros all final. unfold search_and_report. fold all. fold final.
  destruct (map format_chunk final) as [|f fs]; simpl.
  - split; [reflexivity|]. split; split; try reflexivity; try discriminate.
    intros Hne. now destruct Hne.
  - split; [reflexivity|]. split; split; try discriminate; reflexivity.
Qed.

(** The numbers of the summary agree with each other, on every run:
    [total_results] is the number of formatted results, and the status
    [not_found] is given exactly when it is 0; the rows counted before
    deduplication are the results counted per query; the unique chunks
    are at most as many, so [duplicates_removed] is not negative; the
    chunks found several times are the formatted results flagged as
    duplicates, at most [total_results]; when no row was retrieved the
    status is [not_found]; and a single sub-query gives at most eight
    results. *)
Theorem summary_counts_are_consistent (completion : list nat) (queries : list string) :
  let report := search_and_report completion queries in
  let s := summary report in
  let stats := deduplication_stats s in
  total_queries s = length queries /\ parsed_queries s = queries /\
  total_results s = length (summary_results s) /\
  (status report = Some "not_found" <-> total_results s = 0) /\
  (status report = None <-> 0 < total_results s) /\
  total_chunks_before stats = sum_list (map qd_results_count (query_details s)) /\
  unique_chunks_after stats <= total_chunks_before stats /\
  (0 <= duplicates_removed stats)%Z /\
  Z.of_nat (total_chunks_before stats)
  = (Z.of_nat (unique_chunks_after stats) + duplicates_removed stats)%Z /\
  chunks_found_multiple_times stats
  = length (filter (fun f => fmt_is_duplicate_found f = true) (summary_results s)) /\
  chunks_found_multiple_times stats <= total_results s /\
  (total_chunks_before stats = 0 -> status report = Some "not_found") /\
  (length queries <= 1 -> total_results s <= 8).
Proof.
  intros report s stats. subst stats s report.
  destruct (summary_report completion queries) as (Hsum & Hnot & Hfound).
  cbv zeta in Hsum, Hnot, Hfound. rewrite Hsum, Hnot, Hfound.
  cbn [total_queries parsed_queries total_results summary_results deduplication_stats
       query_details total_chunks_before unique_chunks_after duplicates_removed
       chunks_found_multiple_times].
  set (all := fan_out completion queries).
  set (final := final_chunks queries (deduplicate all)).
  pose proof (AggregateMore.deduplicate_length_le all) as Hle.
  split; [reflexivity|]. split; [reflexivity|]. split; [reflexivity|].
  split; [|split]; [| |split; [|split; [|split; [|split; [|split; [|split; [|split]]]]]]].
  - destruct (map format_chunk final); simpl; split; (reflexivity || discriminate).
  - destruct (map format_chunk final); simpl; split; try lia; try discriminate.
    intros Hne. now destruct Hne.
  - unfold total_before. now rewrite map_map.
  - exact Hle.
  - lia.
  - lia.
  - now rewrite filter_map_length.
  - rewrite length_map. apply length_filter.
  - intros Hzero. subst final.
    destruct (deduplicate all) as [|c l]; [|simpl in Hle; lia].
    unfold final_chunks. simpl. now rewrite andb_false_r.
  - intros Hone. rewrite length_map. subst final. unfold final_chunks.
    apply Nat.ltb_ge in Hone. rewrite Hone. simpl. rewrite length_take. lia.
Qed.

(** Every formatted result: its content has 803 characters at most; it
    is flagged as a duplicate exactly when it was retrieved more than
    once; it was retrieved by at least one query and by at most as many
    queries as it was retrieved; and its id, source, titles, content and
    two scores are those of a record that the search of one of the
    sub-queries returned.  With a single sub-query it has no final rank. *)
Theorem formatted_results_are_consistent
        (completion : list nat) (queries : list string) (f : FormattedChunk) :
  f ∈ summary_results (summary (search_and_report completion queries)) ->
  PyStr.len (fmt_content f) <= 803 /\
  (fmt_is_duplicate_found f = true <-> 1 < fmt_retrieval_count f) /\
  1 <= fmt_unique_query_count f /\
  fmt_unique_query_count f <= fmt_retrieval_count f /\
  fmt_unique_query_count f = size (fmt_retrieved_by_queries f) /\
  (exists i q r,
     queries !! i = Some q /\ r ∈ results (task i q) /\
     fmt_chunk_id f = chunk_id r /\ fmt_source_url f = source_url r /\
     fmt_page_title f = page_title r /\ fmt_topic_heading f = topic_heading r /\
     fmt_content f = truncate_content (content r) /\
     fmt_similarity_score f = py_round (get_similarity r) 3 /\
     fmt_cohere_score f = py_round (get_cohere_score r) 3) /\
  (length queries <= 1 ->
   fmt_final_rank f = None /\ fmt_final_cohere_score f = py_round 0 3).
Proof.
  destruct (summary_report completion queries) as (Hsum & _). cbv zeta in Hsum.
  rewrite Hsum. cbn [summary_results]. clear Hsum.
  set (all := fan_out completion queries).
  intros (c & -> & Hc)%(list_elem_of_fmap_1 format_chunk).
  destruct (FusionMore.final_chunks_elem_of _ _ _ Hc) as (d & Hd & Heq).
  destruct (AggregateMore.chunk_counts all d Hd) as (Hone & Hle & Hsize).
  destruct (AggregateMore.chunk_row_retrieved all d Hd) as (sr & Hsr & Hrow).
  apply ReportFacts.elem_of_fan_out in Hsr as (i & q & Hq & ->).
  assert (Hr : row c = row d) by exact (f_equal row Heq).
  assert (Hcount : retrieval_count c = retrieval_count d)
    by exact (f_equal retrieval_count Heq).
  assert (Huniq : unique_query_count c = unique_query_count d)
    by exact (f_equal unique_query_count Heq).
  assert (Hby : retrieved_by_queries c = retrieved_by_queries d)
    by exact (f_equal retrieved_by_queries Heq).
  cbn [fmt_content fmt_is_duplicate_found fmt_retrieval_count fmt_unique_query_count
       fmt_retrieved_by_queries fmt_chunk_id fmt_source_url fmt_page_title
       fmt_topic_heading fmt_similarity_score fmt_cohere_score fmt_final_rank
       fmt_final_cohere_score format_chunk].
  split; [|split; [|split; [|split; [|split; [|split]]]]].
  - unfold truncate_content.
    destruct (Nat.ltb 800 (PyStr.len (content (row c)))) eqn:Hlong.
    + rewrite PyStrFacts.length_app, take_length.
      change (PyStr.len "...") with 3. lia.
    + apply Nat.ltb_ge in Hlong. lia.
  - apply Nat.ltb_lt.
  - now rewrite Huniq.
  - now rewrite Huniq, Hcount.
  - now rewrite Huniq, Hby.
  - exists i, q, (row d). rewrite Hr. repeat split; assumption.
  - intros Hfew.
    assert (Hin : c ∈ deduplicate all).
    { unfold final_chunks in Hc. apply Nat.ltb_ge in Hfew. rewrite Hfew in Hc.
      simpl in Hc. eapply subseteq_take, Hc. }
    apply deduplicate_unranked in Hin. rewrite <- Hin. split; reflexivity.
Qed.

End WithServices.

(** *** Two runs of the tool *)







Lemma formatted_results_witness :
  let report := @search_and_report Scenarios.healthy [0] ["sleep"] in
  exists f, head (summary_results (summary report)) = Some f /\
    PyStr.len (fmt_content f) <= 803 /\
    fmt_unique_query_count f <= fmt_retrieval_count f.
Proof.
  intros report.
  destruct (summary_results (summary report)) as [|f fs] eqn:Hres;
    [vm_compute in Hres; discriminate|].
  exists f. split; [reflexivity|].
  destruct (@formatted_results_are_consistent Scenarios.healthy [0] ["sleep"] f)
    as (Hlen & _ & _ & Hle & _).
  - fold report. rewrite Hres. constructor.
  - split; [exact Hlen | exact Hle].
Defined.

End ReportMore.

(** ** The parser on its input formats *)

Module ParserMore.
Import Parser Shape.

Lemma lstrip_head (s : string) :
  PyStr.lstrip s = ""
  \/ exists c r, PyStr.lstrip s = String c r /\ PyStr.is_space c = false.
Proof.
  induction s as [|c s IH]; simpl; [now left|].
  destruct (PyStr.is_space c) eqn:Hc; [exact IH|]. right. eauto.
Qed.

Lemma rstrip_head (c : char) (r : string) :
  PyStr.is_space c = false -> exists r', PyStr.rstrip (String c r) = String c r'.
Proof.
  intros Hc. simpl. rewrite Hc. destruct (PyStr.rstrip r); eauto.
Qed.

Lemma rstrip_idem (s : string) : PyStr.rstrip (PyStr.rstrip s) = PyStr.rstrip s.
Proof.
  induction s as [|c s IH]; simpl; [reflexivity|].
  destruct (PyStr.rstrip s) as [|c' r] eqn:Hr.
  - destruct (PyStr.is_space c) eqn:Hc; simpl; [reflexivity | now rewrite Hc].
  - change (PyStr.rstrip (String c (String c' r)))
      with (match PyStr.rstrip (String c' r) with
            | EmptyString =>
                if PyStr.is_space c then EmptyString else String c EmptyString
            | r0 => String c r0
            end).
    now rewrite IH.
Qed.

Lemma strip_idem (s : string) : PyStr.strip (PyStr.strip s) = PyStr.strip s.
Proof.
  unfold PyStr.strip.
  destruct (lstrip_head s) as [->|(c & r & -> & Hc)]; [reflexivity|].
  destruct (rstrip_head c r Hc) as [r' Hr'].
  replace (PyStr.lstrip (PyStr.rstrip (String c r))) with (PyStr.rstrip (String c r))
    by (rewrite Hr'; simpl; now rewrite Hc).
  apply rstrip_idem.
Qed.

Lemma strip_character (c : char) :
  PyStr.strip (String c EmptyString)
  = if PyStr.is_space c then EmptyString else String c EmptyString.
Proof. unfold PyStr.strip. simpl. destruct (PyStr.is_space c) eqn:Hc; simpl; now rewrite ?Hc. Qed.

Lemma cleanup_strings (l : list string) : cleanup (map JStr l) = Ok (stripped l).
Proof.
  unfold stripped. induction l as [|q l IH]; simpl; [reflexivity|].
  rewrite IH. simpl. rewrite filter_cons.
  destruct (PyStr.nonempty (PyStr.strip q)) eqn:Hq.
  - now rewrite decide_True.
  - now rewrite decide_False by congruence.
Qed.

Lemma validate_strings (l : list string) :
  validate (JList (map JStr l)) = Ok (or_default (stripped l)).
Proof. unfold validate. simpl. rewrite cleanup_strings. reflexivity. Qed.

Lemma stripped_characters (s : string) :
  stripped (map (fun c => String c EmptyString) (PyStr.chars s))
  = characters s.
Proof.
  unfold stripped, characters.
  induction (PyStr.chars s) as [|c l IH]; simpl; [reflexivity|].
  rewrite !filter_cons, strip_character, IH.
  destruct (PyStr.is_space c) eqn:Hc; reflexivity.
Qed.

Lemma validate_single (s : string) :
  validate (JList [JStr (PyStr.strip s)]) = Ok (or_default (stripped [s])).
Proof.
  change (JList [JStr (PyStr.strip s)]) with (JList (map JStr [PyStr.strip s])).
  rewrite validate_strings. unfold stripped. simpl. now rewrite strip_idem.
Qed.

Lemma validate_string (t : string) :
  validate (JStr t) = Ok (or_default (characters t)).
Proof.
  unfold validate. simpl.
  rewrite <- (map_map (fun c => String c EmptyString) JStr), cleanup_strings.
  simpl. now rewrite stripped_characters.
Qed.

Lemma cleanup_clean (items : list json) (queries : list string) :
  cleanup items = Ok queries ->
  Forall (fun q => q <> "" /\ PyStr.strip q = q) queries.
Proof.
  revert queries. induction items as [|v items IH]; intros queries; simpl.
  - intros [= <-]. constructor.
  - destruct v as [| | | |s| |]; simpl; try discriminate.
    destruct (cleanup items) as [kept|]; simpl; [|discriminate].
    specialize (IH kept eq_refl).
    destruct (PyStr.strip s) as [|c r] eqn:Hs; simpl; intros [= <-]; [assumption|].
    constructor; [|assumption]. split; [discriminate|].
    rewrite <- Hs. apply strip_idem.
Qed.


Lemma validate_clean (v : json) (queries : list string) :
  validate v = Ok queries ->
  Forall (fun q => q <> "" /\ PyStr.strip q = q) queries.
Proof.
  unfold validate. destruct (iterate v) as [items|]; simpl; [|discriminate].
  destruct (cleanup items) as [[|q qs]|] eqn:Hclean; simpl; intros [= <-].
  - constructor; [|constructor]. split; [discriminate | reflexivity].
  - now apply cleanup_clean in Hclean.
Qed.


Section WithServices.
Context `{Services}.

(** The queries that the parser returns are ready for the search: each
    is non-empty and has no white space at either end. *)
Theorem parsed_queries_are_stripped (query_input : string) (queries : list string) :
  parse_queries query_input = Ok queries ->
  queries <> [] /\
  Forall (fun q => q <> "" /\ PyStr.strip q = q) queries.
Proof.
  unfold parse_queries. intros Hparse.
  destruct (read_input query_input) as [v|e]; simpl in Hparse; [|discriminate].
  split.
  - now apply ParserFacts.validate_nonempty in Hparse.
  - now apply validate_clean in Hparse.
Qed.

(** What the parser reads from each input format.  A text that
    [json.loads] rejects with an exception the [except] clause names is
    one query; a JSON list of strings, alone or under the key
    [queries_json], as a value or as a text, gives its items; in each
    case the queries are stripped of white space, the Unicode spaces
    included, the blank ones dropped and the default query put in the
    place of an empty list.  A text under [queries_json] that is rejected
    in that way makes the whole input the query.  A JSON string is one
    query when [json.loads] raises on its text, whatever it raises; when
    the text is a JSON string again, it is read character by character. *)
Theorem parser_reads_each_format :
  (forall query_input e,
     json_loads query_input = Raise e -> caught e = true ->
     parse_queries query_input = Ok (or_default (stripped [query_input]))) /\
  (forall query_input l,
     json_loads query_input = Ok (JList (map JStr l)) ->
     parse_queries query_input = Ok (or_default (stripped l))) /\
  (forall query_input kvs l,
     json_loads query_input = Ok (JObj kvs) ->
     get_key "queries_json" kvs = Some (JList (map JStr l)) ->
     parse_queries query_input = Ok (or_default (stripped l))) /\
  (forall query_input kvs inner_json l,
     json_loads query_input = Ok (JObj kvs) ->
     get_key "queries_json" kvs = Some (JStr inner_json) ->
     json_loads inner_json = Ok (JList (map JStr l)) ->
     parse_queries query_input = Ok (or_default (stripped l))) /\
  (forall query_input kvs inner_json e,
     json_loads query_input = Ok (JObj kvs) ->
     get_key "queries_json" kvs = Some (JStr inner_json) ->
     json_loads inner_json = Raise e -> caught e = true ->
     parse_queries query_input = Ok (or_default (stripped [query_input]))) /\
  (forall query_input s e,
     json_loads query_input = Ok (JStr s) ->
     json_loads s = Raise e ->
     parse_queries query_input = Ok (or_default (stripped [s]))) /\
  (forall query_input s t,
     json_loads query_input = Ok (JStr s) ->
     json_loads s = Ok (JStr t) ->
     parse_queries query_input = Ok (or_default (characters t))).
Proof.
  unfold parse_queries, read_input, try_body. repeat split.
  - intros query_input e -> Hcaught. simpl. rewrite Hcaught. apply validate_single.
  - intros query_input l ->. apply validate_strings.
  - intros query_input kvs l -> Hkey. simpl. rewrite Hkey.
    destruct l; apply (validate_strings (_ :: _)) || apply (validate_strings []).
  - intros query_input kvs inner_json l -> Hkey Hinner. simpl.
    rewrite Hkey, Hinner. apply validate_strings.
  - intros query_input kvs inner_json e -> Hkey Hinner Hcaught. simpl.
    rewrite Hkey, Hinner, Hcaught. apply validate_single.
  - intros query_input s e -> Hinner. simpl. rewrite Hinner.
    apply (validate_strings [_]).
  - intros query_input s t -> Hinner. simpl. rewrite Hinner. apply validate_string.
Qed.


End WithServices.

(** A text between a no-break space and an ideographic space. *)
Lemma parsed_queries_witness :
  @parse_queries Scenarios.empty_store
     (String 160%N ("night wandering" +:+ String 12288%N EmptyString))
  = Ok ["night wandering"] /\
  Forall (fun q => q <> "" /\ PyStr.strip q = q) ["night wandering"].
Proof.
  split; [reflexivity|].
  apply (@parsed_queries_are_stripped Scenarios.empty_store
           (String 160%N ("night wandering" +:+ String 12288%N EmptyString))).
  reflexivity.
Defined.

Lemma parser_formats_witness :
  @parse_queries Scenarios.empty_store
     (String 160%N ("night wandering" +:+ String 12288%N EmptyString))
  = Ok ["night wandering"].
Proof.
  destruct (@parser_reads_each_format Scenarios.empty_store) as (Hplain & _).
  exact (Hplain (String 160%N ("night wandering" +:+ String 12288%N EmptyString))
           Scenarios.not_json eq_refl eq_refl).
Defined.


End ParserMore.

(** ** The window of the history in the worker *)

Module SessionMore.
Import Session SessionFacts.

Lemma session_log (chat_id : string) (exchanges : list (string * string)) :
  get_turns chat_id (session chat_id exchanges) = flat_map exchange_turns exchanges.
Proof.
  unfold session. rewrite record_all_log.
  change (get_turns chat_id ∅) with (@nil Turn). simpl.
  induction exchanges as [|[qu an] rest IH]; simpl; [reflexivity|].
  rewrite filter_cons. simpl. rewrite decide_True by reflexivity. simpl.
  now rewrite IH.
Qed.

Lemma drop_exchanges (m : nat) (exchanges : list (string * string)) :
  drop (2 * m) (flat_map exchange_turns exchanges)
  = flat_map exchange_turns (drop m exchanges).
Proof.
  revert exchanges. induction m as [|m IH]; intros exchanges; [reflexivity|].
  destruct exchanges as [|x rest]; [reflexivity|].
  replace (2 * S m) with (S (S (2 * m))) by lia. simpl. apply IH.
Qed.

(** The history that the worker builds after [k] completed exchanges.
    Up to five exchanges it shows them all, each as the line of the
    question and the line of the answer, and then the line of the new
    question.  From six exchanges on, the slice of twelve turns, taken
    after the new question was logged, cuts a pair: the history starts
    with the answer of the sixth exchange from the end, without its
    question, goes on with the last five exchanges and ends with the new
    question. *)
Theorem worker_window_cuts_a_pair
        (chat_id query : string) (exchanges : list (string * string)) :
  let mem := session chat_id exchanges in
  let blocks := history_blocks 6 chat_id (append_turn chat_id (mkTurn "user" query) mem) in
  (length exchanges <= 5 ->
   blocks = map block (flat_map exchange_turns exchanges) ++ ["**User:** " +:+ query]) /\
  (6 <= length exchanges ->
   exists older x recent,
     exchanges = older ++ x :: recent /\ length recent = 5 /\
     blocks = ("**Assistant:** " +:+ snd x)
              :: map block (flat_map exchange_turns recent)
              ++ ["**User:** " +:+ query]).
Proof.
  intros mem blocks. subst blocks mem. unfold history_blocks, slice_from.
  rewrite get_turns_append, decide_True by reflexivity. rewrite session_log.
  assert (Hneg : ((- (6) * 2 <? 0) = true)%Z) by reflexivity. rewrite Hneg.
  assert (Hlen : length (flat_map exchange_turns exchanges) = 2 * length exchanges).
  { induction exchanges as [|x rest IH]; simpl; [reflexivity | rewrite IH; lia]. }
  rewrite length_app, Hlen. simpl length. split.
  - intros Hfew.
    replace (Z.to_nat _) with 0 by lia. now rewrite drop_0, map_app.
  - intros Hmany.
    set (m := length exchanges - 6).
    replace (Z.to_nat _) with (S (2 * m)) by (subst m; lia).
    rewrite drop_app_le by (rewrite Hlen; subst m; lia).
    replace (drop (S (2 * m)) (flat_map exchange_turns exchanges))
      with (drop 1 (drop (2 * m) (flat_map exchange_turns exchanges)))
      by (rewrite drop_drop; f_equal; lia).
    rewrite drop_exchanges.
    destruct (drop m exchanges) as [|x recent] eqn:Hdrop.
    + apply (f_equal length) in Hdrop. rewrite length_drop in Hdrop.
      subst m. simpl in Hdrop. lia.
    + exists (take m exchanges), x, recent. split; [|split].
      * now rewrite <- Hdrop, take_drop.
      * apply (f_equal length) in Hdrop. rewrite length_drop in Hdrop.
        subst m. simpl in Hdrop. lia.
      * simpl. now rewrite map_app.
Qed.

(** Seven exchanges and a new question. *)
Lemma worker_window_witness :
  let exchanges := [("q1", "a1"); ("q2", "a2"); ("q3", "a3"); ("q4", "a4");
                    ("q5", "a5"); ("q6", "a6"); ("q7", "a7")] in
  6 <= length exchanges /\
  exists older x recent,
    exchanges = older ++ x :: recent /\ length recent = 5 /\
    history_blocks 6 "c1"
      (append_turn "c1" (mkTurn "user" "q8") (session "c1" exchanges))
    = ("**Assistant:** " +:+ snd x)
      :: map block (flat_map exchange_turns recent) ++ ["**User:** " +:+ "q8"].
Proof.
  intros exchanges. split; [simpl; lia|].
  destruct (worker_window_cuts_a_pair "c1" "q8" exchanges) as [_ Hmany].
  apply Hmany. simpl. lia.
Defined.

End SessionMore.
